(** * Claudian: path containment, blocklist, approvals and session recovery

    A shallow embedding of the security-relevant core of the Claudian
    Obsidian plugin.  JavaScript strings are [string]; the file system,
    the home directory and the working directory are an explicit
    environment; Node's [path] module is modelled for POSIX. *)

From Stdlib Require Import String Ascii List Bool Arith Lia.
Import ListNotations.
Open Scope string_scope.
Open Scope list_scope.

Set Implicit Arguments.

(* ================================================================== *)
(** ** JavaScript string primitives *)
(* ================================================================== *)

Module JsString.

(** [s.startsWith(pre)] *)
Definition startsWith (s pre : string) : bool := String.prefix pre s.

(** [s.slice(n)] for [0 <= n] *)
Fixpoint slice_from (n : nat) (s : string) : string :=
  match n, s with
  | O, _ => s
  | S _, EmptyString => EmptyString
  | S n', String _ s' => slice_from n' s'
  end.

(** [s.includes(sub)] *)
Fixpoint includes (s sub : string) : bool :=
  String.prefix sub s ||
  match s with
  | EmptyString => false
  | String _ s' => includes s' sub
  end.

Definition lower_ascii (c : ascii) : ascii :=
  let n := nat_of_ascii c in
  if Nat.leb 65 n && Nat.leb n 90 then ascii_of_nat (n + 32) else c.

(** [s.toLowerCase()] on the ASCII range *)
Fixpoint toLowerCase (s : string) : string :=
  match s with
  | EmptyString => EmptyString
  | String c s' => String (lower_ascii c) (toLowerCase s')
  end.

(** [s.split(sep)] for a one-character separator: never the empty list *)
Fixpoint split (sep : ascii) (s : string) : list string :=
  match s with
  | EmptyString => [EmptyString]
  | String c s' =>
      if Ascii.eqb c sep then EmptyString :: split sep s'
      else match split sep s' with
           | h :: t => String c h :: t
           | [] => [String c EmptyString]
           end
  end.

(** [parts.join(sep)] *)
Fixpoint join (sep : string) (parts : list string) : string :=
  match parts with
  | [] => EmptyString
  | [p] => p
  | p :: rest => (p ++ sep ++ join sep rest)%string
  end.

Definition chars (s : string) : list ascii := list_ascii_of_string s.
Definition of_chars (l : list ascii) : string := string_of_list_ascii l.

(** The character [c] does not occur in [s]. *)
Definition noChar (c : ascii) (s : string) : Prop := ~ In c (chars s).

End JsString.

(* ================================================================== *)
(** ** Node's [path] module, POSIX flavour *)
(* ================================================================== *)

Module NodePath.
Import JsString.

Definition slash : ascii := "/"%char.
(** [path.sep] *)
Definition sep : string := "/".

Definition isSlash (c : ascii) : bool := Ascii.eqb c slash.

(** [path.isAbsolute(p)] *)
Definition isAbsolute (p : string) : bool :=
  match p with
  | String c _ => isSlash c
  | EmptyString => false
  end.

(** One step of [normalizeString]: [stack] holds the segments kept so
    far, innermost first. *)
Definition normStep (allowAboveRoot : bool) (stack : list string) (seg : string)
  : list string :=
  if (seg =? "")%string || (seg =? ".")%string then stack
  else if (seg =? "..")%string then
    match stack with
    | top :: rest =>
        if (top =? "..")%string
        then (if allowAboveRoot then ".." :: stack else stack)
        else rest
    | [] => if allowAboveRoot then [".."] else []
    end
  else seg :: stack.

Fixpoint normSegs (allowAboveRoot : bool) (stack segs : list string) : list string :=
  match segs with
  | [] => stack
  | s :: rest => normSegs allowAboveRoot (normStep allowAboveRoot stack s) rest
  end.

(** [normalizeString(path, allowAboveRoot, "/", isPosixPathSeparator)] *)
Definition normalizeString (p : string) (allowAboveRoot : bool) : string :=
  join sep (rev (normSegs allowAboveRoot [] (split slash p))).

(** The right-to-left scan of [path.resolve]: [args] is given last
    argument first and ends with the working directory. *)
Fixpoint resolveScan (args : list string) (resolvedPath : string) : string * bool :=
  match args with
  | [] => (resolvedPath, false)
  | p :: rest =>
      if (p =? "")%string then resolveScan rest resolvedPath
      else
        let resolvedPath' := (p ++ "/" ++ resolvedPath)%string in
        if isAbsolute p then (resolvedPath', true)
        else resolveScan rest resolvedPath'
  end.

(** [path.resolve(...args)] with [process.cwd() = cwd] *)
Definition resolve (cwd : string) (args : list string) : string :=
  let '(resolvedPath, resolvedAbsolute) := resolveScan (rev args ++ [cwd]) "" in
  let normalized := normalizeString resolvedPath (negb resolvedAbsolute) in
  if resolvedAbsolute then ("/" ++ normalized)%string
  else if (normalized =? "")%string then "." else normalized.

(** [path.normalize(p)] *)
Definition normalize (p : string) : string :=
  if (p =? "")%string then "."
  else
    let isAbs := isAbsolute p in
    let trailingSeparator := isAbsolute (of_chars (rev (chars p))) in
    let body := normalizeString p (negb isAbs) in
    if (body =? "")%string then
      (if isAbs then "/" else if trailingSeparator then "./" else ".")
    else
      let body' := if trailingSeparator then (body ++ "/")%string else body in
      if isAbs then ("/" ++ body')%string else body'.

(** [path.join(...args)] *)
Definition join_paths (args : list string) : string :=
  match filter (fun a => negb (a =? "")%string) args with
  | [] => "."
  | parts => normalize (join sep parts)
  end.

Fixpoint dropWhile {A} (f : A -> bool) (l : list A) : list A :=
  match l with
  | [] => []
  | x :: r => if f x then dropWhile f r else l
  end.

Fixpoint takeWhile {A} (f : A -> bool) (l : list A) : list A :=
  match l with
  | [] => []
  | x :: r => if f x then x :: takeWhile f r else []
  end.

(** [path.dirname(p)]: the backward scan over indices [len-1 .. 1]
    skips trailing separators, then the last name, and cuts at the
    separator found there. *)
Definition dirname (p : string) : string :=
  match chars p with
  | [] => "."
  | c0 :: tl =>
      let hasRoot := isSlash c0 in
      let afterName :=
        dropWhile (fun c => negb (isSlash c)) (dropWhile isSlash (rev tl)) in
      match afterName with
      | [] => if hasRoot then "/" else "."
      | _ :: before =>
          if hasRoot && Nat.eqb (List.length before) 0 then "//"
          else of_chars (c0 :: rev before)
      end
  end.

(** [path.basename(p)] *)
Definition basename (p : string) : string :=
  of_chars (rev (takeWhile (fun c => negb (isSlash c))
                           (dropWhile isSlash (rev (chars p))))).

End NodePath.

(* ================================================================== *)
(** ** The environment: file system, home and working directory *)
(* ================================================================== *)

(** [realpathFn p = None] stands for [fs.realpathSync] throwing.
    [cwd] is what [process.cwd()] returns while the working directory
    is there: [Utils] is the code as it runs then, and [UtilsCwd] adds
    the case in which the working directory has been removed and
    [process.cwd()] throws. *)
Record Env : Type := mkEnv {
  realpathFn : string -> option string;
  existsSync : string -> bool;
  homedir : string;
  cwd : string
}.

(* ================================================================== *)
(** ** utils.ts: path containment *)
(* ================================================================== *)

Module Utils.
Import JsString.

Section WithEnv.
Variable env : Env.

(** The [while (true)] loop of [resolveRealPath].  [suffix] is the
    array in JavaScript order ([push] appends).  [fuel] bounds the
    number of iterations; [None] is returned only when it runs out. *)
Fixpoint walkUp (fuel : nat) (absolute current : string) (suffix : list string)
  : option string :=
  match fuel with
  | O => None
  | S fuel' =>
      let found :=
        if existsSync env current then
          match realpathFn env current with
          | Some resolvedExisting =>
              Some (if Nat.ltb 0 (List.length suffix)
                    then NodePath.join_paths (resolvedExisting :: rev suffix)
                    else resolvedExisting)
          | None => None
          end
        else None in
      match found with
      | Some r => Some r
      | None =>
          let parent := NodePath.dirname current in
          if (parent =? current)%string then Some absolute
          else walkUp fuel' absolute parent (suffix ++ [NodePath.basename current])
      end
  end.

(** [resolveRealPath(p)]; the loop is given one iteration per
    character of the absolute path, plus one. *)
Definition resolveRealPath (p : string) : option string :=
  match realpathFn env p with
  | Some r => Some r
  | None =>
      let absolute := NodePath.resolve (cwd env) [p] in
      walkUp (S (String.length absolute)) absolute absolute []
  end.

(** [candidatePath.startsWith('~/') ? path.join(os.homedir(),
    candidatePath.slice(2)) : candidatePath], the expression shared
    by both containment checks (and applied to each export path). *)
Definition expandHome (candidatePath : string) : string :=
  if startsWith candidatePath "~/"
  then NodePath.join_paths [homedir env; slice_from 2 candidatePath]
  else candidatePath.

(** [path.isAbsolute(expanded) ? expanded : path.resolve(vaultPath, expanded)] *)
Definition absoluteIn (vaultPath expanded : string) : string :=
  if NodePath.isAbsolute expanded then expanded
  else NodePath.resolve (cwd env) [vaultPath; expanded].

(** [a === b || a.startsWith(b + path.sep)] *)
Definition equalsOrUnder (resolvedCandidate root : string) : bool :=
  (resolvedCandidate =? root)%string
  || startsWith resolvedCandidate (root ++ NodePath.sep)%string.

Definition isPathWithinVault (candidatePath vaultPath : string) : option bool :=
  match resolveRealPath vaultPath with
  | None => None
  | Some vaultReal =>
      let expandedPath := expandHome candidatePath in
      let absCandidate := absoluteIn vaultPath expandedPath in
      match resolveRealPath absCandidate with
      | None => None
      | Some resolvedCandidate => Some (equalsOrUnder resolvedCandidate vaultReal)
      end
  end.

(** The [for (const exportPath of allowedExportPaths)] loop. *)
Fixpoint exportLoop (resolvedCandidate : string) (allowedExportPaths : list string)
  : option bool :=
  match allowedExportPaths with
  | [] => Some false
  | exportPath :: rest =>
      let expandedExport := expandHome exportPath in
      match resolveRealPath expandedExport with
      | None => None
      | Some resolvedExport =>
          if equalsOrUnder resolvedCandidate resolvedExport then Some true
          else exportLoop resolvedCandidate rest
      end
  end.

Definition isPathInAllowedExportPaths
  (candidatePath : string) (allowedExportPaths : list string) (vaultPath : string)
  : option bool :=
  if Nat.eqb (List.length allowedExportPaths) 0 then Some false
  else
    let expandedCandidate := expandHome candidatePath in
    let absCandidate := absoluteIn vaultPath expandedCandidate in
    match resolveRealPath absCandidate with
    | None => None
    | Some resolvedCandidate => exportLoop resolvedCandidate allowedExportPaths
    end.

End WithEnv.
End Utils.


(* ================================================================== *)
(** ** utils.ts when the working directory may be gone *)
(* ================================================================== *)

Module UtilsCwd.
Import JsString.

(** What a call does: it returns a value, or an exception escapes. *)
Inductive Outcome (A : Type) : Type :=
| Returns (a : A)
| Throws.

Arguments Returns {A} a.
Arguments Throws {A}.

(** [process.cwd()]: it throws when the working directory has been
    removed. *)
Definition processCwd (env : Env) (cwdRemoved : bool) : Outcome string :=
  if cwdRemoved then Throws else Returns (cwd env).

(** The right-to-left scan of [path.resolve] with the call of
    [process.cwd()] where the code has it: after the last argument,
    and only when no argument so far was absolute.  [args] is given
    last argument first. *)
Fixpoint resolveScan (env : Env) (cwdRemoved : bool) (args : list string)
         (resolvedPath : string) : Outcome (string * bool) :=
  match args with
  | [] =>
      match processCwd env cwdRemoved with
      | Throws => Throws
      | Returns w => Returns (NodePath.resolveScan [w] resolvedPath)
      end
  | p :: rest =>
      if (p =? "")%string then resolveScan env cwdRemoved rest resolvedPath
      else
        let resolvedPath' := (p ++ "/" ++ resolvedPath)%string in
        if NodePath.isAbsolute p then Returns (resolvedPath', true)
        else resolveScan env cwdRemoved rest resolvedPath'
  end.

(** [path.resolve(...args)] *)
Definition resolve (env : Env) (cwdRemoved : bool) (args : list string)
  : Outcome string :=
  match resolveScan env cwdRemoved (rev args) "" with
  | Throws => Throws
  | Returns (resolvedPath, resolvedAbsolute) =>
      let normalized := NodePath.normalizeString resolvedPath (negb resolvedAbsolute) in
      Returns (if resolvedAbsolute then ("/" ++ normalized)%string
               else if (normalized =? "")%string then "." else normalized)
  end.

(** [resolveRealPath(p)]: [path.resolve(p)] stands in the [catch]
    block, outside any [try], so what it throws escapes.  The loop is
    that of [Utils]; [None] is returned only when its fuel runs out. *)
Definition resolveRealPath (env : Env) (cwdRemoved : bool) (p : string)
  : option (Outcome string) :=
  match realpathFn env p with
  | Some r => Some (Returns r)
  | None =>
      match resolve env cwdRemoved [p] with
      | Throws => Some Throws
      | Returns absolute =>
          match Utils.walkUp env (S (String.length absolute)) absolute absolute [] with
          | Some r => Some (Returns r)
          | None => None
          end
      end
  end.

End UtilsCwd.

(* ================================================================== *)
(** ** Vocabulary for the statements about paths *)
(* ================================================================== *)

Module PathSpec.
Import JsString.

(** A segment that survives normalisation unchanged: a non-empty name
    other than [.] and [..] that contains no separator. *)
Definition plainSeg (s : string) : Prop :=
  s <> "" /\ s <> "." /\ s <> ".." /\ ~ In NodePath.slash (chars s).

(** The absolute path made of the given segments. *)
Definition render (segs : list string) : string :=
  ("/" ++ join NodePath.sep segs)%string.

(** The path that [path.resolve(v)] normalises when the working
    directory [cwd] is absolute. *)
Definition anchored (cwd v : string) : string :=
  if (v =? "")%string then cwd
  else if NodePath.isAbsolute v then v
  else (cwd ++ "/" ++ v)%string.

(** The segments of the resolved form of [v]. *)
Definition rootSegs (cwd v : string) : list string :=
  rev (NodePath.normSegs false [] (split NodePath.slash (anchored cwd v))).

(** The [k]-th ancestor of a path: [path.dirname] applied [k] times. *)
Definition ancestor (k : nat) (p : string) : string :=
  Nat.iter k NodePath.dirname p.

(** What the loop of [resolveRealPath] asks of a directory: it exists
    and [realpathFn] succeeds on it. *)
Definition canonOf (env : Env) (p : string) : option string :=
  if existsSync env p then realpathFn env p else None.

(** What [resolveRealPath] returns once an ancestor canonicalised to
    [r0], given the [suffix] array collected on the way up. *)
Definition walkResult (r0 : string) (suffix : list string) : string :=
  if Nat.ltb 0 (List.length suffix)
  then NodePath.join_paths (r0 :: rev suffix) else r0.

(** An environment without symbolic links: the working directory is
    absolute and [realpathFn], where it succeeds, returns the lexically
    resolved path. *)
Definition symlinkFree (env : Env) : Prop :=
  NodePath.isAbsolute (cwd env) = true /\
  forall p r, realpathFn env p = Some r -> r = NodePath.resolve (cwd env) [p].

(** The segments of a relative path after normalisation on its own
    ([..] kept where it climbs above the start). *)
Definition relSegs (p : string) : list string :=
  rev (NodePath.normSegs true [] (split NodePath.slash p)).

(** Every path exists and canonicalises to its lexical resolution, as
    in the repository's test doubles. *)
Definition plainEnv : Env :=
  mkEnv (fun p => Some (NodePath.resolve "/" [p])) (fun _ => true) "/home/test" "/".

(** [/vault/export] is a symbolic link to [/tmp/export]; nothing else
    below the root exists. *)
Definition symlinkEnv : Env :=
  mkEnv (fun s => if (s =? "/")%string then Some "/"
                  else if (s =? "/vault")%string then Some "/vault"
                  else if (s =? "/vault/export")%string then Some "/tmp/export"
                  else None)
        (fun s => (s =? "/")%string || (s =? "/vault")%string
                  || (s =? "/vault/export")%string)
        "/home/test" "/".

(** The vault holds an entry named [~] that is a symbolic link to the
    home directory. *)
Definition tildeLinkEnv : Env :=
  mkEnv (fun s => if (s =? "/vault/~")%string then Some "/home/test"
                  else Some (NodePath.resolve "/" [s]))
        (fun _ => true) "/home/test" "/".

(** Everything exists but [realpathFn] always throws. *)
Definition throwingEnv : Env :=
  mkEnv (fun _ => None) (fun _ => true) "/home/test" "/".

(** Separator-bounded containment, as a proposition. *)
Definition withinOrEqual (resolvedCandidate root : string) : Prop :=
  resolvedCandidate = root \/
  exists rest, resolvedCandidate = (root ++ NodePath.sep ++ rest)%string.

End PathSpec.

(* ================================================================== *)
(** ** Vocabulary for the statements about containment *)
(* ================================================================== *)

Module ContainmentSpec.
Import JsString PathSpec.

(** Containment as the specification words it: a canonical path is
    within a root when it is the root or a descendant of it, segment
    by segment. *)
Definition withinSegs (candidate root : list string) : Prop :=
  exists more, candidate = root ++ more.

(** The home-directory shorthand of the specification: a leading [~/]
    stands for the home directory. *)
Definition tildeExpanded (env : Env) (p : string) : string :=
  match p with
  | String a (String b rest) =>
      if Ascii.eqb a "~"%char && Ascii.eqb b "/"%char
      then NodePath.join_paths [homedir env; rest]
      else p
  | _ => p
  end.

(** The absolute form of a candidate before it is canonicalised: the
    home shorthand is expanded, and a relative path is taken from the
    vault root. *)
Definition candidateForm (env : Env) (vaultRoot candidate : string) : string :=
  let expanded := tildeExpanded env candidate in
  if NodePath.isAbsolute expanded then expanded
  else NodePath.resolve (cwd env) [vaultRoot; expanded].

(** The canonical form of a path as the specification describes it,
    in terms of the file system alone.  When [realpathFn] succeeds on
    the path that is its canonical form.  Otherwise the nearest
    ancestor of the absolute form that exists and canonicalises is
    canonicalised, and the base names passed on the way up are joined
    back, topmost first; when no ancestor qualifies, the absolute form
    itself. *)
Definition canonical (env : Env) (p r : string) : Prop :=
  match realpathFn env p with
  | Some r0 => r = r0
  | None =>
      let absolute := NodePath.resolve (cwd env) [p] in
      (exists k r0,
          (forall j, j < k ->
                     existsSync env (ancestor j absolute) = false \/
                     realpathFn env (ancestor j absolute) = None) /\
          existsSync env (ancestor k absolute) = true /\
          realpathFn env (ancestor k absolute) = Some r0 /\
          r = if Nat.eqb k 0 then r0
              else NodePath.join_paths
                     (r0 :: map (fun j => NodePath.basename (ancestor j absolute))
                                (rev (seq 0 k))))
      \/ ((forall k, existsSync env (ancestor k absolute) = false \/
                     realpathFn env (ancestor k absolute) = None)
          /\ r = absolute)
  end.

End ContainmentSpec.

(* ================================================================== *)
(** ** utils.ts: environment variables, models, the CLI path *)
(* ================================================================== *)

(** A JavaScript object used as [Record<string, string>]: the own
    properties in the order in which they were first assigned.  The
    code below only reads such objects by key. *)
Module JsObject.

Definition Record_ : Type := list (string * string).

(** [obj[key]] for an own property; [None] stands for [undefined]. *)
Fixpoint getProp (obj : Record_) (key : string) : option string :=
  match obj with
  | [] => None
  | (k, v) :: rest => if (k =? key)%string then Some v else getProp rest key
  end.

Fixpoint assign (obj : Record_) (key value : string) : Record_ :=
  match obj with
  | [] => [(key, value)]
  | (k, v) :: rest =>
      if (k =? key)%string then (k, value) :: rest else (k, v) :: assign rest key value
  end.

(** [obj[key] = value] on an object literal, for a string [value]:
    assigning a string to [__proto__] leaves the object as it is. *)
Definition setProp (obj : Record_) (key value : string) : Record_ :=
  if (key =? "__proto__")%string then obj else assign obj key value.

Definition keys (obj : Record_) : list string := map fst obj.

End JsObject.

Module UtilsEnv.
Import JsString JsObject.

(** White space as [String.prototype.trim] sees it, among the code
    units below 256. *)
Definition isWhiteSpace (c : ascii) : bool :=
  let n := nat_of_ascii c in
  (Nat.leb 9 n && Nat.leb n 13) || Nat.eqb n 32 || Nat.eqb n 160.

Definition trimStart (s : string) : string :=
  of_chars (NodePath.dropWhile isWhiteSpace (chars s)).

Definition trimEnd (s : string) : string :=
  of_chars (rev (NodePath.dropWhile isWhiteSpace (rev (chars s)))).

(** [s.trim()] *)
Definition trim (s : string) : string := trimEnd (trimStart s).

(** [s.indexOf(c)] for a one-character needle; [None] stands for -1. *)
Fixpoint indexOfChar (c : ascii) (s : string) : option nat :=
  match s with
  | EmptyString => None
  | String d rest =>
      if Ascii.eqb d c then Some 0
      else match indexOfChar c rest with
           | Some i => Some (S i)
           | None => None
           end
  end.

Definition lineFeed : ascii := ascii_of_nat 10.

(** The body of the loop of [parseEnvironmentVariables] for one line. *)
Definition parseLine (result : Record_) (line : string) : Record_ :=
  let trimmed := trim line in
  if (trimmed =? "")%string || startsWith trimmed "#" then result
  else
    match indexOfChar "="%char trimmed with
    | Some (S i) =>
        let eqIndex := S i in
        let key := trim (substring 0 eqIndex trimmed) in
        let value := trim (slice_from (eqIndex + 1) trimmed) in
        if (key =? "")%string then result else setProp result key value
    | _ => result
    end.

(** [parseEnvironmentVariables(input)] *)
Definition parseEnvironmentVariables (input : string) : Record_ :=
  fold_left parseLine (split lineFeed input) [].

(** A property read as a condition: [undefined] and the empty string
    are falsy. *)
Definition truthy (o : option string) : option string :=
  match o with
  | Some v => if (v =? "")%string then None else Some v
  | None => None
  end.

(** [getCurrentModelFromEnvironment(envVars)]; [None] stands for
    [null]. *)
Definition getCurrentModelFromEnvironment (envVars : Record_) : option string :=
  match truthy (getProp envVars "ANTHROPIC_MODEL") with
  | Some v => Some v
  | None =>
      match truthy (getProp envVars "ANTHROPIC_DEFAULT_OPUS_MODEL") with
      | Some v => Some v
      | None =>
          match truthy (getProp envVars "ANTHROPIC_DEFAULT_SONNET_MODEL") with
          | Some v => Some v
          | None => truthy (getProp envVars "ANTHROPIC_DEFAULT_HAIKU_MODEL")
          end
      end
  end.

(** *** [getModelsFromEnvironment] *)

(** [\w] *)
Definition isWordChar (c : ascii) : bool :=
  let n := nat_of_ascii c in
  (Nat.leb 48 n && Nat.leb n 57) || (Nat.leb 65 n && Nat.leb n 90)
  || Nat.eqb n 95 || (Nat.leb 97 n && Nat.leb n 122).

Definition upper_ascii (c : ascii) : ascii :=
  let n := nat_of_ascii c in
  if Nat.leb 97 n && Nat.leb n 122 then ascii_of_nat (n - 32) else c.

(** [s.replace(/-/g, ' ')] *)
Fixpoint dashesToSpaces (s : string) : string :=
  match s with
  | EmptyString => EmptyString
  | String c rest =>
      String (if Ascii.eqb c "-"%char then " "%char else c) (dashesToSpaces rest)
  end.

(** [s.replace(/\b\w/g, l => l.toUpperCase())]: [afterWord] tells
    whether the character before is a word character. *)
Fixpoint capitalizeWords (afterWord : bool) (s : string) : string :=
  match s with
  | EmptyString => EmptyString
  | String c rest =>
      String (if isWordChar c && negb afterWord then upper_ascii c else c)
             (capitalizeWords (isWordChar c) rest)
  end.

(** The label of a model value. *)
Definition modelLabel (modelValue : string) : string :=
  if includes modelValue "/" then
    let popped := last (split "/"%char modelValue) "" in
    if (popped =? "")%string then modelValue else popped
  else capitalizeWords false (dashesToSpaces modelValue).

Record ModelInfo : Type := mkInfo {
  types : list string;
  label : string
}.

(** [modelMap]: a [Map] in insertion order. *)
Definition ModelMap : Type := list (string * ModelInfo).

Fixpoint mapHas (m : ModelMap) (key : string) : bool :=
  match m with
  | [] => false
  | (k, _) :: rest => (k =? key)%string || mapHas rest key
  end.

(** [modelMap.get(key)!.types.push(type)] *)
Fixpoint mapPushType (m : ModelMap) (key type : string) : ModelMap :=
  match m with
  | [] => []
  | (k, info) :: rest =>
      if (k =? key)%string then (k, mkInfo (types info ++ [type]) (label info)) :: rest
      else (k, info) :: mapPushType rest key type
  end.

Definition modelEnvEntries : list (string * string) :=
  [ ("model", "ANTHROPIC_MODEL");
    ("opus", "ANTHROPIC_DEFAULT_OPUS_MODEL");
    ("sonnet", "ANTHROPIC_DEFAULT_SONNET_MODEL");
    ("haiku", "ANTHROPIC_DEFAULT_HAIKU_MODEL") ].

(** The body of the first loop for one entry. *)
Definition collectEntry (envVars : Record_) (modelMap : ModelMap)
           (entry : string * string) : ModelMap :=
  let '(type, envKey) := entry in
  match truthy (getProp envVars envKey) with
  | Some modelValue =>
      if negb (mapHas modelMap modelValue)
      then modelMap ++ [(modelValue, mkInfo [type] (modelLabel modelValue))]
      else mapPushType modelMap modelValue type
  | None => modelMap
  end.

Definition collectModels (envVars : Record_) : ModelMap :=
  fold_left (collectEntry envVars) modelEnvEntries [].

(** [typePriority[t] || 0] *)
Definition typePriority (t : string) : nat :=
  if (t =? "model")%string then 4
  else if (t =? "opus")%string then 3
  else if (t =? "sonnet")%string then 2
  else if (t =? "haiku")%string then 1
  else 0.

(** [Math.max(...types.map(priority))] for a list that is not empty. *)
Definition maxPriority (ts : list string) : nat :=
  fold_right Nat.max 0 (map typePriority ts).

(** [Array.prototype.sort] with a comparator that orders by a key,
    largest first: the sort is stable, so elements with equal keys keep
    their order ([x] stood before every element of [l]). *)
Fixpoint insertDesc {A} (key : A -> nat) (x : A) (l : list A) : list A :=
  match l with
  | [] => [x]
  | y :: rest => if Nat.leb (key y) (key x) then x :: l else y :: insertDesc key x rest
  end.

Definition sortDesc {A} (key : A -> nat) (l : list A) : list A :=
  fold_right (insertDesc key) [] l.

Record ModelOption : Type := mkOption {
  value : string;
  optionLabel : string;
  description : string
}.

Definition describe (ts : list string) : string :=
  ("Custom model (" ++ join ", " (sortDesc typePriority ts) ++ ")")%string.

(** [getModelsFromEnvironment(envVars)] *)
Definition getModelsFromEnvironment (envVars : Record_) : list ModelOption :=
  map (fun entry => mkOption (fst entry) (label (snd entry)) (describe (types (snd entry))))
      (sortDesc (fun entry => maxPriority (types (snd entry))) (collectModels envVars)).

(** *** [findClaudeCLIPath] *)

Definition commonPaths (homeDir : string) : list string :=
  [ NodePath.join_paths [homeDir; ".claude"; "local"; "claude"];
    NodePath.join_paths [homeDir; ".local"; "bin"; "claude"];
    "/usr/local/bin/claude";
    "/opt/homebrew/bin/claude";
    NodePath.join_paths [homeDir; "bin"; "claude"] ].

(** The [for (const p of commonPaths)] loop. *)
Fixpoint firstExisting (env : Env) (paths : list string) : option string :=
  match paths with
  | [] => None
  | p :: rest => if existsSync env p then Some p else firstExisting env rest
  end.

(** [findClaudeCLIPath()]; [None] stands for [null]. *)
Definition findClaudeCLIPath (env : Env) : option string :=
  firstExisting env (commonPaths (homedir env)).

End UtilsEnv.

(* ================================================================== *)
(** ** Further environments used in examples *)
(* ================================================================== *)

Module Fixtures.

(** Nothing exists and [realpathFn] throws on every path; the working
    directory is [/vault]. *)
Definition emptyDiskEnv : Env :=
  mkEnv (fun _ => None) (fun _ => false) "/home/test" "/vault".

(** Only [/] and [/vault] exist; there is no symbolic link and the
    working directory is [/vault]. *)
Definition sparseDiskEnv : Env :=
  mkEnv (fun s => if (s =? "/")%string || (s =? "/vault")%string
                  then Some (NodePath.resolve "/vault" [s]) else None)
        (fun s => (s =? "/")%string || (s =? "/vault")%string)
        "/home/test" "/vault".

(** [/vault-evil] is a symbolic link to [/vault/inner] and [/tmp-evil]
    one to [/tmp/inner]. *)
Definition evilLinkEnv : Env :=
  mkEnv (fun s => if (s =? "/vault-evil")%string then Some "/vault/inner"
                  else if (s =? "/tmp-evil")%string then Some "/tmp/inner"
                  else if (s =? "/")%string || (s =? "/vault")%string
                          || (s =? "/vault/inner")%string || (s =? "/tmp")%string
                          || (s =? "/tmp/inner")%string
                  then Some s else None)
        (fun s => (s =? "/")%string || (s =? "/vault")%string
                  || (s =? "/vault/inner")%string || (s =? "/tmp")%string
                  || (s =? "/tmp/inner")%string || (s =? "/vault-evil")%string
                  || (s =? "/tmp-evil")%string)
        "/home/test" "/".

End Fixtures.

(* ================================================================== *)
(** ** Vocabulary for the statements about model options *)
(* ================================================================== *)

Module EnvSpec.
Import JsObject UtilsEnv.

(** The types, in the order of [modelEnvEntries], whose environment
    variable holds the non-empty value [v]. *)
Definition carriers (envVars : Record_) (v : string) : list string :=
  map fst (filter (fun e => match truthy (getProp envVars (snd e)) with
                            | Some w => (w =? v)%string
                            | None => false
                            end) modelEnvEntries).

(** Two variables hold the same model, a third another one. *)
Definition sampleEnvVars : Record_ :=
  [ ("ANTHROPIC_DEFAULT_HAIKU_MODEL", "org/fast-model");
    ("ANTHROPIC_MODEL", "my-custom-model");
    ("ANTHROPIC_DEFAULT_OPUS_MODEL", "my-custom-model") ].

End EnvSpec.

From Stdlib Require DecimalString.

(* ================================================================== *)
(** ** systemPrompt.ts: the export instructions *)
(* ================================================================== *)

Module SystemPrompt.
Import JsString UtilsEnv.

(** ["\n"] *)
Definition newline : string := String lineFeed "".

(** [set.add(x)] on a [Set] kept in insertion order. *)
Definition setAdd (s : list string) (x : string) : list string :=
  if existsb (String.eqb x) s then s else s ++ [x].

(** [Array.from(new Set(xs))] *)
Definition newSet (xs : list string) : list string := fold_left setAdd xs [].

(** [Boolean] as a filter on strings. *)
Definition nonEmpty (s : string) : bool := negb (s =? "")%string.

(** The template literal that [getExportInstructions] returns, line by
    line: the lines before [${formattedPaths}] and those after it. *)
Definition templateHead : list string :=
  [ "";
    "";
    "# Allowed Export Paths";
    "";
    "You are restricted to the vault by default. You may write exported files outside the vault ONLY to the following allowed export paths:";
    "" ].

Definition templateTail : list string :=
  [ "";
    "Rules:";
    "- Treat export paths as write-only (do not read/list files from them)";
    "- For vault files, always use relative paths";
    "- For export destinations, you may use ~ or absolute paths";
    "";
    "Examples:";
    "";
    "```bash";
    "pandoc ./note.md -o ~/Desktop/note.docx";
    "cp ./note.md ~/Desktop/note.md";
    "cat ./note.md > ~/Desktop/note.md";
    "```" ].

Definition exportTemplate (formattedPaths : string) : string :=
  join newline (templateHead ++ formattedPaths :: templateTail).

(** [getExportInstructions(allowedExportPaths)] *)
Definition getExportInstructions (allowedExportPaths : list string) : string :=
  if Nat.eqb (List.length allowedExportPaths) 0 then ""
  else
    let uniquePaths := newSet (filter nonEmpty (map trim allowedExportPaths)) in
    if Nat.eqb (List.length uniquePaths) 0 then ""
    else
      let formattedPaths := join newline (map (fun p => ("- " ++ p)%string) uniquePaths) in
      exportTemplate formattedPaths.

End SystemPrompt.

(* ================================================================== *)
(** ** ui/ToolCallRenderer.ts: the string helpers *)
(* ================================================================== *)

Module ToolCallRenderer.
Import JsString UtilsEnv.

(** [parts.slice(-2)] *)
Definition sliceLastTwo {A} (parts : list A) : list A :=
  skipn (List.length parts - 2) parts.

(** [shortenPath(path)]; [None] stands for [undefined]. *)
Definition shortenPath (path : option string) : string :=
  match path with
  | None => ""
  | Some p =>
      if (p =? "")%string then ""
      else
        let parts := split "/"%char p in
        if Nat.leb (List.length parts) 3 then p
        else (".../" ++ join "/" (sliceLastTwo parts))%string
  end.

(** A number in a template literal: its decimal digits. *)
Definition decimal (n : nat) : string :=
  DecimalString.NilEmpty.string_of_uint (Nat.to_uint n).

(** [truncateResult(result, maxLines, maxLength)]; the defaults are
    [maxLines = 20] and [maxLength = 2000]. *)
Definition truncateResult (result : string) (maxLines maxLength : nat) : string :=
  let result :=
    if Nat.ltb maxLength (String.length result)
    then substring 0 maxLength result else result in
  let lines := split lineFeed result in
  if Nat.ltb maxLines (List.length lines) then
    let moreLines := List.length lines - maxLines in
    (join SystemPrompt.newline (firstn maxLines lines)
     ++ SystemPrompt.newline ++ decimal moreLines ++ " more lines")%string
  else result.

(** [c.toLowerCase()] for a code unit below 256. *)
Definition lower_latin1 (c : ascii) : ascii :=
  let n := nat_of_ascii c in
  if (Nat.leb 65 n && Nat.leb n 90)
     || (Nat.leb 192 n && Nat.leb n 222 && negb (Nat.eqb n 215))
  then ascii_of_nat (n + 32) else c.

Fixpoint toLowerCase (s : string) : string :=
  match s with
  | EmptyString => EmptyString
  | String c rest => String (lower_latin1 c) (toLowerCase rest)
  end.

(** [isBlockedToolResult(content, isError)]; [isError = None] stands
    for an argument that is not given. *)
Definition isBlockedToolResult (content : string) (isError : option bool) : bool :=
  let lower := toLowerCase content in
  if includes lower "blocked by blocklist" then true
  else if includes lower "outside the vault" then true
  else if includes lower "access denied" then true
  else if includes lower "user denied" then true
  else if includes lower "approval" then true
  else if match isError with Some true => includes lower "deny" | _ => false end then true
  else false.

End ToolCallRenderer.

(* ================================================================== *)
(** ** Regular expressions: the fragment of [RegExp] the blocklist needs *)
(* ================================================================== *)

(** The blocklist hands its patterns to the JavaScript [RegExp]
    constructor.  What the blocklist needs from it is an interface: a
    pattern compiles or it does not, and a compiled pattern can be
    tested against a string. *)
Record RegExpEngine : Type := mkEngine {
  compiled : Type;
  compile : string -> option compiled;
  test : compiled -> string -> bool
}.

(** A concrete engine for the patterns without flags, look-around,
    back-references, word-boundary assertions and Unicode escapes:
    literals, [.], classes, groups, alternation, the quantifiers
    [* + ? {n} {n,} {n,m}] (greedy or lazy) and the anchors [^] and [$].
    Patterns that use a construct outside this fragment are not
    compiled by it. *)
Module MiniRegExp.
Import JsString.

Record CharClass : Type := mkClass {
  negated : bool;
  ranges : list (nat * nat)
}.

Definition inRange (c : ascii) (r : nat * nat) : bool :=
  Nat.leb (fst r) (nat_of_ascii c) && Nat.leb (nat_of_ascii c) (snd r).

Definition classMatches (cls : CharClass) (c : ascii) : bool :=
  xorb (negated cls) (existsb (inRange c) (ranges cls)).

Inductive regex : Type :=
| Never
| Eps
| Chr (cls : CharClass)
| Cat (r1 r2 : regex)
| Alt (r1 r2 : regex)
| Star (r : regex)
| Bol
| Eol.

(** *** What a pattern matches *)

Definition isEmpty (s : string) : bool :=
  match s with EmptyString => true | String _ _ => false end.

(** [Matches r atStart w atEnd]: [r] matches the word [w], which
    begins at the start of the input when [atStart] holds and ends at
    its end when [atEnd] holds. *)
Inductive Matches : regex -> bool -> string -> bool -> Prop :=
| M_eps atStart atEnd : Matches Eps atStart "" atEnd
| M_chr cls c atStart atEnd :
    classMatches cls c = true -> Matches (Chr cls) atStart (String c "") atEnd
| M_cat r1 r2 w1 w2 atStart atEnd :
    Matches r1 atStart w1 (atEnd && isEmpty w2) ->
    Matches r2 (atStart && isEmpty w1) w2 atEnd ->
    Matches (Cat r1 r2) atStart (w1 ++ w2) atEnd
| M_alt_l r1 r2 w atStart atEnd :
    Matches r1 atStart w atEnd -> Matches (Alt r1 r2) atStart w atEnd
| M_alt_r r1 r2 w atStart atEnd :
    Matches r2 atStart w atEnd -> Matches (Alt r1 r2) atStart w atEnd
| M_star_nil r atStart atEnd : Matches (Star r) atStart "" atEnd
| M_star_more r w1 w2 atStart atEnd :
    w1 <> "" ->
    Matches r atStart w1 (atEnd && isEmpty w2) ->
    Matches (Star r) false w2 atEnd ->
    Matches (Star r) atStart (w1 ++ w2) atEnd
| M_bol atEnd : Matches Bol true "" atEnd
| M_eol atStart : Matches Eol atStart "" true.

(** Some substring of [s] matches [r]. *)
Definition MatchesWithin (r : regex) (s : string) : Prop :=
  exists a w b, s = (a ++ w ++ b)%string /\ Matches r (isEmpty a) w (isEmpty b).

(** *** Matching by derivatives *)

(** Does [r] match the empty string at a position that is at the
    start ([atStart]) or at the end ([atEnd]) of the input? *)
Fixpoint nullable (atStart atEnd : bool) (r : regex) : bool :=
  match r with
  | Never => false
  | Eps => true
  | Chr _ => false
  | Cat r1 r2 => nullable atStart atEnd r1 && nullable atStart atEnd r2
  | Alt r1 r2 => nullable atStart atEnd r1 || nullable atStart atEnd r2
  | Star _ => true
  | Bol => atStart
  | Eol => atEnd
  end.

(** What remains of [r] after reading [c]; [c] is the first character
    of the input when [atStart] holds. *)
Fixpoint deriv (c : ascii) (atStart : bool) (r : regex) : regex :=
  match r with
  | Never | Eps | Bol | Eol => Never
  | Chr cls => if classMatches cls c then Eps else Never
  | Cat r1 r2 =>
      if nullable atStart false r1
      then Alt (Cat (deriv c atStart r1) r2) (deriv c atStart r2)
      else Cat (deriv c atStart r1) r2
  | Alt r1 r2 => Alt (deriv c atStart r1) (deriv c atStart r2)
  | Star r1 => Cat (deriv c atStart r1) (Star r1)
  end.

(** Some prefix of [s] matches [r]. *)
Fixpoint matchHere (r : regex) (atStart : bool) (s : string) : bool :=
  match s with
  | EmptyString => nullable atStart true r
  | String c t => nullable atStart false r || matchHere (deriv c atStart r) false t
  end.

(** Some substring of [s] matches [r]. *)
Fixpoint search (r : regex) (atStart : bool) (s : string) : bool :=
  matchHere r atStart s ||
  match s with
  | EmptyString => false
  | String _ t => search r false t
  end.

(** [new RegExp(p).test(s)] on a compiled pattern *)
Definition testRegex (r : regex) (s : string) : bool := search r true s.

(** *** Reading a pattern *)

Definition code (c : ascii) : nat := nat_of_ascii c.
Definition single (c : ascii) : CharClass := mkClass false [(code c, code c)].
Definition lit (c : ascii) : regex := Chr (single c).

Definition digitRanges : list (nat * nat) := [(48, 57)].
Definition wordRanges : list (nat * nat) := [(48, 57); (65, 90); (95, 95); (97, 122)].
(** [\s] on code units below 256: the controls 9 to 13, the space and
    the no-break space. *)
Definition spaceRanges : list (nat * nat) := [(9, 13); (32, 32); (160, 160)].
Definition nonDigitRanges : list (nat * nat) := [(0, 47); (58, 255)].
Definition nonWordRanges : list (nat * nat) :=
  [(0, 47); (58, 64); (91, 94); (96, 96); (123, 255)].
Definition nonSpaceRanges : list (nat * nat) :=
  [(0, 8); (14, 31); (33, 159); (161, 255)].
(** [.] matches everything but the line terminators *)
Definition dotClass : CharClass := mkClass true [(10, 10); (13, 13)].

Definition isDigit (c : ascii) : bool := Nat.leb 48 (code c) && Nat.leb (code c) 57.

Definition hexValue (c : ascii) : option nat :=
  let n := code c in
  if Nat.leb 48 n && Nat.leb n 57 then Some (n - 48)
  else if Nat.leb 65 n && Nat.leb n 70 then Some (n - 55)
  else if Nat.leb 97 n && Nat.leb n 102 then Some (n - 87)
  else None.

(** What follows a backslash: one character, a set, or nothing this
    fragment handles. *)
Inductive escape : Type :=
| EscChar (c : ascii)
| EscSet (rs : list (nat * nat)).

Definition parseEscape (inClass : bool) (s : list ascii)
  : option (escape * list ascii) :=
  match s with
  | [] => None
  | c :: rest =>
      match c with
      | "d"%char => Some (EscSet digitRanges, rest)
      | "D"%char => Some (EscSet nonDigitRanges, rest)
      | "w"%char => Some (EscSet wordRanges, rest)
      | "W"%char => Some (EscSet nonWordRanges, rest)
      | "s"%char => Some (EscSet spaceRanges, rest)
      | "S"%char => Some (EscSet nonSpaceRanges, rest)
      | "t"%char => Some (EscChar (ascii_of_nat 9), rest)
      | "n"%char => Some (EscChar (ascii_of_nat 10), rest)
      | "v"%char => Some (EscChar (ascii_of_nat 11), rest)
      | "f"%char => Some (EscChar (ascii_of_nat 12), rest)
      | "r"%char => Some (EscChar (ascii_of_nat 13), rest)
      | "b"%char => if inClass then Some (EscChar (ascii_of_nat 8), rest) else None
      | "B"%char | "c"%char | "u"%char | "k"%char | "p"%char | "P"%char => None
      | "x"%char =>
          match rest with
          | h1 :: h2 :: rest' =>
              match hexValue h1, hexValue h2 with
              | Some a, Some b => Some (EscChar (ascii_of_nat (16 * a + b)), rest')
              | _, _ => Some (EscChar c, rest)
              end
          | _ => Some (EscChar c, rest)
          end
      | "0"%char =>
          match rest with
          | d :: _ => if isDigit d then None else Some (EscChar (ascii_of_nat 0), rest)
          | [] => Some (EscChar (ascii_of_nat 0), rest)
          end
      | _ => if isDigit c then None else Some (EscChar c, rest)
      end
  end.

(** One member of a class: a character or a set. *)
Definition parseClassAtom (s : list ascii) : option (escape * list ascii) :=
  match s with
  | [] => None
  | "\"%char :: rest => parseEscape true rest
  | c :: rest => Some (EscChar c, rest)
  end.

(** The members of a class up to the closing bracket. *)
Fixpoint parseClassItems (fuel : nat) (s : list ascii) (acc : list (nat * nat))
  : option (list (nat * nat) * list ascii) :=
  match fuel with
  | O => None
  | S fuel' =>
      match s with
      | [] => None
      | "]"%char :: rest => Some (acc, rest)
      | _ =>
          match parseClassAtom s with
          | None => None
          | Some (EscSet rs, rest) => parseClassItems fuel' rest (acc ++ rs)
          | Some (EscChar lo, rest) =>
              match rest with
              | "-"%char :: after =>
                  match after with
                  | [] => None
                  | "]"%char :: _ =>
                      parseClassItems fuel' rest (acc ++ [(code lo, code lo)])
                  | _ =>
                      match parseClassAtom after with
                      | None => None
                      | Some (EscChar hi, rest') =>
                          if Nat.leb (code lo) (code hi)
                          then parseClassItems fuel' rest' (acc ++ [(code lo, code hi)])
                          else None
                      | Some (EscSet rs, rest') =>
                          parseClassItems fuel' rest'
                            (acc ++ [(code lo, code lo); (45, 45)] ++ rs)
                      end
                  end
              | _ => parseClassItems fuel' rest (acc ++ [(code lo, code lo)])
              end
          end
      end
  end.

Definition parseClass (s : list ascii) : option (regex * list ascii) :=
  let '(neg, body) :=
    match s with
    | "^"%char :: rest => (true, rest)
    | _ => (false, s)
    end in
  match parseClassItems (S (List.length body)) body [] with
  | Some (rs, rest) => Some (Chr (mkClass neg rs), rest)
  | None => None
  end.

Fixpoint parseNat (s : list ascii) (acc : nat) : nat * list ascii :=
  match s with
  | c :: rest => if isDigit c then parseNat rest (10 * acc + (code c - 48)) else (acc, s)
  | [] => (acc, s)
  end.

(** A braced quantifier [{n}], [{n,}] or [{n,m}] at the head of [s]:
    its bounds and what follows it. *)
Definition parseBraces (s : list ascii) : option (nat * option nat * list ascii) :=
  match s with
  | "{"%char :: (d :: _) as rest =>
      if isDigit d then
        let '(n, rest1) := parseNat rest 0 in
        match rest1 with
        | "}"%char :: rest2 => Some (n, Some n, rest2)
        | ","%char :: "}"%char :: rest2 => Some (n, None, rest2)
        | ","%char :: (d2 :: _) as rest2 =>
            if isDigit d2 then
              let '(m, rest3) := parseNat rest2 0 in
              match rest3 with
              | "}"%char :: rest4 => Some (n, Some m, rest4)
              | _ => None
              end
            else None
        | _ => None
        end
      else None
  | _ => None
  end.

Fixpoint repeat_regex (n : nat) (r : regex) : regex :=
  match n with
  | O => Eps
  | S n' => Cat r (repeat_regex n' r)
  end.

Fixpoint upto_regex (n : nat) (r : regex) : regex :=
  match n with
  | O => Eps
  | S n' => Alt Eps (Cat r (upto_regex n' r))
  end.

Definition dropLazy (s : list ascii) : list ascii :=
  match s with
  | "?"%char :: rest => rest
  | _ => s
  end.

(** The quantifier, if any, that follows an atom. [None] is a syntax
    error (bounds out of order). *)
Definition parseQuantifier (atom : regex) (s : list ascii)
  : option (regex * list ascii) :=
  match s with
  | "*"%char :: rest => Some (Star atom, dropLazy rest)
  | "+"%char :: rest => Some (Cat atom (Star atom), dropLazy rest)
  | "?"%char :: rest => Some (Alt Eps atom, dropLazy rest)
  | _ =>
      match parseBraces s with
      | Some (n, None, rest) => Some (Cat (repeat_regex n atom) (Star atom), dropLazy rest)
      | Some (n, Some m, rest) =>
          if Nat.leb n m
          then Some (Cat (repeat_regex n atom) (upto_regex (m - n) atom), dropLazy rest)
          else None
      | None => Some (atom, s)
      end
  end.

Definition isSome {A} (o : option A) : bool :=
  match o with Some _ => true | None => false end.

(** Disjunction, alternative and term of the pattern grammar. *)
Fixpoint parseDisjunction (fuel : nat) (s : list ascii) : option (regex * list ascii) :=
  match fuel with
  | O => None
  | S fuel' =>
      match parseAlternative fuel' s with
      | None => None
      | Some (r1, "|"%char :: rest) =>
          match parseDisjunction fuel' rest with
          | Some (r2, rest') => Some (Alt r1 r2, rest')
          | None => None
          end
      | Some (r1, rest) => Some (r1, rest)
      end
  end
with parseAlternative (fuel : nat) (s : list ascii) : option (regex * list ascii) :=
  match fuel with
  | O => None
  | S fuel' =>
      match s with
      | [] => Some (Eps, s)
      | "|"%char :: _ => Some (Eps, s)
      | ")"%char :: _ => Some (Eps, s)
      | _ =>
          match parseTerm fuel' s with
          | None => None
          | Some (r1, rest) =>
              match parseAlternative fuel' rest with
              | Some (r2, rest') => Some (Cat r1 r2, rest')
              | None => None
              end
          end
      end
  end
with parseTerm (fuel : nat) (s : list ascii) : option (regex * list ascii) :=
  match fuel with
  | O => None
  | S fuel' =>
      match s with
      | [] => None
      | "^"%char :: rest => Some (Bol, rest)
      | "$"%char :: rest => Some (Eol, rest)
      | "*"%char :: _ | "+"%char :: _ | "?"%char :: _ => None
      | "("%char :: "?"%char :: ":"%char :: rest =>
          match parseDisjunction fuel' rest with
          | Some (r, ")"%char :: rest') => parseQuantifier r rest'
          | _ => None
          end
      | "("%char :: "?"%char :: _ => None
      | "("%char :: rest =>
          match parseDisjunction fuel' rest with
          | Some (r, ")"%char :: rest') => parseQuantifier r rest'
          | _ => None
          end
      | "["%char :: rest =>
          match parseClass rest with
          | Some (r, rest') => parseQuantifier r rest'
          | None => None
          end
      | "\"%char :: rest =>
          match parseEscape false rest with
          | Some (EscChar c, rest') => parseQuantifier (lit c) rest'
          | Some (EscSet rs, rest') => parseQuantifier (Chr (mkClass false rs)) rest'
          | None => None
          end
      | "."%char :: rest => parseQuantifier (Chr dotClass) rest
      | "{"%char :: rest =>
          if isSome (parseBraces s) then None else parseQuantifier (lit "{"%char) rest
      | c :: rest => parseQuantifier (lit c) rest
      end
  end.

(** [new RegExp(p)] on the patterns of the fragment parsed above:
    literals, classes, the escapes listed in [parseEscape], groups,
    alternation and quantifiers.  On this fragment [None] stands for
    the constructor throwing.  A pattern that uses anything else
    (anchors, word boundaries, look-around, back references, named
    groups, [\u] and [\c] escapes) is answered [None] as well, although
    the constructor of the runtime accepts it; nothing is stated about
    such patterns. *)
Definition compileRegex (p : string) : option regex :=
  match parseDisjunction (4 * String.length p + 8) (chars p) with
  | Some (r, []) => Some r
  | _ => None
  end.

Definition engine : RegExpEngine := mkEngine compileRegex testRegex.

End MiniRegExp.

(* ================================================================== *)
(** ** BlocklistChecker *)
(* ================================================================== *)

Module Blocklist.
Import JsString.

Section WithEngine.
Variable E : RegExpEngine.

(** Modelled from the spec: one pattern of the blocklist against a
    command (the body of [isCommandBlocked] is not among the
    sources): compile the pattern as a regular expression and test
    the command; when it does not compile, case-sensitive substring
    containment. *)
Definition patternMatches (pattern command : string) : bool :=
  match compile E pattern with
  | Some r => test E r command
  | None => includes command pattern
  end.

(** Modelled from the spec: the first pattern that matches, kept for
    the diagnostic. *)
Definition findBlockedPattern (command : string) (patterns : list string)
  : option string :=
  find (fun pattern => patternMatches pattern command) patterns.

(** Modelled from the spec: [isBlocked(command, patterns)]. *)
Definition isCommandBlocked (command : string) (patterns : list string) : bool :=
  match findBlockedPattern command patterns with
  | Some _ => true
  | None => false
  end.

End WithEngine.
End Blocklist.

(* ================================================================== *)
(** ** types.ts: the shared records *)
(* ================================================================== *)

Module Types.

(** ['yolo' | 'normal'] *)
Inductive PermissionMode : Type := Yolo | Normal.

(** ['session' | 'always'] *)
Inductive ApprovalScope : Type := ScopeSession | ScopeAlways.

Record ApprovedAction : Type := mkApprovedAction {
  toolName : string;
  pattern : string;
  approvedAt : nat;
  scope : ApprovalScope
}.

(** The fields of [ClaudianSettings] that the mediation core reads. *)
Record ClaudianSettings : Type := mkSettings {
  enableBlocklist : bool;
  blockedCommands : list string;
  permissionMode : PermissionMode;
  approvedActions : list ApprovedAction;
  allowedExportPaths : list string
}.

(** [status: 'running' | 'completed' | 'error' | 'blocked'] *)
Inductive ToolStatus : Type := Running | Completed | Errored | StatusBlocked.

(** A tool input, [Record<string, unknown>], restricted to string
    fields; later bindings of a key are shadowed by earlier ones. *)
Definition ToolInput : Type := list (string * string).

Record ToolCallInfo : Type := mkToolCall {
  toolId : string;
  name : string;
  input : ToolInput;
  status : ToolStatus;
  result : option string
}.

(** [role: 'user' | 'assistant']; the service tests also hand over
    messages of other roles through untyped arrays. *)
Inductive Role : Type := User | Assistant | OtherRole (name : string).

Record ChatMessage : Type := mkMessage {
  messageId : string;
  role : Role;
  content : string;
  toolCalls : list ToolCallInfo;
  contextFiles : option (list string)
}.

Inductive StreamChunk : Type :=
| TextChunk (content : string)
| ThinkingChunk (content : string)
| ToolUseChunk (id name : string) (input : ToolInput)
| ToolResultChunk (id content : string) (isError : bool)
| ErrorChunk (content : string)
| BlockedChunk (content : string)
| DoneChunk.

End Types.

(* ================================================================== *)
(** ** ApprovalManager: the approval memory *)
(* ================================================================== *)

Module Approval.
Import JsString Types.

Fixpoint getField (input : ToolInput) (key : string) : option string :=
  match input with
  | [] => None
  | (k, v) :: rest => if (k =? key)%string then Some v else getField rest key
  end.

Definition fieldOrEmpty (input : ToolInput) (key : string) : string :=
  match getField input key with Some v => v | None => "" end.

Inductive ToolKind : Type := ShellTool | FileTool | SearchTool | OtherTool.

Definition toolKind (tool : string) : ToolKind :=
  if (tool =? "Bash")%string then ShellTool
  else if (tool =? "Read")%string || (tool =? "Write")%string || (tool =? "Edit")%string
          || (tool =? "NotebookEdit")%string
  then FileTool
  else if (tool =? "Glob")%string || (tool =? "Grep")%string then SearchTool
  else OtherTool.

(** The first of the fields [keys] that holds a non-empty string, as
    in [input.a || input.b]. *)
Fixpoint firstField (input : ToolInput) (keys : list string) : option string :=
  match keys with
  | [] => None
  | k :: rest =>
      match getField input k with
      | Some v => if (v =? "")%string then firstField input rest else Some v
      | None => firstField input rest
      end
  end.

(** A rendering of a whole input, for tools without a pattern field. *)
Definition renderInput (input : ToolInput) : string :=
  join "," (map (fun kv => (fst kv ++ "=" ++ snd kv)%string) input).

(** Modelled from the spec: [getActionPattern], whose body is not
    among the sources: the command of a shell tool, the target path of
    a file tool (for a notebook its [notebook_path]), the pattern of a
    search tool. *)
Definition getActionPattern (tool : string) (input : ToolInput) : string :=
  match toolKind tool with
  | ShellTool => fieldOrEmpty input "command"
  | FileTool =>
      if (tool =? "NotebookEdit")%string
      then match firstField input ["notebook_path"; "file_path"] with
           | Some p => p
           | None => ""
           end
      else fieldOrEmpty input "file_path"
  | SearchTool => fieldOrEmpty input "pattern"
  | OtherTool => renderInput input
  end.

(** Modelled from the spec: [matchesRulePattern]: file paths match an
    approved pattern by prefix, commands and search patterns only
    when equal. *)
Definition matchesRulePattern (tool actionPattern approvedPattern : string) : bool :=
  match toolKind tool with
  | FileTool => startsWith actionPattern approvedPattern
  | _ => (actionPattern =? approvedPattern)%string
  end.

(** The approval state of one service instance: the in-memory session
    list, the settings that hold the permanent list, and how often the
    settings were saved. *)
Record Store : Type := mkStore {
  sessionApprovedActions : list ApprovedAction;
  settings : ClaudianSettings;
  saves : nat
}.

Definition withApprovedActions (s : ClaudianSettings) (l : list ApprovedAction)
  : ClaudianSettings :=
  mkSettings (enableBlocklist s) (blockedCommands s) (permissionMode s) l
             (allowedExportPaths s).

Definition approves (tool actionPattern : string) (a : ApprovedAction) : bool :=
  (toolName a =? tool)%string && matchesRulePattern tool actionPattern (pattern a).

(** Modelled from the spec: [isActionApproved]: the session list and
    the permanent list are both consulted. *)
Definition isActionApproved (st : Store) (tool : string) (input : ToolInput) : bool :=
  let actionPattern := getActionPattern tool input in
  existsb (approves tool actionPattern) (sessionApprovedActions st)
  || existsb (approves tool actionPattern) (approvedActions (settings st)).

(** Modelled from the spec: [approveAction]: a session grant is
    appended in memory, a permanent one is appended to the settings,
    which are then saved. *)
Definition approveAction (st : Store) (tool : string) (input : ToolInput)
           (sc : ApprovalScope) (now : nat) : Store :=
  let action := mkApprovedAction tool (getActionPattern tool input) now sc in
  match sc with
  | ScopeSession =>
      mkStore (sessionApprovedActions st ++ [action]) (settings st) (saves st)
  | ScopeAlways =>
      mkStore (sessionApprovedActions st)
              (withApprovedActions (settings st)
                                   (approvedActions (settings st) ++ [action]))
              (S (saves st))
  end.

(** Modelled from the spec: [clearSession], the approval side of
    [resetSession]: only the session list is emptied. *)
Definition clearSession (st : Store) : Store :=
  mkStore [] (settings st) (saves st).

End Approval.

(* ================================================================== *)
(** ** ClaudianService: session continuity *)
(* ================================================================== *)

Module Session.
Import JsString Types Approval.

(** The state of one service instance. *)
Record Service : Type := mkService {
  sessionId : option string;
  store : Store
}.

Definition getSessionId (svc : Service) : option string := sessionId svc.

Definition setSessionId (svc : Service) (id : option string) : Service :=
  mkService id (store svc).

(** Modelled from the spec: [resetSession]: the session handle is
    dropped and the session approvals are cleared. *)
Definition resetSession (svc : Service) : Service :=
  mkService None (clearSession (store svc)).

(** Modelled from the spec: [approveAction] and [isActionApproved] as
    methods of the service. *)
Definition approve (svc : Service) (tool : string) (input : ToolInput)
           (sc : ApprovalScope) (now : nat) : Service :=
  mkService (sessionId svc) (approveAction (store svc) tool input sc now).

Definition isApproved (svc : Service) (tool : string) (input : ToolInput) : bool :=
  isActionApproved (store svc) tool input.

(** Modelled from the spec: the session-expiry heuristics,
    case-insensitive containment of four phrases. *)
Definition isSessionExpiredError (message : string) : bool :=
  let m := toLowerCase message in
  includes m "session expired" || includes m "session not found"
  || includes m "invalid session" || includes m "resume failed".

Definition newline : string := String (ascii_of_nat 10) "".

(** Modelled from the spec: a result excerpt capped at [maxLength]
    characters and marked when cut. *)
Definition truncateToolResultForContext (result : string) (maxLength : nat) : string :=
  if Nat.leb (String.length result) maxLength then result
  else (substring 0 maxLength result ++ "... (truncated)")%string.

Definition statusName (s : ToolStatus) : string :=
  match s with
  | Running => "running"
  | Completed => "completed"
  | Errored => "error"
  | StatusBlocked => "blocked"
  end.

Definition roleName (r : Role) : string :=
  match r with
  | User => "User"
  | Assistant => "Assistant"
  | OtherRole name => name
  end.

(** Modelled from the spec: the one-line summary of a prior tool call. *)
Definition formatToolCallForContext (maxLength : nat) (tc : ToolCallInfo) : string :=
  let head := ("[Tool " ++ name tc ++ " status=" ++ statusName (status tc) ++ "]")%string in
  match result tc with
  | Some r =>
      if (r =? "")%string then head
      else (head ++ " result: " ++ truncateToolResultForContext r maxLength)%string
  | None => head
  end.

(** A turn the transcript takes up: one of the user, or one of the
    assistant that says something or called a tool. *)
Definition isTranscribed (m : ChatMessage) : bool :=
  match role m with
  | User => true
  | Assistant =>
      negb (content m =? "")%string
      || match toolCalls m with [] => false | _ :: _ => true end
  | OtherRole _ => false
  end.

(** Modelled from the spec: the lines one prior turn contributes: its
    [User:] or [Assistant:] line, its tool calls, its context files.
    Messages of other roles and empty turns of the assistant
    contribute nothing. *)
Definition messageLines (maxLength : nat) (m : ChatMessage) : list string :=
  if isTranscribed m then
    [(roleName (role m) ++ ": " ++ content m)%string]
    ++ map (formatToolCallForContext maxLength) (toolCalls m)
    ++ match contextFiles m with
       | Some files => [("Context files: [" ++ join ", " files ++ "]")%string]
       | None => []
       end
  else [].

(** Modelled from the spec: [buildContextFromHistory]: the
    newline-joined transcript of the prior turns. *)
Definition buildContextFromHistory (maxLength : nat) (history : list ChatMessage)
  : string :=
  join newline (flat_map (messageLines maxLength) history).

(** *** The agent runtime as seen from the service *)

(** One call of the underlying query, [queryViaSDK]. *)
Record SdkCall : Type := mkCall {
  callPrompt : string;
  callResume : option string
}.

(** A finished call: the chunks it yielded and, when it failed, the
    message of the error it threw. *)
Record SdkRun : Type := mkRun {
  yielded : list StreamChunk;
  thrown : option string
}.

(** The runtime answers a call; its answer may depend on the calls
    made before. *)
Definition Runtime : Type := list SdkCall -> SdkCall -> SdkRun.

(** The service together with the calls it has made of the runtime,
    oldest first. *)
Record Machine : Type := mkMachine {
  service : Service;
  made : list SdkCall
}.

(** A step of the service: a result and the state it leaves. *)
Definition Step (A : Type) : Type := Machine -> A * Machine.

Definition ret {A : Type} (a : A) : Step A := fun m => (a, m).

Definition bind {A B : Type} (x : Step A) (f : A -> Step B) : Step B :=
  fun m => let (a, m') := x m in f a m'.

Notation "x <- c1 ;; c2" := (bind c1 (fun x => c2))
  (at level 61, c1 at next level, right associativity).
Notation "c1 ;;; c2" := (bind c1 (fun _ => c2))
  (at level 61, right associativity).

(** [this.sessionId] *)
Definition currentSession : Step (option string) :=
  fun m => (sessionId (service m), m).

(** [this.sessionId = null] *)
Definition clearSessionHandle : Step unit :=
  fun m => (tt, mkMachine (setSessionId (service m) None) (made m)).

(** The only way to the runtime: every call is recorded. *)
Definition queryViaSDK (sdk : Runtime) (call : SdkCall) : Step SdkRun :=
  fun m => (sdk (made m) call, mkMachine (service m) (made m ++ [call])).

(** Modelled from the spec: the top-level [query] of section 4.8,
    whose body is not among the sources.  A prior session id is
    passed as resume token.  When the call fails with a session-expiry
    message the handle is cleared and the call is repeated once,
    without resume token, on the context rebuilt from the history; a
    failure of the repeated call, like any other failure, ends the
    stream with an error chunk.  The underlying call is taken as the
    service tests replace it: a stream of chunks that may end by
    throwing. *)
Definition query (sdk : Runtime) (maxLength : nat) (prompt : string)
           (history : list ChatMessage) : Step (list StreamChunk) :=
  resume <- currentSession ;;
  run1 <- queryViaSDK sdk (mkCall prompt resume) ;;
  match thrown run1 with
  | None => ret (yielded run1 ++ [DoneChunk])
  | Some message =>
      if isSessionExpiredError message then
        clearSessionHandle ;;;
        run2 <- queryViaSDK sdk (mkCall (buildContextFromHistory maxLength history) None) ;;
        match thrown run2 with
        | None => ret (yielded run1 ++ yielded run2 ++ [DoneChunk])
        | Some retryMessage =>
            ret (yielded run1 ++ yielded run2 ++ [ErrorChunk retryMessage])
        end
      else ret (yielded run1 ++ [ErrorChunk message])
  end.

(** *** Runtimes used as examples *)

Definition emptySettings : ClaudianSettings := mkSettings true [] Normal [] [].

Definition freshService : Service := mkService None (mkStore [] emptySettings 0).

Definition staleService : Service := setSessionId freshService (Some "stale-session").

(** The first call fails with ["Session expired"], the second one
    answers. *)
Definition expiredOnce : Runtime :=
  fun before _ =>
    match before with
    | [] => mkRun [] (Some "Session expired")
    | _ :: _ => mkRun [TextChunk "Recovered"] None
    end.

(** Every call fails with ["Session expired"]. *)
Definition alwaysExpired : Runtime :=
  fun _ _ => mkRun [] (Some "Session expired").

Definition sampleHistory : list ChatMessage :=
  [ mkMessage "msg-1" User "First question" [] None;
    mkMessage "msg-2" Assistant "Answer"
      [mkToolCall "tool-1" "Read" [("file_path", "/test/vault/path/file.md")]
                  Completed (Some "file content")] None;
    mkMessage "msg-3" User "Follow up" [] (Some ["note.md"]) ].

End Session.

(* ================================================================== *)
(** ** BashPathValidator: path operands of a shell command *)
(* ================================================================== *)

Module BashPaths.
Import JsString Types.

Definition isSpace (c : ascii) : bool :=
  let n := nat_of_ascii c in Nat.eqb n 32 || Nat.eqb n 9 || Nat.eqb n 10 || Nat.eqb n 13.

Definition isQuote (c : ascii) : bool :=
  Ascii.eqb c "'"%char || Ascii.eqb c (ascii_of_nat 34).

Definition isBackslash (c : ascii) : bool := Ascii.eqb c "\"%char.

Definition flush (cur : list ascii) (acc : list string) : list string :=
  match cur with
  | [] => acc
  | _ => of_chars (rev cur) :: acc
  end.

(** Modelled from the spec: the scan of [tokenizeBashCommand] (section
    4.3, step 1), which is not among the sources: [cur] is the token being read,
    last character first; [quote] the quote that is open; [acc] the
    tokens read, last token first. *)
Fixpoint tokenScan (cs : list ascii) (cur : list ascii) (quote : option ascii)
         (acc : list string) : list string :=
  match cs with
  | [] => rev (flush cur acc)
  | c :: rest =>
      match quote with
      | Some q =>
          if Ascii.eqb c q then tokenScan rest (c :: cur) None acc
          else tokenScan rest (c :: cur) quote acc
      | None =>
          if isSpace c then tokenScan rest [] None (flush cur acc)
          else if isQuote c then tokenScan rest (c :: cur) (Some c) acc
          else if isBackslash c then
            match rest with
            | d :: rest' => tokenScan rest' (d :: c :: cur) None acc
            | [] => tokenScan rest (c :: cur) None acc
            end
          else tokenScan rest (c :: cur) None acc
      end
  end.

(** Modelled from the spec: [tokenizeBashCommand] (its body is not
    among the sources): tokens are separated by unquoted, unescaped
    white space and keep their quotes. *)
Definition tokenizeBashCommand (command : string) : list string :=
  tokenScan (chars command) [] None [].

(** Modelled from the spec: the separators of section 4.3, step 2. *)
Definition isSegmentSeparator (token : string) : bool :=
  (token =? ";")%string || (token =? "&&")%string
  || (token =? "||")%string || (token =? "|")%string.

Fixpoint segmentScan (tokens : list string) (cur : list string)
         (acc : list (list string)) : list (list string) :=
  match tokens with
  | [] => rev (match cur with [] => acc | _ => rev cur :: acc end)
  | t :: rest =>
      if isSegmentSeparator t
      then segmentScan rest [] (match cur with [] => acc | _ => rev cur :: acc end)
      else segmentScan rest (t :: cur) acc
  end.

(** Modelled from the spec: [splitBashTokensIntoSegments]: the token
    stream is cut at [;], [&&], [||] and [|]. *)
Definition splitBashTokensIntoSegments (tokens : list string) : list (list string) :=
  segmentScan tokens [] [].

(** Modelled from the spec: the operators and options of section 4.3,
    step 3, that announce a path: [>] and [>>] a written one, [<] a
    read one, [-o] and [--output] a written one. *)
Definition isBashOutputRedirectOperator (token : string) : bool :=
  (token =? ">")%string || (token =? ">>")%string.

Definition isBashInputRedirectOperator (token : string) : bool :=
  (token =? "<")%string.

Definition isBashOutputOptionExpectingValue (token : string) : bool :=
  (token =? "-o")%string || (token =? "--output")%string.

Definition lastChar (s : string) : option ascii :=
  match rev (chars s) with c :: _ => Some c | [] => None end.

Definition dropLast (s : string) : string := of_chars (removelast (chars s)).

(** Modelled from the spec: [cleanPathToken]: surrounding quotes are
    stripped. *)
Definition cleanPathToken (token : string) : string :=
  match token with
  | String q body =>
      if isQuote q then
        match lastChar body with
        | Some q' => if Ascii.eqb q q' then dropLast body else token
        | None => token
        end
      else token
  | EmptyString => token
  end.

(** A file name with an extension: a dot with something on both
    sides. *)
Definition hasExtension (token : string) : bool :=
  match split "."%char token with
  | [] | [_] => false
  | parts => forallb (fun p => negb (p =? "")%string) parts
  end.

(** Modelled from the spec: [isPathLikeToken]: the token holds a
    separator, begins with [.] or [~], or is a file name with an
    extension; options are not operands. *)
Definition isPathLikeToken (token : string) : bool :=
  negb (startsWith token "-")
  && (includes token "/" || startsWith token "." || startsWith token "~"
      || hasExtension token).

Inductive Intent : Type := ReadIntent | WriteIntent | AmbiguousIntent.

Record PathToken : Type := mkPathToken {
  raw : string;
  path : string;
  intent : Intent
}.

(** Modelled from the spec: what the scan of a segment expects next. *)
Inductive Expect : Type := ExpectNothing | ExpectPath (i : Intent).

(** An operand of a segment: [positional] tells a bare argument from a
    token that an operator or an option announces. *)
Record Operand : Type := mkOperand {
  token : PathToken;
  positional : bool
}.

Definition isOperandOperator (t : string) : bool :=
  isBashOutputRedirectOperator t || isBashInputRedirectOperator t
  || isBashOutputOptionExpectingValue t.

(** An option: a bare token that begins with a dash. *)
Definition isOptionToken (t : string) : bool := startsWith (cleanPathToken t) "-".

(** Modelled from the spec: the operands of one segment after the
    command name (section 4.3, step 3).  The token after [>] or [>>]
    is written, the one after [<] is read, the one after [-o] or
    [--output] is written.  Every other token that is not an option is
    a positional argument, and is Ambiguous for the time being. *)
Fixpoint operandScan (tokens : list string) (expect : Expect) : list Operand :=
  match tokens with
  | [] => []
  | t :: rest =>
      if isBashOutputRedirectOperator t then operandScan rest (ExpectPath WriteIntent)
      else if isBashInputRedirectOperator t then operandScan rest (ExpectPath ReadIntent)
      else if isBashOutputOptionExpectingValue t
      then operandScan rest (ExpectPath WriteIntent)
      else
        match expect with
        | ExpectPath i =>
            mkOperand (mkPathToken t (cleanPathToken t) i) false
              :: operandScan rest ExpectNothing
        | ExpectNothing =>
            if isOptionToken t then operandScan rest ExpectNothing
            else mkOperand (mkPathToken t (cleanPathToken t) AmbiguousIntent) true
                   :: operandScan rest ExpectNothing
        end
  end.

(** Modelled from the spec: the command name is the first token. *)
Definition getBashSegmentCommandName (segment : list string) : string :=
  match segment with
  | cmd :: _ => cmd
  | [] => ""
  end.

(** The commands of the copy/move heuristic. *)
Definition isDestinationCommand (cmd : string) : bool :=
  (cmd =? "cp")%string || (cmd =? "mv")%string.

(** Modelled from the spec: how an Ambiguous positional argument is
    settled.  For a copy or a move the last positional argument is
    written when a positional argument precedes it ([cp SRC DST]);
    every other positional argument is read. *)
Definition settledIntent (destination seenPositional last : bool) : Intent :=
  if destination && seenPositional && last then WriteIntent else ReadIntent.

(** Modelled from the spec: the operands with their settled intent, in
    order; of the positional arguments only the path-like ones are
    kept.  [seenPositional] tells whether a positional argument came
    before. *)
Fixpoint settleOperands (destination seenPositional : bool) (ops : list Operand)
  : list PathToken :=
  match ops with
  | [] => []
  | op :: rest =>
      if positional op then
        let last := negb (existsb positional rest) in
        let settled := mkPathToken (raw (token op)) (path (token op))
                                   (settledIntent destination seenPositional last) in
        (if isPathLikeToken (path (token op)) then [settled] else [])
          ++ settleOperands destination true rest
      else token op :: settleOperands destination seenPositional rest
  end.

(** Modelled from the spec: the operands of one segment with their
    intent. *)
Definition segmentPathTokens (segment : list string) : list PathToken :=
  settleOperands (isDestinationCommand (getBashSegmentCommandName segment)) false
                 (operandScan (tl segment) ExpectNothing).

(** Modelled from the spec: the extractor of section 4.3: every
    path-like operand of a command line, in order, with its intent. *)
Definition extractBashPaths (command : string) : list PathToken :=
  flat_map segmentPathTokens
           (splitBashTokensIntoSegments (tokenizeBashCommand command)).

End BashPaths.

(* ================================================================== *)
(** ** ClaudianService: the mediation of a tool call *)
(* ================================================================== *)

Module Mediator.
Import JsString Types Approval BashPaths.

Inductive PathViolation : Type :=
| OutsideVault (path : string)
| ExportPathRead (path : string).

(** [Proposed] leads to one of these. *)
Inductive MediationState : Type :=
| Blocked (diagnostic : string)
| Denied (message : string)
| Approved
| PendingInteractive.

Definition quoteMark : string := String (ascii_of_nat 34) "".

(** Modelled from the spec: the diagnostics of section 6; the phrases
    ["outside the vault"], ["write-only"] and ["blocked by blocklist"]
    are the observable part. *)
Definition violationMessage (v : PathViolation) : string :=
  match v with
  | OutsideVault p =>
      ("Access denied: path " ++ quoteMark ++ p ++ quoteMark
       ++ " is outside the vault.")%string
  | ExportPathRead p =>
      ("Access denied: path " ++ quoteMark ++ p ++ quoteMark
       ++ " is in an allowed export directory, but export paths are write-only.")%string
  end.

Definition blocklistMessage (pattern : string) : string :=
  ("Command blocked by blocklist: " ++ pattern)%string.

Section WithContext.
Variable E : RegExpEngine.
Variable env : Env.
Variable vaultPath : string.
Variable cfg : ClaudianSettings.

Definition withinVault (p : string) : bool :=
  match Utils.isPathWithinVault env p vaultPath with
  | Some b => b
  | None => false
  end.

Definition withinExport (p : string) : bool :=
  match Utils.isPathInAllowedExportPaths env p (allowedExportPaths cfg) vaultPath with
  | Some b => b
  | None => false
  end.

(** Modelled from the spec: the policy of section 4.3 for one
    operand ([checkBashPathAccess]): inside the vault anything
    goes; inside an export root only writing; anywhere else
    nothing. *)
Definition checkPathAccess (t : PathToken) : option PathViolation :=
  if withinVault (path t) then None
  else if withinExport (path t) then
    match intent t with
    | WriteIntent => None
    | ReadIntent | AmbiguousIntent => Some (ExportPathRead (raw t))
    end
  else Some (OutsideVault (raw t)).

(** Modelled from the spec: the first operand, in order, that breaks
    the policy. *)
Fixpoint firstViolation (tokens : list PathToken) : option PathViolation :=
  match tokens with
  | [] => None
  | t :: rest =>
      match checkPathAccess t with
      | Some v => Some v
      | None => firstViolation rest
      end
  end.

(** Modelled from the spec: [findBashCommandPathViolation]. *)
Definition findBashCommandPathViolation (command : string) : option PathViolation :=
  firstViolation (extractBashPaths command).

Definition fieldToken (input : ToolInput) (keys : list string) (i : Intent)
  : list PathToken :=
  match firstField input keys with
  | Some p => [mkPathToken p p i]
  | None => []
  end.

(** Modelled from the spec: the paths a tool call touches (section
    4.6, rule 2): the operands of a Bash command; the target of a file
    tool; for a notebook its [notebook_path], else its [file_path];
    the directory of a search and, when none is given, its pattern;
    the directory of a listing. *)
Definition toolPathTokens (tool : string) (input : ToolInput) : list PathToken :=
  if (tool =? "Bash")%string then extractBashPaths (fieldOrEmpty input "command")
  else if (tool =? "Read")%string then fieldToken input ["file_path"] ReadIntent
  else if (tool =? "Write")%string || (tool =? "Edit")%string
  then fieldToken input ["file_path"] WriteIntent
  else if (tool =? "NotebookEdit")%string
  then fieldToken input ["notebook_path"; "file_path"] WriteIntent
  else if (tool =? "Glob")%string || (tool =? "Grep")%string
  then fieldToken input ["path"; "pattern"] ReadIntent
  else if (tool =? "LS")%string then fieldToken input ["path"] ReadIntent
  else [].

(** Modelled from the spec: rule 1 of section 4.6; the blocklist
    applies to Bash only, and only when [enableBlocklist] is set. *)
Definition blocklistVerdict (tool : string) (input : ToolInput) : option string :=
  if (tool =? "Bash")%string && enableBlocklist cfg
  then Blocklist.findBlockedPattern E (fieldOrEmpty input "command")
                                    (blockedCommands cfg)
  else None.

(** Modelled from the spec: the transition rule of section 4.6,
    evaluated in its fixed order; the approval callback is not
    consulted here, a call that needs it is [PendingInteractive]. *)
Definition mediate (st : Store) (tool : string) (input : ToolInput) : MediationState :=
  match blocklistVerdict tool input with
  | Some p => Blocked (blocklistMessage p)
  | None =>
      match firstViolation (toolPathTokens tool input) with
      | Some v => Blocked (violationMessage v)
      | None =>
          if isActionApproved st tool input then Approved
          else match permissionMode cfg with
               | Yolo => Approved
               | Normal => PendingInteractive
               end
      end
  end.

End WithContext.
(** *** Configurations used as examples *)

Definition noApprovals (cfg : ClaudianSettings) : Store := mkStore [] cfg 0.

(** The settings of the plugin double of the service tests. *)
Definition testSettings (exports : list string) : ClaudianSettings :=
  mkSettings true
             ["rm -rf"; "rm -r /"; "chmod 777"; "chmod -R 777"; "mkfs"; "dd if=";
              "> /dev/sd"]
             Yolo [] exports.

(** A tool call mediated as in the service tests: vault at
    [/test/vault/path], no approvals, lexical canonicalisation. *)
Definition mediateInTest (exports : list string) (tool : string) (input : ToolInput)
  : MediationState :=
  mediate MiniRegExp.engine PathSpec.plainEnv
          "/test/vault/path" (testSettings exports)
          (noApprovals (testSettings exports)) tool input.

Definition isBlockedCiting (state : MediationState) (phrase : string) : bool :=
  match state with
  | Blocked d => includes d phrase
  | _ => false
  end.

End Mediator.

(* ================================================================== *)
(** ** Vocabulary for the statements about shell commands *)
(* ================================================================== *)

Module BashSpec.
Import JsString BashPaths.

(** The last token of [tokens] is an operator or an option that
    announces the token after it. *)
Fixpoint endsWithOperator (tokens : list string) : bool :=
  match tokens with
  | [] => false
  | [t] => isOperandOperator t
  | _ :: rest => endsWithOperator rest
  end.

(** The token [t], read after the tokens [before] of its segment, is a
    positional argument: nothing announces it, and it is neither an
    operator nor an option. *)
Definition isPositionalAfter (before : list string) (t : string) : bool :=
  negb (endsWithOperator before) && negb (isOperandOperator t) && negb (isOptionToken t).

(** Among [tokens], read after a positional argument, there is a
    further positional argument. *)
Definition hasPositional (tokens : list string) : Prop :=
  exists before t rest,
    tokens = before ++ t :: rest /\ isPositionalAfter before t = true.

(** The operand [a] of the segment [cmd :: before ++ a :: rest] is
    read, by the shape of the segment alone (section 4.3): it follows
    the input redirection [<]; or it is a path-like positional
    argument, of a command other than a copy or a move, or with a
    further positional argument after it. *)
Inductive ReadOperand (cmd : string) (before : list string) (a : string)
          (rest : list string) : Prop :=
| ReadRedirected (earlier : list string) :
    before = earlier ++ ["<"] ->
    isOperandOperator a = false ->
    ReadOperand cmd before a rest
| ReadPositional :
    isPositionalAfter before a = true ->
    isPathLikeToken (cleanPathToken a) = true ->
    isDestinationCommand cmd = false \/ hasPositional rest ->
    ReadOperand cmd before a rest.

End BashSpec.

(* ================================================================== *)
(** ** Facts about the string primitives *)
(* ================================================================== *)

Module StringFacts.
Import JsString.

Lemma append_nil_r (s : string) : (s ++ "")%string = s.
Proof. induction s; simpl; congruence. Qed.

Lemma append_assoc (a b c : string) :
  ((a ++ b) ++ c)%string = (a ++ (b ++ c))%string.
Proof. induction a; simpl; congruence. Qed.

Lemma length_append (a b : string) :
  String.length (a ++ b) = String.length a + String.length b.
Proof. induction a; simpl; auto. Qed.

Lemma prefix_append (a b : string) : String.prefix a (a ++ b) = true.
Proof.
  induction a as [|c a IH]; simpl.
  - destruct b; reflexivity.
  - destruct (ascii_dec c c); [exact IH | congruence].
Qed.

Lemma prefix_inv (a s : string) :
  String.prefix a s = true -> exists b, s = (a ++ b)%string.
Proof.
  revert s; induction a as [|c a IH]; intros s H.
  - exists s; reflexivity.
  - destruct s as [|d s]; simpl in H; [discriminate|].
    destruct (ascii_dec c d); [|discriminate].
    subst d. destruct (IH _ H) as [b ->]. exists b; reflexivity.
Qed.

Lemma startsWith_iff (s pre : string) :
  startsWith s pre = true <-> exists rest, s = (pre ++ rest)%string.
Proof.
  unfold startsWith; split.
  - apply prefix_inv.
  - intros [rest ->]. apply prefix_append.
Qed.

Lemma append_inj_l (a b c : string) : (a ++ b)%string = (a ++ c)%string -> b = c.
Proof. induction a; simpl; intros H; [exact H | injection H; auto]. Qed.

Lemma chars_append (a b : string) : chars (a ++ b) = chars a ++ chars b.
Proof. unfold chars; induction a; simpl; congruence. Qed.

Lemma of_chars_app (l1 l2 : list ascii) :
  of_chars (l1 ++ l2) = (of_chars l1 ++ of_chars l2)%string.
Proof. unfold of_chars; induction l1; simpl; congruence. Qed.

Lemma of_chars_chars (s : string) : of_chars (chars s) = s.
Proof. apply string_of_list_ascii_of_string. Qed.

Lemma chars_of_chars (l : list ascii) : chars (of_chars l) = l.
Proof. apply list_ascii_of_string_of_list_ascii. Qed.

Lemma length_chars (s : string) : List.length (chars s) = String.length s.
Proof. unfold chars; induction s; simpl; auto. Qed.

Lemma length_of_chars (l : list ascii) : String.length (of_chars l) = List.length l.
Proof. unfold of_chars; induction l; simpl; auto. Qed.

Lemma includes_of_prefix (s sub : string) :
  String.prefix sub s = true -> includes s sub = true.
Proof. intros H. destruct s; simpl in *; rewrite H; reflexivity. Qed.

Lemma includes_append (a s b : string) : includes (a ++ s ++ b) s = true.
Proof.
  induction a as [|c a IH]; simpl.
  - apply includes_of_prefix, prefix_append.
  - rewrite IH. apply orb_true_r.
Qed.

Lemma includes_inv (s sub : string) :
  includes s sub = true -> exists a b, s = (a ++ sub ++ b)%string.
Proof.
  induction s as [|c s IH]; cbn [includes]; intros H.
  - rewrite orb_false_r in H. apply prefix_inv in H. destruct H as [b ->].
    exists "", b. reflexivity.
  - apply orb_true_iff in H. destruct H as [H|H].
    + apply prefix_inv in H. destruct H as [b ->]. exists "", b. reflexivity.
    + destruct (IH H) as (a & b & ->). exists (String c a), b. reflexivity.
Qed.

(** *** Splitting and joining on a separator *)

Lemma split_nonempty (sep : ascii) (s : string) : split sep s <> [].
Proof.
  destruct s as [|c s]; simpl; [discriminate|].
  destruct (Ascii.eqb c sep); [discriminate|].
  destruct (split sep s); discriminate.
Qed.

Lemma split_append_sep (sep : ascii) (a b : string) :
  split sep (a ++ String sep b) = split sep a ++ split sep b.
Proof.
  induction a as [|c a IH]; simpl.
  - rewrite Ascii.eqb_refl. reflexivity.
  - destruct (Ascii.eqb c sep); rewrite IH; [reflexivity|].
    destruct (split sep a) eqn:E; [exfalso; eapply split_nonempty; eauto|].
    reflexivity.
Qed.

Lemma split_noChar (sep : ascii) (s : string) :
  noChar sep s -> split sep s = [s].
Proof.
  unfold noChar, chars. induction s as [|c s IH]; simpl; intros H; [reflexivity|].
  destruct (Ascii.eqb_spec c sep) as [->|Hne]; [exfalso; apply H; auto|].
  rewrite IH; auto.
Qed.

Lemma split_noChar_all (sep : ascii) (s : string) :
  Forall (noChar sep) (split sep s).
Proof.
  induction s as [|c s IH]; simpl.
  - constructor; [intros []|constructor].
  - destruct (Ascii.eqb_spec c sep) as [->|Hne].
    + constructor; [intros []| exact IH].
    + destruct (split sep s) as [|h t]; inversion IH; subst.
      * constructor; [|constructor]. unfold noChar, chars; simpl. intuition.
      * constructor; [|assumption].
        unfold noChar, chars in *; simpl. intros [E|E]; [congruence | auto].
Qed.

Lemma split_join (sep : ascii) (l : list string) :
  l <> [] -> Forall (noChar sep) l ->
  split sep (join (String sep "") l) = l.
Proof.
  induction l as [|a l IH]; intros Hne Hall; [congruence|].
  inversion Hall as [|? ? Ha Hl]; subst.
  destruct l as [|b l].
  - simpl. apply split_noChar; assumption.
  - change (join (String sep "") (a :: b :: l))
      with (a ++ String sep (join (String sep "") (b :: l)))%string.
    rewrite split_append_sep, IH by (auto; discriminate).
    rewrite split_noChar by assumption. reflexivity.
Qed.

Lemma join_app (sep : string) (l1 l2 : list string) :
  l1 <> [] -> l2 <> [] ->
  join sep (l1 ++ l2) = (join sep l1 ++ sep ++ join sep l2)%string.
Proof.
  induction l1 as [|a l1 IH]; intros H1 H2; [congruence|].
  destruct l1 as [|b l1].
  - simpl. destruct l2; [congruence | reflexivity].
  - change (join sep ((a :: b :: l1) ++ l2))
      with (a ++ sep ++ join sep ((b :: l1) ++ l2))%string.
    rewrite IH by (auto; discriminate).
    change (join sep (a :: b :: l1)) with (a ++ sep ++ join sep (b :: l1))%string.
    rewrite !append_assoc. reflexivity.
Qed.

End StringFacts.

(* ================================================================== *)
(** ** Facts about the path model *)
(* ================================================================== *)

Module PathFacts.
Import JsString NodePath StringFacts PathSpec.

Lemma plainSeg_noChar (s : string) : plainSeg s -> noChar slash s.
Proof. intros (_ & _ & _ & H); exact H. Qed.

Lemma plainSeg_all_noChar (l : list string) :
  Forall plainSeg l -> Forall (noChar slash) l.
Proof. apply Forall_impl, plainSeg_noChar. Qed.

(** *** Normalisation of segment lists *)

Lemma normSegs_app (a : bool) (st l1 l2 : list string) :
  normSegs a st (l1 ++ l2) = normSegs a (normSegs a st l1) l2.
Proof. revert st; induction l1; simpl; auto. Qed.

Lemma normStep_plain (a : bool) (st : list string) (s : string) :
  plainSeg s -> normStep a st s = s :: st.
Proof.
  intros (H0 & H1 & H2 & _). unfold normStep.
  apply String.eqb_neq in H0, H1, H2. rewrite H0, H1, H2. reflexivity.
Qed.

Lemma normSegs_plain (a : bool) (st l : list string) :
  Forall plainSeg l -> normSegs a st l = rev l ++ st.
Proof.
  revert st; induction l as [|s l IH]; intros st H; [reflexivity|].
  inversion H; subst. simpl. rewrite normStep_plain, IH by assumption.
  rewrite <- app_assoc. reflexivity.
Qed.

Lemma normStep_false_keeps_plain (st : list string) (s : string) :
  Forall plainSeg st -> noChar slash s -> Forall plainSeg (normStep false st s).
Proof.
  intros Hst Hs. unfold normStep.
  destruct (String.eqb_spec s "") as [|H0]; [assumption|].
  destruct (String.eqb_spec s ".") as [|H1]; [assumption|]. simpl.
  destruct (String.eqb_spec s "..") as [|H2].
  - destruct st as [|top rest]; [constructor|].
    inversion Hst; subst. destruct (top =? "..")%string; assumption.
  - constructor; [repeat split; assumption | assumption].
Qed.

Lemma normSegs_false_keeps_plain (st segs : list string) :
  Forall plainSeg st -> Forall (noChar slash) segs ->
  Forall plainSeg (normSegs false st segs).
Proof.
  revert st; induction segs as [|s segs IH]; intros st Hst Hs; [assumption|].
  inversion Hs; subst. simpl. apply IH; [|assumption].
  apply normStep_false_keeps_plain; assumption.
Qed.

Lemma normStep_empty (a : bool) (st : list string) : normStep a st "" = st.
Proof. reflexivity. Qed.

(** *** Rendering segment lists *)

Lemma join_plain_nonempty (l : list string) :
  l <> [] -> Forall plainSeg l -> join sep l <> "".
Proof.
  destruct l as [|a l]; [congruence|]. intros _ H. inversion H as [|? ? (Ha & _) _]; subst.
  destruct a; [congruence|]. destruct l; simpl; discriminate.
Qed.

Lemma render_nil : render [] = "/".
Proof. reflexivity. Qed.

Lemma render_snoc (segs : list string) (s : string) :
  segs <> [] -> render (segs ++ [s]) = (render segs ++ "/" ++ s)%string.
Proof.
  intros H. unfold render. rewrite join_app by (auto; discriminate).
  simpl. rewrite ?append_assoc. reflexivity.
Qed.

Lemma render_app (pre post : list string) :
  pre <> [] -> post <> [] ->
  render (pre ++ post) = (render pre ++ "/" ++ join sep post)%string.
Proof.
  intros H1 H2. unfold render. rewrite join_app by assumption.
  simpl. reflexivity.
Qed.

Lemma isAbsolute_render (segs : list string) : isAbsolute (render segs) = true.
Proof. reflexivity. Qed.

Lemma split_render (segs : list string) :
  Forall plainSeg segs ->
  split slash (render segs) = "" :: match segs with [] => [""] | _ => segs end.
Proof.
  intros H. unfold render. simpl.
  destruct segs as [|a l]; [reflexivity|].
  change sep with (String slash ""). rewrite split_join;
    [reflexivity | discriminate | apply plainSeg_all_noChar; assumption].
Qed.

Lemma normSegs_split_render (st segs : list string) :
  Forall plainSeg segs ->
  normSegs false st (split slash (render segs)) = rev segs ++ st.
Proof.
  intros H. rewrite split_render by assumption.
  destruct segs as [|a l]; [reflexivity|].
  change (normSegs false st ("" :: a :: l))
    with (normSegs false (normStep false st "") (a :: l)).
  rewrite normStep_empty. apply normSegs_plain; assumption.
Qed.

(** *** [path.resolve] *)

Lemma isAbsolute_nonempty (p : string) : isAbsolute p = true -> (p =? "")%string = false.
Proof. destruct p; [discriminate | reflexivity]. Qed.

Lemma resolveScan_one (cwd v acc : string) :
  isAbsolute cwd = true ->
  resolveScan [v; cwd] acc = ((anchored cwd v ++ "/" ++ acc)%string, true).
Proof.
  intros Hc. unfold anchored. cbn [resolveScan].
  rewrite (isAbsolute_nonempty _ Hc), Hc.
  destruct (v =? "")%string; [reflexivity|].
  destruct (isAbsolute v); [reflexivity|].
  rewrite !append_assoc. reflexivity.
Qed.

Lemma normalize_trailing (st : list string) (p : string) :
  normSegs false st (split slash (p ++ "/" ++ "")) = normSegs false st (split slash p).
Proof.
  change (p ++ "/" ++ "")%string with (p ++ String slash "")%string.
  rewrite split_append_sep, normSegs_app. reflexivity.
Qed.

Lemma resolve_one (cwd v : string) :
  isAbsolute cwd = true -> resolve cwd [v] = render (rootSegs cwd v).
Proof.
  intros Hc. unfold resolve, rootSegs. cbn [rev app].
  rewrite resolveScan_one by assumption. cbn [negb].
  unfold normalizeString, render. rewrite normalize_trailing. reflexivity.
Qed.

Lemma resolveScan_relative (c : string) (rest : list string) (acc : string) :
  isAbsolute c = false ->
  resolveScan (c :: rest) acc =
  resolveScan rest (if (c =? "")%string then acc else (c ++ "/" ++ acc)%string).
Proof. intros H. cbn [resolveScan]. rewrite H. destruct (c =? "")%string; reflexivity. Qed.

Lemma resolve_two (cwd v c : string) :
  isAbsolute cwd = true -> isAbsolute c = false ->
  resolve cwd [v; c] = render (rev (normSegs false (rev (rootSegs cwd v)) (split slash c))).
Proof.
  intros Hc Hrel. unfold resolve, rootSegs. cbn [rev app].
  rewrite rev_involutive, resolveScan_relative by assumption.
  destruct (String.eqb_spec c "") as [->|Hne].
  - rewrite resolveScan_one by assumption. cbn [negb].
    unfold normalizeString, render. rewrite normalize_trailing. reflexivity.
  - rewrite resolveScan_one by assumption. cbn [negb].
    unfold normalizeString, render.
    change (anchored cwd v ++ "/" ++ c ++ "/" ++ "")%string
      with (anchored cwd v ++ String slash (c ++ "/" ++ ""))%string.
    rewrite split_append_sep, normSegs_app, normalize_trailing. reflexivity.
Qed.

Lemma rootSegs_plain (cwd v : string) : Forall plainSeg (rootSegs cwd v).
Proof.
  unfold rootSegs. apply Forall_rev, normSegs_false_keeps_plain;
    [constructor | apply split_noChar_all].
Qed.

Lemma resolve_render (cwd : string) (segs : list string) :
  Forall plainSeg segs -> resolve cwd [render segs] = render segs.
Proof.
  intros H. unfold resolve. cbn [rev app resolveScan].
  change (render segs =? "")%string with false.
  rewrite isAbsolute_render. cbn [negb].
  unfold normalizeString. rewrite normalize_trailing, normSegs_split_render by assumption.
  rewrite app_nil_r, rev_involutive. reflexivity.
Qed.

(** *** [path.dirname] and [path.basename] on rendered paths *)

Lemma dropWhile_all {A} (f : A -> bool) (l1 l2 : list A) :
  Forall (fun x => f x = true) l1 -> dropWhile f (l1 ++ l2) = dropWhile f l2.
Proof. induction 1 as [|x l Hx _ IH]; simpl; [|rewrite Hx]; auto. Qed.

Lemma takeWhile_all {A} (f : A -> bool) (l1 : list A) (x : A) (l2 : list A) :
  Forall (fun y => f y = true) l1 -> f x = false ->
  takeWhile f (l1 ++ x :: l2) = l1.
Proof.
  induction 1 as [|y l Hy _ IH]; simpl; intros Hx; [rewrite Hx | rewrite Hy, IH]; auto.
Qed.

Lemma dropWhile_head {A} (f : A -> bool) (x : A) (l : list A) :
  f x = false -> dropWhile f (x :: l) = x :: l.
Proof. simpl; intros ->; reflexivity. Qed.

Lemma dropWhile_length {A} (f : A -> bool) (l : list A) :
  List.length (dropWhile f l) <= List.length l.
Proof. induction l as [|x l IH]; simpl; [|destruct (f x); simpl]; lia. Qed.

Lemma plain_chars (s : string) :
  plainSeg s ->
  chars s <> [] /\ Forall (fun c => negb (isSlash c) = true) (chars s).
Proof.
  intros (H0 & _ & _ & Hn). split.
  - destruct s; [congruence | discriminate].
  - apply Forall_forall. intros c Hc. unfold isSlash.
    destruct (Ascii.eqb_spec c slash) as [->|]; [contradiction | reflexivity].
Qed.

Lemma plain_rev_chars (s : string) :
  plainSeg s ->
  exists c r, rev (chars s) = c :: r /\ isSlash c = false /\
              Forall (fun c => negb (isSlash c) = true) (rev (chars s)).
Proof.
  intros H. destruct (plain_chars H) as [Hne Hall].
  apply Forall_rev in Hall.
  destruct (rev (chars s)) as [|c r] eqn:E.
  - apply (f_equal (@rev ascii)) in E. rewrite rev_involutive in E. simpl in E. congruence.
  - exists c, r. inversion Hall; subst. repeat split; auto.
    apply negb_true_iff. assumption.
Qed.

Lemma basename_last (x s : string) :
  plainSeg s -> basename (x ++ "/" ++ s) = s.
Proof.
  intros H. unfold basename.
  change (x ++ "/" ++ s)%string with (x ++ String slash s)%string.
  rewrite chars_append. change (chars (String slash s)) with (slash :: chars s).
  rewrite rev_app_distr. cbn [rev]. rewrite <- app_assoc. cbn [app].
  destruct (plain_rev_chars H) as (c & r & E & Hc & Hall).
  rewrite E at 1. cbn [app]. rewrite dropWhile_head by assumption.
  change (c :: r ++ slash :: rev (chars x)) with ((c :: r) ++ slash :: rev (chars x)).
  rewrite <- E, takeWhile_all by (auto; reflexivity).
  rewrite rev_involutive. apply of_chars_chars.
Qed.

Lemma basename_snoc (segs : list string) (s : string) :
  plainSeg s -> basename (render (segs ++ [s])) = s.
Proof.
  intros H. destruct segs as [|a l].
  - apply (basename_last "" H).
  - rewrite render_snoc by discriminate. apply basename_last; assumption.
Qed.

Lemma dirname_snoc (segs : list string) (s : string) :
  Forall plainSeg segs -> plainSeg s ->
  dirname (render (segs ++ [s])) = render segs.
Proof.
  intros Hsegs H. destruct (plain_rev_chars H) as (c & r & E & Hc & Hall).
  destruct segs as [|a l].
  - unfold dirname, render. cbn [app join]. change (chars ("/" ++ s)) with (slash :: chars s).
    cbv iota. rewrite E at 1. rewrite dropWhile_head by assumption.
    rewrite <- E, <- (app_nil_r (rev (chars s))), dropWhile_all by assumption.
    reflexivity.
  - rewrite render_snoc by discriminate.
    unfold dirname. set (segs := a :: l) in *.
    change (render segs ++ "/" ++ s)%string
      with (String slash (join sep segs ++ String slash s)).
    change (chars (String slash (join sep segs ++ String slash s)))
      with (slash :: chars (join sep segs ++ String slash s)).
    cbv iota. rewrite chars_append.
    change (chars (String slash s)) with (slash :: chars s).
    rewrite rev_app_distr. cbn [rev]. rewrite <- app_assoc. cbn [app].
    rewrite E at 1. cbn [app]. rewrite dropWhile_head by assumption.
    change (c :: r ++ slash :: rev (chars (join sep segs)))
      with ((c :: r) ++ slash :: rev (chars (join sep segs))).
    rewrite <- E, dropWhile_all by assumption.
    rewrite dropWhile_head by reflexivity.
    assert (Hlen : Nat.eqb (List.length (rev (chars (join sep segs)))) 0 = false).
    { apply Nat.eqb_neq. rewrite length_rev, length_chars.
      pose proof (@join_plain_nonempty segs ltac:(discriminate) Hsegs) as Hj.
      destruct (join sep segs); [congruence | simpl; lia]. }
    rewrite Hlen, andb_false_r, rev_involutive.
    change (of_chars (slash :: chars (join sep segs)))
      with (String slash (of_chars (chars (join sep segs)))).
    rewrite of_chars_chars. reflexivity.
Qed.

Lemma dirname_root : dirname "/" = "/".
Proof. reflexivity. Qed.

End PathFacts.

(* ================================================================== *)
(** ** The upward walk of [resolveRealPath] *)
(* ================================================================== *)

Module WalkFacts.
Import JsString NodePath StringFacts PathSpec PathFacts Utils.

Lemma chars_nil (p : string) : chars p = [] -> p = "".
Proof. destruct p; [reflexivity | discriminate]. Qed.

Lemma dropWhile_stops {A} (f : A -> bool) (l : list A) (y : A) (r : list A) :
  dropWhile f l = y :: r -> f y = false.
Proof.
  induction l as [|x l IH]; simpl; [discriminate|].
  destruct (f x) eqn:E; [exact IH|]. intros H; injection H as <- _. exact E.
Qed.

Lemma double_drop {A} (f : A -> bool) (l : list A) (x : A) (before : list A) :
  dropWhile (fun c => negb (f c)) (dropWhile f l) = x :: before ->
  S (S (List.length before)) <= List.length l.
Proof.
  intros H. pose proof (dropWhile_length f l) as Hl.
  destruct (dropWhile f l) as [|y r1] eqn:E; [discriminate|].
  apply dropWhile_stops in E. simpl in H. rewrite E in H. simpl in H.
  pose proof (dropWhile_length (fun c => negb (f c)) r1) as Hr.
  rewrite H in Hr. simpl in *. lia.
Qed.

Lemma dirname_nonempty (p : string) : dirname p <> "".
Proof.
  unfold dirname. destruct (chars p) as [|c0 tl]; [discriminate|].
  destruct (dropWhile _ _) as [|x before].
  - destruct (isSlash c0); discriminate.
  - destruct (isSlash c0 && _); discriminate.
Qed.

(** One step up either stays put, or shortens the path, or lands on a
    fixed point of [dirname]. *)
Lemma dirname_step (p : string) :
  p <> "" ->
  dirname p = p \/
  String.length (dirname p) < String.length p \/
  dirname (dirname p) = dirname p.
Proof.
  intros Hp.
  destruct (chars p) as [|c0 tl] eqn:E; [apply chars_nil in E; congruence|].
  assert (Hlen : String.length p = S (List.length tl)).
  { rewrite <- length_chars, E. reflexivity. }
  assert (Hd : dirname p =
               match dropWhile (fun c => negb (isSlash c))
                               (dropWhile isSlash (rev tl)) with
               | [] => if isSlash c0 then "/" else "."
               | _ :: before =>
                   if isSlash c0 && Nat.eqb (List.length before) 0 then "//"
                   else of_chars (c0 :: rev before)
               end).
  { unfold dirname. rewrite E. reflexivity. }
  destruct (dropWhile _ (dropWhile isSlash (rev tl))) as [|x before] eqn:D.
  - right; right. rewrite Hd. destruct (isSlash c0); reflexivity.
  - apply double_drop in D. rewrite length_rev in D. right; left. rewrite Hd.
    destruct (isSlash c0 && _).
    + simpl. lia.
    + rewrite length_of_chars. simpl. rewrite length_rev. lia.
Qed.

Section Walk.
Variable env : Env.

Lemma walkUp_fixpoint (fuel : nat) (abs cur : string) (suffix : list string) :
  dirname cur = cur -> exists r, walkUp env (S fuel) abs cur suffix = Some r.
Proof.
  intros H. cbn [walkUp]. rewrite H, String.eqb_refl.
  destruct (existsSync env cur); [destruct (realpathFn env cur)|]; eauto.
Qed.

Lemma walkUp_total (fuel : nat) :
  forall abs cur suffix,
    cur <> "" -> String.length cur < fuel ->
    exists r, walkUp env fuel abs cur suffix = Some r.
Proof.
  induction fuel as [|fuel IH]; intros abs cur suffix Hne Hlt; [lia|].
  destruct (dirname_step Hne) as [Hfix | [Hshort | Hnext]].
  - apply walkUp_fixpoint; assumption.
  - cbn [walkUp].
    destruct (if existsSync env cur then _ else None); [eauto|].
    destruct (dirname cur =? cur)%string; [eauto|].
    apply IH; [apply dirname_nonempty | lia].
  - cbn [walkUp].
    destruct (if existsSync env cur then _ else None); [eauto|].
    destruct (dirname cur =? cur)%string; [eauto|].
    destruct fuel as [|fuel'].
    + destruct cur; [congruence | simpl in Hlt; lia].
    + apply walkUp_fixpoint; assumption.
Qed.

Lemma resolve_nonempty (cwd : string) (args : list string) : resolve cwd args <> "".
Proof.
  unfold resolve. destruct (resolveScan _ _) as [s [|]]; [discriminate|].
  destruct (String.eqb_spec (normalizeString s (negb false)) ""); [discriminate | assumption].
Qed.

Lemma resolveRealPath_total (p : string) : exists r, resolveRealPath env p = Some r.
Proof.
  unfold resolveRealPath. destruct (realpathFn env p); [eauto|].
  apply walkUp_total; [apply resolve_nonempty | lia].
Qed.

(** *** What the walk returns *)

Lemma ancestor_succ (k : nat) (p : string) :
  ancestor (S k) p = ancestor k (dirname p).
Proof. unfold ancestor. apply Nat.iter_succ_r. Qed.

Lemma ancestor_fixpoint (k : nat) (p : string) : dirname p = p -> ancestor k p = p.
Proof.
  intros H. induction k as [|k IH]; [reflexivity|].
  unfold ancestor in *. simpl. rewrite IH. assumption.
Qed.

Lemma walkUp_spec (fuel : nat) :
  forall abs cur suffix r,
    walkUp env fuel abs cur suffix = Some r ->
    (exists k r0,
        (forall j, j < k -> canonOf env (ancestor j cur) = None) /\
        canonOf env (ancestor k cur) = Some r0 /\
        r = walkResult r0
              (suffix ++ map (fun j => basename (ancestor j cur)) (seq 0 k)))
    \/ ((forall k, canonOf env (ancestor k cur) = None) /\ r = abs).
Proof.
  induction fuel as [|fuel IH]; intros abs cur suffix r H; [discriminate|].
  cbn [walkUp] in H.
  destruct (canonOf env cur) as [r0|] eqn:C; unfold canonOf in C.
  - left. exists 0, r0. split; [intros j Hj; lia|]. split; [exact C|].
    cbn [seq map]. rewrite app_nil_r.
    destruct (existsSync env cur); [|discriminate]. rewrite C in H.
    injection H as <-. reflexivity.
  - assert (Hnone : (if existsSync env cur
                     then match realpathFn env cur with
                          | Some resolvedExisting =>
                              Some (if Nat.ltb 0 (List.length suffix)
                                    then join_paths (resolvedExisting :: rev suffix)
                                    else resolvedExisting)
                          | None => None
                          end
                     else None) = None).
    { destruct (existsSync env cur); [rewrite C|]; reflexivity. }
    rewrite Hnone in H. clear Hnone.
    destruct (String.eqb_spec (dirname cur) cur) as [Hfix|Hmove].
    + right. injection H as <-. split; [|reflexivity].
      intros k. rewrite ancestor_fixpoint by assumption. exact C.
    + apply IH in H. destruct H as [(k & r0 & Hbelow & Hat & Hr) | [Hall Hr]].
      * left. exists (S k), r0. split; [|split].
        -- intros [|j] Hj; [exact C|]. rewrite ancestor_succ. apply Hbelow. lia.
        -- rewrite ancestor_succ. exact Hat.
        -- rewrite Hr. f_equal. rewrite <- app_assoc. f_equal.
           cbn [seq map app]. f_equal.
           rewrite <- seq_shift, map_map. apply map_ext.
           intros j. rewrite ancestor_succ. reflexivity.
      * right. split; [|exact Hr].
        intros [|k]; [exact C|]. rewrite ancestor_succ. apply Hall.
Qed.

End Walk.
End WalkFacts.

(* ================================================================== *)
(** ** Containment in an environment without symbolic links *)
(* ================================================================== *)

Module LexicalFacts.
Import JsString NodePath StringFacts PathSpec PathFacts Utils WalkFacts.

Lemma filter_nonempty_plain (l : list string) :
  Forall plainSeg l -> filter (fun a => negb (a =? "")%string) l = l.
Proof.
  induction 1 as [|s l (H0 & _) _ IH]; [reflexivity|]. simpl.
  apply String.eqb_neq in H0. rewrite H0, IH. reflexivity.
Qed.

Lemma last_char_plain (x s : string) :
  plainSeg s -> isAbsolute (of_chars (rev (chars (x ++ s)))) = false.
Proof.
  intros H. destruct (plain_rev_chars H) as (c & r & E & Hc & _).
  rewrite chars_append, rev_app_distr, E. exact Hc.
Qed.

Lemma join_last (l : list string) (s : string) :
  exists x, join sep (l ++ [s]) = (x ++ s)%string.
Proof.
  destruct l as [|a l].
  - exists "". reflexivity.
  - exists (join sep (a :: l) ++ sep)%string.
    rewrite join_app by discriminate. rewrite append_assoc. reflexivity.
Qed.

(** [path.join] of a rendered path and further plain segments. *)
Lemma join_paths_render (pre post : list string) :
  Forall plainSeg pre -> Forall plainSeg post -> post <> [] ->
  join_paths (render pre :: post) = render (pre ++ post).
Proof.
  intros Hpre Hpost Hne. unfold join_paths. cbn [filter].
  change (render pre =? "")%string with false. cbn [negb].
  rewrite filter_nonempty_plain by assumption.
  assert (Hj : join sep (render pre :: post) = (render pre ++ String slash (join sep post))%string).
  { destruct post; [congruence | reflexivity]. }
  rewrite Hj. unfold normalize.
  change (render pre ++ String slash (join sep post) =? "")%string with false.
  change (isAbsolute (render pre ++ String slash (join sep post))) with true.
  cbn [negb].
  assert (Htrail : isAbsolute (of_chars (rev (chars
                     (render pre ++ String slash (join sep post))))) = false).
  { destruct (exists_last Hne) as (l & s & ->).
    destruct (join_last l s) as [x ->].
    apply Forall_app in Hpost. destruct Hpost as [_ Hs]. inversion Hs; subst.
    change (render pre ++ String slash (x ++ s))%string
      with (render pre ++ (String slash x ++ s))%string.
    rewrite <- append_assoc. apply last_char_plain; assumption. }
  rewrite Htrail.
  assert (Hbody : normalizeString (render pre ++ String slash (join sep post)) false
                  = join sep (pre ++ post)).
  { unfold normalizeString. rewrite split_append_sep, normSegs_app.
    rewrite normSegs_split_render by assumption. rewrite app_nil_r.
    change sep with (String slash ""). rewrite split_join;
      [| assumption | apply plainSeg_all_noChar; assumption].
    rewrite normSegs_plain by assumption.
    rewrite <- rev_app_distr, rev_involutive. reflexivity. }
  rewrite Hbody.
  assert (Hnz : (join sep (pre ++ post) =? "")%string = false).
  { apply String.eqb_neq, join_plain_nonempty.
    - destruct pre; [assumption | discriminate].
    - apply Forall_app; split; assumption. }
  rewrite Hnz. reflexivity.
Qed.

(** *** The containment test on rendered paths *)

Lemma render_inj (x y : list string) :
  Forall plainSeg x -> Forall plainSeg y -> render x = render y -> x = y.
Proof.
  intros Hx Hy H. apply (f_equal (split slash)) in H.
  rewrite !split_render in H by assumption.
  destruct x, y; try congruence; injection H; intros; subst.
  - inversion Hy as [|? ? (H0 & _) _]; congruence.
  - inversion Hx as [|? ? (H0 & _) _]; congruence.
Qed.

Lemma equalsOrUnder_render_app (root more : list string) :
  root <> [] -> equalsOrUnder (render (root ++ more)) (render root) = true.
Proof.
  intros Hne. unfold equalsOrUnder. destruct more as [|m more].
  - rewrite app_nil_r, String.eqb_refl. reflexivity.
  - rewrite render_app by (auto; discriminate).
    apply orb_true_iff; right. apply startsWith_iff.
    exists (join sep (m :: more)). rewrite append_assoc. reflexivity.
Qed.

Lemma equalsOrUnder_render_inv (x root : list string) :
  Forall plainSeg x -> Forall plainSeg root -> root <> [] ->
  equalsOrUnder (render x) (render root) = true ->
  exists more, x = root ++ more.
Proof.
  intros Hx Hr Hne H. unfold equalsOrUnder in H.
  apply orb_true_iff in H. destruct H as [H|H].
  - apply String.eqb_eq in H. apply render_inj in H; auto.
    exists []. rewrite app_nil_r. assumption.
  - apply startsWith_iff in H. destruct H as [rest H].
    apply (f_equal (split slash)) in H.
    rewrite append_assoc in H.
    change (sep ++ rest)%string with (String slash rest) in H.
    rewrite split_append_sep, !split_render in H by assumption.
    destruct root as [|r0 root]; [congruence|].
    destruct x as [|x0 x].
    + exfalso. cbn [app] in H. injection H as H1 H2.
      inversion Hr as [|? ? (H0 & _) _]; congruence.
    + cbn [app] in H. injection H as H1 H2. exists (split slash rest).
      subst. reflexivity.
Qed.

Lemma equalsOrUnder_root (x : list string) :
  Forall plainSeg x -> equalsOrUnder (render x) "/" = true -> x = [].
Proof.
  intros Hx H. unfold equalsOrUnder in H. apply orb_true_iff in H.
  destruct H as [H|H].
  - apply String.eqb_eq in H. change "/" with (render []) in H.
    apply render_inj in H; auto.
  - apply startsWith_iff in H. destruct H as [rest H].
    destruct x as [|a x]; [reflexivity|]. exfalso.
    inversion Hx as [|? ? (H0 & _ & _ & Hn) _]; subst.
    unfold render in H. cbn in H.
    destruct x as [|b x]; cbn in H.
    + destruct a as [|c a]; [congruence|]. injection H as Hc _. apply Hn. left.
      subst c. reflexivity.
    + destruct a as [|c a]; [congruence|]. injection H as Hc _. apply Hn. left.
      subst c. reflexivity.
Qed.

Lemma plainEnv_symlinkFree : symlinkFree plainEnv.
Proof. split; [reflexivity|]. intros p r H. injection H as <-. reflexivity. Qed.

(** *** Normalising a path that stays below its start *)

Lemma normStep_dotdot_persists (st : list string) (s : string) :
  In ".." st -> In ".." (normStep true st s).
Proof.
  intros H. unfold normStep.
  destruct ((s =? "")%string || (s =? ".")%string); [assumption|].
  destruct (s =? "..")%string; [|right; assumption].
  destruct st as [|top rest]; [contradiction|].
  destruct (String.eqb_spec top "..") as [->|Hne]; [right; assumption|].
  destruct H as [H|H]; [congruence | assumption].
Qed.

Lemma normSegs_dotdot_persists (st segs : list string) :
  In ".." st -> In ".." (normSegs true st segs).
Proof.
  revert st; induction segs as [|s segs IH]; intros st H; [assumption|].
  simpl. apply IH, normStep_dotdot_persists, H.
Qed.

Lemma normSegs_below (segs st0 st : list string) :
  ~ In ".." (normSegs true st0 segs) ->
  normSegs false (st0 ++ st) segs = normSegs true st0 segs ++ st.
Proof.
  revert st0; induction segs as [|s segs IH]; intros st0 H; [reflexivity|].
  cbn [normSegs] in *.
  assert (Hst0 : ~ In ".." (normStep true st0 s)).
  { intros Hin. apply H, normSegs_dotdot_persists, Hin. }
  rewrite <- IH by assumption. f_equal.
  unfold normStep in *.
  destruct ((s =? "")%string || (s =? ".")%string); [reflexivity|].
  destruct (s =? "..")%string; [|reflexivity].
  destruct st0 as [|top rest]; [exfalso; apply Hst0; left; reflexivity|].
  cbn [app]. destruct (String.eqb_spec top "..") as [->|Hne]; [|reflexivity].
  exfalso; apply Hst0; left; reflexivity.
Qed.

(** *** Canonicalisation without symbolic links *)

Lemma render_snoc_longer (pre : list string) (s : string) :
  s <> "" -> String.length (render pre) < String.length (render (pre ++ [s])).
Proof.
  intros Hs. destruct pre as [|a l].
  - destruct s; [congruence | simpl; lia].
  - rewrite render_snoc by discriminate. rewrite length_append. simpl. lia.
Qed.

Section SymlinkFree.
Variable env : Env.
Hypothesis Hfree : symlinkFree env.

Lemma walkUp_lexical (fuel : nat) :
  forall pre post,
    Forall plainSeg pre -> Forall plainSeg post ->
    String.length (render pre) < fuel ->
    walkUp env fuel (render (pre ++ post)) (render pre) (rev post)
    = Some (render (pre ++ post)).
Proof.
  destruct Hfree as [_ Hreal].
  induction fuel as [|fuel IH]; intros pre post Hpre Hpost Hlt; [lia|].
  cbn [walkUp].
  assert (Hfound : forall r, realpathFn env (render pre) = Some r ->
            (if Nat.ltb 0 (List.length (rev post))
             then join_paths (r :: rev (rev post)) else r)
            = render (pre ++ post)).
  { intros r Hr. apply Hreal in Hr. rewrite resolve_render in Hr by assumption.
    subst r. rewrite rev_involutive, length_rev.
    destruct post as [|q post]; [rewrite app_nil_r; reflexivity|].
    cbn [List.length Nat.ltb Nat.leb]. apply join_paths_render; auto; discriminate. }
  destruct (existsSync env (render pre)) eqn:Ex;
    [destruct (realpathFn env (render pre)) as [r|] eqn:R;
       [rewrite (Hfound r eq_refl); reflexivity|]|].
  all: clear Hfound.
  all: destruct pre as [|a l _] using rev_ind;
    [reflexivity|].
  all: apply Forall_app in Hpre; destruct Hpre as [Hl Ha];
    inversion Ha as [|? ? Hpa _]; subst.
  all: rewrite dirname_snoc, basename_snoc by assumption.
  all: assert (Hne : (render l =? render (l ++ [a]))%string = false)
    by (apply String.eqb_neq; intros E;
        pose proof (@render_snoc_longer l a (proj1 Hpa)) as Hlen;
        rewrite <- E in Hlen; lia).
  all: rewrite Hne.
  all: change (rev post ++ [a]) with (rev (a :: post)).
  all: rewrite <- app_assoc; cbn [app].
  all: apply IH; [assumption | constructor; assumption |].
  all: pose proof (@render_snoc_longer l a (proj1 Hpa)); lia.
Qed.

Lemma resolveRealPath_lexical (p : string) :
  resolveRealPath env p = Some (resolve (cwd env) [p]).
Proof.
  unfold resolveRealPath. destruct (realpathFn env p) as [r|] eqn:R.
  - f_equal. apply Hfree, R.
  - destruct Hfree as [Hcwd _]. rewrite resolve_one by assumption.
    pose proof (walkUp_lexical (fuel := S (String.length (render (rootSegs (cwd env) p))))
                  (rootSegs_plain (cwd env) p) (Forall_nil _)) as H.
    rewrite app_nil_r in H. apply H. lia.
Qed.

Lemma isPathWithinVault_lexical (c v : string) :
  isPathWithinVault env c v
  = Some (equalsOrUnder (resolve (cwd env) [absoluteIn env v (expandHome env c)])
                        (resolve (cwd env) [v])).
Proof. unfold isPathWithinVault. rewrite !resolveRealPath_lexical. reflexivity. Qed.

(** A relative candidate that does not climb is the root's segments
    followed by its own. *)
Lemma resolve_below (v p : string) :
  isAbsolute p = false -> ~ In ".." (relSegs p) ->
  resolve (cwd env) [v; p] = render (rootSegs (cwd env) v ++ relSegs p)
  /\ Forall plainSeg (rootSegs (cwd env) v ++ relSegs p).
Proof.
  intros Hrel Hno. destruct Hfree as [Hcwd _].
  assert (E : normSegs false (rev (rootSegs (cwd env) v)) (split slash p)
              = rev (relSegs p) ++ rev (rootSegs (cwd env) v)).
  { unfold relSegs. rewrite rev_involutive.
    apply (normSegs_below (split slash p) [] (rev (rootSegs (cwd env) v))).
    intros Hin. apply Hno. unfold relSegs. apply in_rev in Hin. exact Hin. }
  split.
  - rewrite resolve_two by assumption. rewrite E, rev_app_distr, !rev_involutive.
    reflexivity.
  - rewrite <- (rev_involutive (rootSegs (cwd env) v)), <- (rev_involutive (relSegs p)).
    rewrite <- rev_app_distr, <- E. apply Forall_rev.
    apply normSegs_false_keeps_plain; [|apply split_noChar_all].
    apply Forall_rev, rootSegs_plain.
Qed.

End SymlinkFree.

End LexicalFacts.

(* ================================================================== *)
(** ** Containment on segments, and the working directory *)
(* ================================================================== *)

Module ContainmentFacts.
Import JsString NodePath StringFacts PathSpec PathFacts Utils WalkFacts LexicalFacts
       ContainmentSpec.

Lemma tildeExpanded_expandHome (env : Env) (p : string) :
  tildeExpanded env p = expandHome env p.
Proof.
  unfold tildeExpanded, expandHome, startsWith.
  destruct p as [|a [|b rest]]; cbn [String.prefix slice_from].
  - reflexivity.
  - destruct (ascii_dec "~" a); reflexivity.
  - destruct (Ascii.eqb_spec a "~") as [->|Ha].
    + destruct (ascii_dec "~" "~") as [_|N]; [|congruence].
      destruct (Ascii.eqb_spec b "/") as [->|Hb].
      * destruct (ascii_dec "/" "/") as [_|N]; [|congruence].
        cbn [andb]. destruct rest; reflexivity.
      * destruct (ascii_dec "/" b) as [E|_]; [congruence | reflexivity].
    + destruct (ascii_dec "~" a) as [E|_]; [congruence | reflexivity].
Qed.

Lemma candidateForm_absoluteIn (env : Env) (v c : string) :
  candidateForm env v c = absoluteIn env v (expandHome env c).
Proof. unfold candidateForm, absoluteIn. rewrite tildeExpanded_expandHome. reflexivity. Qed.

Lemma resolveRealPath_of_realpath (env : Env) (p r : string) :
  realpathFn env p = Some r -> resolveRealPath env p = Some r.
Proof. intros H. unfold resolveRealPath. rewrite H. reflexivity. Qed.

Lemma equalsOrUnder_segments (x root : list string) :
  Forall plainSeg x -> Forall plainSeg root -> root <> [] ->
  equalsOrUnder (render x) (render root) = true <-> withinSegs x root.
Proof.
  intros Hx Hr Hne. split.
  - apply equalsOrUnder_render_inv; assumption.
  - intros [more ->]. apply equalsOrUnder_render_app, Hne.
Qed.

Lemma isPathWithinVault_resolved (env : Env) (c v rc rv : string) :
  resolveRealPath env (candidateForm env v c) = Some rc ->
  resolveRealPath env v = Some rv ->
  isPathWithinVault env c v = Some (equalsOrUnder rc rv).
Proof.
  intros Hc Hv. rewrite candidateForm_absoluteIn in Hc.
  unfold isPathWithinVault. rewrite Hv, Hc. reflexivity.
Qed.

Lemma isPathWithinVault_total (env : Env) (c v : string) :
  exists b, isPathWithinVault env c v = Some b.
Proof.
  destruct (resolveRealPath_total env (candidateForm env v c)) as [rc Hc].
  destruct (resolveRealPath_total env v) as [rv Hv].
  rewrite (isPathWithinVault_resolved _ _ _ Hc Hv). eauto.
Qed.

(** The loop over the export roots, once each root has a canonical
    form made of segments. *)
Lemma exportLoop_segments (env : Env) (x : list string) :
  Forall plainSeg x ->
  forall exports roots,
    Forall2 (fun e r => Forall plainSeg r /\ r <> [] /\
                        resolveRealPath env (tildeExpanded env e) = Some (render r))
            exports roots ->
    exportLoop env (render x) exports = Some true <->
    exists r, In r roots /\ withinSegs x r.
Proof.
  intros Hx exports roots H.
  induction H as [|e r exports roots (Hr & Hne & He) _ IH]; cbn [exportLoop].
  - split; [discriminate | intros (r & [] & _)].
  - rewrite <- tildeExpanded_expandHome, He.
    destruct (equalsOrUnder (render x) (render r)) eqn:Q.
    + split; [|reflexivity]. intros _. exists r. split; [left; reflexivity|].
      apply equalsOrUnder_segments; assumption.
    + rewrite IH. split.
      * intros (r' & Hin & Hw). exists r'. split; [right; exact Hin | exact Hw].
      * intros (r' & [<-|Hin] & Hw).
        -- apply equalsOrUnder_segments in Hw; [congruence | assumption..].
        -- exists r'. auto.
Qed.

Lemma exportLoop_total (env : Env) (rc : string) (exports : list string) :
  exists b, exportLoop env rc exports = Some b.
Proof.
  induction exports as [|e exports [b IH]]; cbn [exportLoop]; [eauto|].
  destruct (resolveRealPath_total env (expandHome env e)) as [re ->].
  destruct (equalsOrUnder rc re); eauto.
Qed.

Lemma isPathInAllowedExportPaths_total (env : Env) (c v : string) (exports : list string) :
  exists b, isPathInAllowedExportPaths env c exports v = Some b.
Proof.
  unfold isPathInAllowedExportPaths.
  destruct (Nat.eqb (List.length exports) 0); [eauto|].
  destruct (resolveRealPath_total env (absoluteIn env v (expandHome env c))) as [rc ->].
  apply exportLoop_total.
Qed.

Lemma isPathInAllowedExportPaths_resolved
      (env : Env) (c v rc : string) (exports : list string) :
  resolveRealPath env (candidateForm env v c) = Some rc ->
  isPathInAllowedExportPaths env c exports v = Some true <->
  exportLoop env rc exports = Some true.
Proof.
  intros Hc. rewrite candidateForm_absoluteIn in Hc.
  unfold isPathInAllowedExportPaths. rewrite Hc.
  destruct exports as [|e exports]; [|reflexivity].
  cbn. split; discriminate.
Qed.

(** *** The canonical form *)

Lemma canonOf_none (env : Env) (p : string) :
  canonOf env p = None ->
  existsSync env p = false \/ realpathFn env p = None.
Proof. unfold canonOf. destruct (existsSync env p); auto. Qed.

Lemma canonOf_some (env : Env) (p r : string) :
  canonOf env p = Some r -> existsSync env p = true /\ realpathFn env p = Some r.
Proof. unfold canonOf. destruct (existsSync env p); [auto | discriminate]. Qed.

Lemma canonOf_found (env : Env) (p r : string) :
  existsSync env p = true -> realpathFn env p = Some r -> canonOf env p = Some r.
Proof. intros H1 H2. unfold canonOf. rewrite H1. exact H2. Qed.

Lemma canonOf_missing (env : Env) (p : string) :
  existsSync env p = false \/ realpathFn env p = None -> canonOf env p = None.
Proof. unfold canonOf. intros [->| ->]; [|destruct (existsSync env p)]; reflexivity. Qed.

(** What [resolveRealPath] returns is the canonical form. *)
Lemma resolveRealPath_canonical (env : Env) (p : string) :
  exists r, resolveRealPath env p = Some r /\ canonical env p r.
Proof.
  destruct (resolveRealPath_total env p) as [r Hr]. exists r. split; [exact Hr|].
  unfold canonical.
  unfold resolveRealPath in Hr. destruct (realpathFn env p) as [r0|]; [congruence|].
  cbv zeta. apply walkUp_spec in Hr.
  destruct Hr as [(k & r0 & Hbelow & Hat & Hres) | [Hall Hres]].
  - left. exists k, r0. apply canonOf_some in Hat. destruct Hat as [Hex Hreal].
    split; [intros j Hj; apply canonOf_none, Hbelow, Hj|].
    split; [exact Hex|]. split; [exact Hreal|].
    rewrite Hres. unfold walkResult. cbn [app].
    rewrite length_map, length_seq, map_rev.
    destruct k; reflexivity.
  - right. split; [|exact Hres]. intros k. apply canonOf_none, Hall.
Qed.

(** A path has one canonical form. *)
Lemma canonical_unique (env : Env) (p r1 r2 : string) :
  canonical env p r1 -> canonical env p r2 -> r1 = r2.
Proof.
  unfold canonical. destruct (realpathFn env p) as [r0|]; [congruence|].
  cbv zeta. set (absolute := resolve (cwd env) [p]).
  intros [(k1 & a1 & B1 & E1 & R1 & ->) | [N1 ->]]
         [(k2 & a2 & B2 & E2 & R2 & ->) | [N2 ->]].
  - assert (k1 = k2).
    { destruct (Nat.lt_trichotomy k1 k2) as [L|[E|L]]; [|exact E|].
      - destruct (B2 k1 L) as [H|H]; congruence.
      - destruct (B1 k2 L) as [H|H]; congruence. }
    subst k2. rewrite R1 in R2. injection R2 as <-. reflexivity.
  - destruct (N2 k1) as [H|H]; congruence.
  - destruct (N1 k2) as [H|H]; congruence.
  - reflexivity.
Qed.

Lemma canonical_resolveRealPath (env : Env) (p r : string) :
  canonical env p r <-> resolveRealPath env p = Some r.
Proof.
  destruct (resolveRealPath_canonical env p) as (r' & Hr & Hc). split.
  - intros H. rewrite (@canonical_unique env p r r' H Hc). exact Hr.
  - intros H. rewrite Hr in H. injection H as <-. exact Hc.
Qed.

(** *** [path.resolve] and the working directory *)

Lemma resolveScan_available (env : Env) (args : list string) :
  forall acc,
    UtilsCwd.resolveScan env false args acc
    = UtilsCwd.Returns (resolveScan (args ++ [cwd env]) acc).
Proof.
  induction args as [|p args IH]; intros acc; cbn [UtilsCwd.resolveScan app].
  - reflexivity.
  - cbn [resolveScan]. destruct (p =? "")%string; [apply IH|].
    destruct (isAbsolute p); [reflexivity | apply IH].
Qed.

Lemma resolve_available (env : Env) (args : list string) :
  UtilsCwd.resolve env false args = UtilsCwd.Returns (resolve (cwd env) args).
Proof.
  unfold UtilsCwd.resolve, resolve. rewrite resolveScan_available.
  destruct (resolveScan (rev args ++ [cwd env]) "") as [rp abs]. reflexivity.
Qed.

Lemma resolve_absolute (env : Env) (cwdRemoved : bool) (p : string) :
  isAbsolute p = true ->
  UtilsCwd.resolve env cwdRemoved [p] = UtilsCwd.Returns (resolve (cwd env) [p]).
Proof.
  intros H. unfold UtilsCwd.resolve, resolve. cbn [rev app UtilsCwd.resolveScan resolveScan].
  rewrite (isAbsolute_nonempty _ H), H. reflexivity.
Qed.

Lemma resolve_throws (env : Env) (p : string) :
  isAbsolute p = false -> UtilsCwd.resolve env true [p] = UtilsCwd.Throws.
Proof.
  intros H. unfold UtilsCwd.resolve. cbn [rev app UtilsCwd.resolveScan].
  rewrite H. destruct (p =? "")%string; reflexivity.
Qed.

(** While the working directory is there the two models agree. *)
Lemma resolveRealPath_available (env : Env) (p : string) :
  UtilsCwd.resolveRealPath env false p
  = option_map UtilsCwd.Returns (resolveRealPath env p).
Proof.
  unfold UtilsCwd.resolveRealPath, resolveRealPath.
  destruct (realpathFn env p); [reflexivity|].
  rewrite resolve_available.
  destruct (walkUp env _ _ _ _); reflexivity.
Qed.

End ContainmentFacts.

(* ================================================================== *)
(** ** The derivative matcher decides [Matches] *)
(* ================================================================== *)

Module RegExpFacts.
Import JsString StringFacts MiniRegExp.

Lemma append_empty (a b : string) : (a ++ b)%string = "" -> a = "" /\ b = "".
Proof. destruct a; simpl; [auto | discriminate]. Qed.

Lemma nullable_sound (r : regex) :
  forall atStart atEnd, nullable atStart atEnd r = true -> Matches r atStart "" atEnd.
Proof.
  induction r; intros atStart atEnd H; simpl in H; try discriminate.
  - constructor.
  - apply andb_true_iff in H. destruct H as [H1 H2].
    change "" with ("" ++ "")%string. constructor.
    + simpl. rewrite andb_true_r. auto.
    + simpl. rewrite andb_true_r. auto.
  - apply orb_true_iff in H. destruct H; [apply M_alt_l | apply M_alt_r]; auto.
  - constructor.
  - subst. constructor.
  - subst. constructor.
Qed.

Lemma nullable_complete (r : regex) (atStart : bool) (w : string) (atEnd : bool) :
  Matches r atStart w atEnd -> w = "" -> nullable atStart atEnd r = true.
Proof.
  induction 1 as [ | | r1 r2 w1 w2 bs es _ IH1 _ IH2 | | | | r w1 w2 bs es Hne | | ];
    intros Hw; simpl; try reflexivity; try discriminate.
  - apply append_empty in Hw. destruct Hw as [-> ->].
    simpl in IH1, IH2. rewrite andb_true_r in IH1, IH2.
    rewrite IH1, IH2; reflexivity.
  - rewrite IHMatches by assumption. reflexivity.
  - rewrite IHMatches by assumption. apply orb_true_r.
Qed.

Lemma nullable_iff (r : regex) (atStart atEnd : bool) :
  nullable atStart atEnd r = true <-> Matches r atStart "" atEnd.
Proof.
  split; [apply nullable_sound | intros H; eapply nullable_complete; eauto].
Qed.

Lemma deriv_sound (c : ascii) (r : regex) :
  forall atStart w atEnd,
    Matches (deriv c atStart r) false w atEnd -> Matches r atStart (String c w) atEnd.
Proof.
  induction r; intros atStart w atEnd H; simpl in H; try solve [inversion H].
  - destruct (classMatches cls c) eqn:E; inversion H; subst. constructor; assumption.
  - assert (Hleft : Matches (Cat (deriv c atStart r1) r2) false w atEnd ->
                    Matches (Cat r1 r2) atStart (String c w) atEnd).
    { intros HL. inversion HL as [ | | ? ? w1 w2 ? ? H1 H2 | | | | | | ]; subst.
      change (String c (w1 ++ w2)) with (String c w1 ++ w2)%string.
      constructor; [apply IHr1; assumption|].
      simpl. rewrite andb_false_r. exact H2. }
    destruct (nullable atStart false r1) eqn:N; [|apply Hleft; assumption].
    inversion H; subst; [apply Hleft; assumption|].
    change (String c w) with ("" ++ String c w)%string. constructor.
    + simpl. rewrite andb_false_r. apply nullable_sound. assumption.
    + simpl. rewrite andb_true_r. apply IHr2. assumption.
  - inversion H; subst; [apply M_alt_l | apply M_alt_r]; auto.
  - inversion H as [ | | ? ? w1 w2 ? ? H1 H2 | | | | | | ]; subst.
    change (String c (w1 ++ w2)) with (String c w1 ++ w2)%string.
    constructor; [discriminate | apply IHr; assumption | exact H2].
Qed.

Lemma deriv_complete (r : regex) (atStart : bool) (s : string) (atEnd : bool) :
  Matches r atStart s atEnd ->
  forall c w, s = String c w -> Matches (deriv c atStart r) false w atEnd.
Proof.
  induction 1 as [ | cls c0 bs es Hc
                 | r1 r2 w1 w2 bs es H1 IH1 H2 IH2
                 | r1 r2 w0 bs es H1 IH1 | r1 r2 w0 bs es H2 IH2
                 | | r w1 w2 bs es Hne H1 IH1 H2 IH2 | | ];
    intros c w Hs; try discriminate.
  - injection Hs as -> <-. simpl. rewrite Hc. constructor.
  - simpl. destruct w1 as [|c1 w1].
    + simpl in Hs. subst w2. simpl in H1. rewrite andb_false_r in H1.
      rewrite (proj2 (nullable_iff _ _ _) H1).
      apply M_alt_r. specialize (IH2 c w eq_refl).
      simpl in IH2. rewrite andb_true_r in IH2. exact IH2.
    + simpl in Hs. injection Hs as -> <-.
      assert (HL : Matches (Cat (deriv c bs r1) r2) false (w1 ++ w2) es).
      { constructor; [apply IH1; reflexivity|].
        simpl in H2. rewrite andb_false_r in H2. exact H2. }
      destruct (nullable bs false r1); [apply M_alt_l|]; exact HL.
  - simpl. apply M_alt_l. apply IH1. assumption.
  - simpl. apply M_alt_r. apply IH2. assumption.
  - simpl. destruct w1 as [|c1 w1]; [congruence|].
    simpl in Hs. injection Hs as -> <-.
    constructor; [apply IH1; reflexivity | exact H2].
Qed.

Lemma deriv_iff (c : ascii) (r : regex) (atStart : bool) (w : string) (atEnd : bool) :
  Matches (deriv c atStart r) false w atEnd <-> Matches r atStart (String c w) atEnd.
Proof.
  split; [apply deriv_sound | intros H; eapply deriv_complete; eauto].
Qed.

Lemma matchHere_iff (s : string) :
  forall r atStart,
    matchHere r atStart s = true <->
    exists w rest, s = (w ++ rest)%string /\ Matches r atStart w (isEmpty rest).
Proof.
  induction s as [|c t IH]; intros r atStart; simpl.
  - rewrite nullable_iff. split.
    + intros H. exists "", "". auto.
    + intros (w & rest & Hs & H). symmetry in Hs. apply append_empty in Hs.
      destruct Hs as [-> ->]. exact H.
  - rewrite orb_true_iff, nullable_iff, IH. split.
    + intros [H | (w & rest & -> & H)].
      * exists "", (String c t). auto.
      * exists (String c w), rest. split; [reflexivity|]. apply deriv_iff. exact H.
    + intros (w & rest & Hs & H). destruct w as [|c' w].
      * left. simpl in Hs. subst rest. exact H.
      * right. simpl in Hs. injection Hs as <- ->.
        exists w, rest. split; [reflexivity|]. apply deriv_iff. exact H.
Qed.

Lemma search_iff (s : string) :
  forall r atStart,
    search r atStart s = true <->
    exists a w b, s = (a ++ w ++ b)%string /\
                  Matches r (atStart && isEmpty a) w (isEmpty b).
Proof.
  induction s as [|c t IH]; intros r atStart; cbn [search];
    rewrite orb_true_iff, matchHere_iff.
  - split.
    + intros [(w & rest & Hs & H) | H]; [|discriminate].
      exists "", w, rest. simpl. rewrite andb_true_r. auto.
    + intros (a & w & b & Hs & H). left.
      symmetry in Hs. apply append_empty in Hs. destruct Hs as [-> Hs].
      simpl in H. rewrite andb_true_r in H. exists w, b. auto.
  - rewrite IH. split.
    + intros [(w & rest & Hs & H) | (a & w & b & Hs & H)].
      * exists "", w, rest. simpl. rewrite andb_true_r. auto.
      * exists (String c a), w, b. simpl. rewrite andb_false_r.
        split; [congruence | exact H].
    + intros (a & w & b & Hs & H). destruct a as [|c' a].
      * left. simpl in *. rewrite andb_true_r in H. exists w, b. auto.
      * right. simpl in Hs. injection Hs as <- ->. simpl in H.
        rewrite andb_false_r in H. exists a, w, b. auto.
Qed.

Lemma testRegex_iff (r : regex) (s : string) :
  testRegex r s = true <-> MatchesWithin r s.
Proof. unfold testRegex, MatchesWithin. rewrite search_iff. reflexivity. Qed.

End RegExpFacts.

(* ================================================================== *)
(** ** Facts about trimming, searching and objects *)
(* ================================================================== *)

Module EnvFacts.
Import JsString JsObject UtilsEnv StringFacts.


Lemma chars_inj (a b : string) : chars a = chars b -> a = b.
Proof. intros H. rewrite <- (of_chars_chars a), <- (of_chars_chars b), H. reflexivity. Qed.

(** *** [NodePath.dropWhile] *)

Lemma dropWhile_split {A} (f : A -> bool) (l : list A) :
  exists pre, l = pre ++ NodePath.dropWhile f l /\ Forall (fun x => f x = true) pre.
Proof.
  induction l as [|x l (pre & E & Hpre)]; simpl.
  - exists []. split; [reflexivity | constructor].
  - destruct (f x) eqn:Fx.
    + exists (x :: pre). split; [simpl; congruence | constructor; assumption].
    + exists []. split; [reflexivity | constructor].
Qed.

Lemma dropWhile_past {A} (f : A -> bool) (l : list A) (x : A) (r : list A) :
  f x = false -> NodePath.dropWhile f (l ++ x :: r) = NodePath.dropWhile f l ++ x :: r.
Proof.
  intros Hx. induction l as [|a l IH]; simpl.
  - rewrite Hx. reflexivity.
  - destruct (f a); [exact IH | reflexivity].
Qed.

Lemma dropWhile_blank {A} (f : A -> bool) (l : list A) :
  Forall (fun x => f x = true) l -> NodePath.dropWhile f l = [].
Proof. induction 1 as [|x l Hx _ IH]; simpl; [|rewrite Hx]; auto. Qed.

Lemma dropWhile_nil_inv {A} (f : A -> bool) (l : list A) :
  NodePath.dropWhile f l = [] -> Forall (fun x => f x = true) l.
Proof.
  intros H. destruct (dropWhile_split f l) as (pre & E & Hpre).
  rewrite H, app_nil_r in E. subst. assumption.
Qed.

Lemma dropWhile_kept {A} (f : A -> bool) (x : A) (l : list A) :
  f x = false -> NodePath.dropWhile f (x :: l) = x :: l.
Proof. simpl. intros ->. reflexivity. Qed.

Lemma dropWhile_head_false {A} (f : A -> bool) (l : list A) (y : A) (r : list A) :
  NodePath.dropWhile f l = y :: r -> f y = false.
Proof.
  induction l as [|x l IH]; simpl; [discriminate|].
  destruct (f x) eqn:E; [exact IH|]. intros H; injection H as <- _. exact E.
Qed.

Lemma dropWhile_idem {A} (f : A -> bool) (l : list A) :
  NodePath.dropWhile f (NodePath.dropWhile f l) = NodePath.dropWhile f l.
Proof.
  destruct (NodePath.dropWhile f l) as [|y r] eqn:E; [reflexivity|].
  apply dropWhile_head_false in E. apply dropWhile_kept, E.
Qed.

Lemma dropWhile_incl {A} (f : A -> bool) (l : list A) (x : A) :
  In x (NodePath.dropWhile f l) -> In x l.
Proof.
  destruct (dropWhile_split f l) as (pre & E & _). intros H.
  rewrite E. apply in_or_app. right. exact H.
Qed.

(** A list is blank, or it has a first element that is not. *)
Lemma first_kept {A} (f : A -> bool) (l : list A) :
  Forall (fun x => f x = true) l \/
  exists w x m, l = w ++ x :: m /\ Forall (fun x => f x = true) w /\ f x = false.
Proof.
  destruct (dropWhile_split f l) as (pre & E & Hpre).
  destruct (NodePath.dropWhile f l) as [|y r] eqn:D.
  - left. rewrite app_nil_r in E. subst. assumption.
  - right. exists pre, y, r. split; [exact E|]. split; [exact Hpre|].
    eapply dropWhile_head_false, D.
Qed.

(** *** [trim] *)

Lemma chars_trimStart (s : string) :
  chars (trimStart s) = NodePath.dropWhile isWhiteSpace (chars s).
Proof. unfold trimStart. apply chars_of_chars. Qed.

Lemma chars_trimEnd (s : string) :
  chars (trimEnd s) = rev (NodePath.dropWhile isWhiteSpace (rev (chars s))).
Proof. unfold trimEnd. apply chars_of_chars. Qed.

Lemma chars_trim (s : string) :
  chars (trim s)
  = rev (NodePath.dropWhile isWhiteSpace (rev (NodePath.dropWhile isWhiteSpace (chars s)))).
Proof. unfold trim. rewrite chars_trimEnd, chars_trimStart. reflexivity. Qed.

Lemma trimStart_idem (s : string) : trimStart (trimStart s) = trimStart s.
Proof. apply chars_inj. rewrite !chars_trimStart. apply dropWhile_idem. Qed.

Lemma trimEnd_idem (s : string) : trimEnd (trimEnd s) = trimEnd s.
Proof.
  apply chars_inj. rewrite !chars_trimEnd, rev_involutive, dropWhile_idem. reflexivity.
Qed.

Lemma trim_commute (s : string) : trimStart (trimEnd s) = trimEnd (trimStart s).
Proof.
  apply chars_inj. rewrite chars_trimStart, !chars_trimEnd, chars_trimStart.
  destruct (first_kept isWhiteSpace (chars s)) as [Hall | (w & x & m & E & Hw & Hx)].
  - rewrite (@dropWhile_blank _ isWhiteSpace (chars s)) by assumption.
    rewrite (@dropWhile_blank _ isWhiteSpace (rev (chars s))) by (apply Forall_rev; assumption).
    reflexivity.
  - rewrite E. rewrite PathFacts.dropWhile_all, dropWhile_kept by assumption.
    rewrite rev_app_distr. cbn [rev]. rewrite <- app_assoc. cbn [app].
    rewrite !dropWhile_past by assumption.
    set (D := NodePath.dropWhile isWhiteSpace (rev m)).
    assert (R : rev (D ++ x :: rev w) = w ++ x :: rev D).
    { rewrite rev_app_distr. cbn [rev]. rewrite rev_involutive, <- app_assoc. reflexivity. }
    rewrite R, PathFacts.dropWhile_all, dropWhile_kept by assumption.
    rewrite rev_app_distr. reflexivity.
Qed.

Lemma trim_trimStart (s : string) : trim (trimStart s) = trim s.
Proof. unfold trim. rewrite trimStart_idem. reflexivity. Qed.

Lemma trim_trimEnd (s : string) : trim (trimEnd s) = trim s.
Proof. unfold trim. rewrite trim_commute, trimEnd_idem. reflexivity. Qed.

Lemma trim_idem (s : string) : trim (trim s) = trim s.
Proof. unfold trim at 2. rewrite trim_trimEnd, trim_trimStart. reflexivity. Qed.

Lemma trimStart_incl (s : string) (c : ascii) :
  In c (chars (trimStart s)) -> In c (chars s).
Proof. rewrite chars_trimStart. apply dropWhile_incl. Qed.

Lemma trimEnd_incl (s : string) (c : ascii) :
  In c (chars (trimEnd s)) -> In c (chars s).
Proof.
  rewrite chars_trimEnd. intros H. apply in_rev in H. apply dropWhile_incl in H.
  apply in_rev. exact H.
Qed.

Lemma trim_incl (s : string) (c : ascii) : In c (chars (trim s)) -> In c (chars s).
Proof. intros H. apply trimStart_incl, trimEnd_incl, H. Qed.

Lemma trim_noChar (c : ascii) (s : string) : noChar c s -> noChar c (trim s).
Proof. intros H Hin. apply H, trim_incl, Hin. Qed.

Lemma trimStart_noChar (c : ascii) (s : string) : noChar c s -> noChar c (trimStart s).
Proof. intros H Hin. apply H, trimStart_incl, Hin. Qed.

Lemma trimEnd_noChar (c : ascii) (s : string) : noChar c s -> noChar c (trimEnd s).
Proof. intros H Hin. apply H, trimEnd_incl, Hin. Qed.

(** [trimEnd] cuts a blank tail off. *)
Lemma trimEnd_prefix (s : string) :
  exists w, s = (trimEnd s ++ w)%string /\ Forall (fun c => isWhiteSpace c = true) (chars w).
Proof.
  destruct (dropWhile_split isWhiteSpace (rev (chars s))) as (pre & E & Hpre).
  exists (of_chars (rev pre)). split.
  - apply chars_inj. rewrite chars_append, chars_trimEnd, chars_of_chars.
    rewrite <- rev_app_distr, <- E, rev_involutive. reflexivity.
  - rewrite chars_of_chars. apply Forall_rev. assumption.
Qed.

(** Trimming around a character that is not white space. *)
Lemma trim_around (a b : string) (x : ascii) :
  isWhiteSpace x = false ->
  trim (a ++ String x b) = (trimStart a ++ String x (trimEnd b))%string.
Proof.
  intros Hx. apply chars_inj. rewrite chars_trim, !chars_append.
  change (chars (String x b)) with (x :: chars b).
  change (chars (String x (trimEnd b))) with (x :: chars (trimEnd b)).
  rewrite dropWhile_past by assumption.
  rewrite rev_app_distr. cbn [rev]. rewrite <- app_assoc. cbn [app].
  rewrite dropWhile_past by assumption.
  rewrite rev_app_distr. cbn [rev]. rewrite <- app_assoc. cbn [app].
  rewrite rev_involutive, chars_trimStart, chars_trimEnd. reflexivity.
Qed.

Lemma trim_empty_iff (s : string) : trim s = "" <-> Forall (fun c => isWhiteSpace c = true) (chars s).
Proof.
  split.
  - intros H. apply (f_equal chars) in H. rewrite chars_trim in H.
    change (chars "") with (@nil ascii) in H.
    apply (f_equal (@rev ascii)) in H. rewrite rev_involutive in H. cbn [rev] in H.
    apply dropWhile_nil_inv in H. apply Forall_rev in H. rewrite rev_involutive in H.
    destruct (dropWhile_split isWhiteSpace (chars s)) as (pre & E & Hpre).
    rewrite E. apply Forall_app. split; assumption.
  - intros H. apply chars_inj. rewrite chars_trim, (@dropWhile_blank _ isWhiteSpace (chars s)) by assumption.
    reflexivity.
Qed.

Lemma trimStart_empty_iff (s : string) : trimStart s = "" <-> trim s = "".
Proof.
  split.
  - intros H. unfold trim. rewrite H. reflexivity.
  - intros H. apply trim_empty_iff in H. apply chars_inj. rewrite chars_trimStart.
    apply dropWhile_blank, H.
Qed.

(** The first character of a trimmed string is that of the string
    trimmed at the start. *)
Lemma startsWith_char_append (a b : string) (c : ascii) :
  a <> "" -> startsWith (a ++ b) (String c "") = startsWith a (String c "").
Proof.
  intros Ha. destruct a as [|d a]; [congruence|]. unfold startsWith. simpl.
  destruct (ascii_dec c d); [|reflexivity]. destruct (a ++ b)%string, a; reflexivity.
Qed.

Lemma startsWith_trimStart (s : string) (c : ascii) :
  trim s <> "" -> startsWith (trimStart s) (String c "") = startsWith (trim s) (String c "").
Proof.
  intros H. destruct (trimEnd_prefix (trimStart s)) as (w & E & _).
  fold (trim s) in E. rewrite E at 1. apply startsWith_char_append, H.
Qed.

(** *** [indexOf], [substring], [slice] *)

Lemma indexOfChar_first (c : ascii) (a b : string) :
  noChar c a -> indexOfChar c (a ++ String c b) = Some (String.length a).
Proof.
  unfold noChar, chars. induction a as [|d a IH]; simpl; intros H.
  - rewrite Ascii.eqb_refl. reflexivity.
  - destruct (Ascii.eqb_spec d c) as [->|Hne]; [exfalso; apply H; auto|].
    rewrite IH by auto. reflexivity.
Qed.

Lemma indexOfChar_none (c : ascii) (s : string) : noChar c s -> indexOfChar c s = None.
Proof.
  unfold noChar, chars. induction s as [|d s IH]; simpl; intros H; [reflexivity|].
  destruct (Ascii.eqb_spec d c) as [->|Hne]; [exfalso; apply H; auto|].
  rewrite IH by auto. reflexivity.
Qed.

Lemma substring_prefix (a b : string) : substring 0 (String.length a) (a ++ b) = a.
Proof.
  induction a as [|c a IH]; simpl.
  - destruct b; reflexivity.
  - rewrite IH. reflexivity.
Qed.

Lemma slice_from_suffix (a : string) (c : ascii) (b : string) :
  slice_from (String.length a + 1) (a ++ String c b) = b.
Proof. induction a as [|d a IH]; simpl; [reflexivity | exact IH]. Qed.

(** A string that holds [c] splits at its first occurrence. *)
Lemma first_occurrence (c : ascii) (s : string) :
  noChar c s \/ exists pre post, s = (pre ++ String c post)%string /\ noChar c pre.
Proof.
  unfold noChar, chars. induction s as [|d s IH]; simpl.
  - left. intros [].
  - destruct (Ascii.eqb_spec d c) as [->|Hne].
    + right. exists "", s. split; [reflexivity | intros []].
    + destruct IH as [IH | (pre & post & -> & Hpre)].
      * left. intros [E|E]; [congruence | auto].
      * right. exists (String d pre), post. split; [reflexivity|].
        simpl. intros [E|E]; [congruence | auto].
Qed.

Lemma noChar_append (c : ascii) (a b : string) :
  noChar c (a ++ b) <-> noChar c a /\ noChar c b.
Proof.
  unfold noChar. rewrite chars_append. split.
  - intros H. split; intros Hin; apply H, in_or_app; auto.
  - intros [Ha Hb] Hin. apply in_app_or in Hin. tauto.
Qed.

(** *** Objects *)

Lemma getProp_assign_same (obj : Record_) (k v : string) :
  getProp (assign obj k v) k = Some v.
Proof.
  induction obj as [|[k0 v0] obj IH]; simpl.
  - rewrite String.eqb_refl. reflexivity.
  - destruct (String.eqb_spec k0 k) as [->|Hne]; simpl.
    + rewrite String.eqb_refl. reflexivity.
    + apply String.eqb_neq in Hne. rewrite Hne. exact IH.
Qed.

Lemma getProp_assign_other (obj : Record_) (k v k' : string) :
  k' <> k -> getProp (assign obj k v) k' = getProp obj k'.
Proof.
  intros Hne. induction obj as [|[k0 v0] obj IH]; simpl.
  - destruct (String.eqb_spec k k'); [congruence | reflexivity].
  - destruct (String.eqb_spec k0 k) as [->|Hk]; simpl.
    + destruct (String.eqb_spec k k'); [congruence | reflexivity].
    + rewrite IH. reflexivity.
Qed.

Lemma getProp_In (obj : Record_) (k v : string) :
  getProp obj k = Some v -> In (k, v) obj.
Proof.
  induction obj as [|[k0 v0] obj IH]; simpl; [discriminate|].
  destruct (String.eqb_spec k0 k) as [->|Hne].
  - intros H; injection H as <-. left; reflexivity.
  - intros H. right. auto.
Qed.

Lemma assign_Forall (P : string -> Prop) (Q : string -> Prop) (obj : Record_) (k v : string) :
  Forall (fun e => P (fst e) /\ Q (snd e)) obj -> P k -> Q v ->
  Forall (fun e => P (fst e) /\ Q (snd e)) (assign obj k v).
Proof.
  intros H Hk Hv. induction H as [|[k0 v0] obj [H1 H2] Hrest IH]; simpl.
  - constructor; [split; assumption | constructor].
  - destruct (k0 =? k)%string; constructor; simpl in *; try split; auto.
Qed.

(** *** One line of [parseEnvironmentVariables] *)

Lemma parseLine_without_eq (result : Record_) (line : string) :
  noChar "="%char line -> parseLine result line = result.
Proof.
  intros H. unfold parseLine. destruct (_ || _); [reflexivity|].
  rewrite indexOfChar_none by (apply trim_noChar; assumption). reflexivity.
Qed.

(** A line cut at its first ["="]: the key is what stands before it,
    the value all that follows, both trimmed. *)
Lemma parseLine_with_eq (result : Record_) (pre post : string) :
  noChar "="%char pre ->
  parseLine result (pre ++ String "="%char post)
  = if (trim pre =? "")%string || startsWith (trim pre) "#" then result
    else setProp result (trim pre) (trim post).
Proof.
  intros Hpre. unfold parseLine. rewrite trim_around by reflexivity.
  destruct (String.eqb_spec (trim pre) "") as [E|E].
  - apply trimStart_empty_iff in E. rewrite E. reflexivity.
  - assert (Ht : trimStart pre <> "").
    { intros H. apply E. apply trimStart_empty_iff. exact H. }
    assert (Hne : (trimStart pre ++ String "="%char (trimEnd post) =? "")%string = false).
    { destruct (trimStart pre); [congruence | reflexivity]. }
    rewrite Hne. cbn [orb].
    rewrite startsWith_char_append, startsWith_trimStart by assumption.
    destruct (startsWith (trim pre) "#"); [reflexivity|].
    rewrite indexOfChar_first by (apply trimStart_noChar; assumption).
    destruct (String.length (trimStart pre)) as [|n] eqn:L.
    { destruct (trimStart pre); [congruence | discriminate]. }
    rewrite <- L. rewrite substring_prefix, slice_from_suffix.
    rewrite trim_trimStart, trim_trimEnd.
    apply String.eqb_neq in E. rewrite E. reflexivity.
Qed.

Lemma parse_append (a b : string) :
  parseEnvironmentVariables (a ++ String lineFeed b)
  = fold_left parseLine (split lineFeed b) (parseEnvironmentVariables a).
Proof.
  unfold parseEnvironmentVariables. rewrite split_append_sep, fold_left_app. reflexivity.
Qed.

Lemma parse_append_line (a line : string) :
  noChar lineFeed line ->
  parseEnvironmentVariables (a ++ String lineFeed line)
  = parseLine (parseEnvironmentVariables a) line.
Proof. intros H. rewrite parse_append, split_noChar by assumption. reflexivity. Qed.

Lemma parse_first_line (line b : string) :
  noChar lineFeed line ->
  parseEnvironmentVariables (line ++ String lineFeed b)
  = fold_left parseLine (split lineFeed b) (parseLine [] line).
Proof.
  intros H. rewrite parse_append. unfold parseEnvironmentVariables at 1.
  rewrite (split_noChar H). reflexivity.
Qed.

Lemma split_keeps_noChar (c sep : ascii) (s : string) :
  noChar c s -> Forall (noChar c) (split sep s).
Proof.
  unfold noChar, chars. induction s as [|d s IH]; simpl; intros H.
  - constructor; [intros [] | constructor].
  - assert (Hs : ~ In c (list_ascii_of_string s)) by (intros Hin; apply H; auto).
    specialize (IH Hs). destruct (Ascii.eqb d sep).
    + constructor; [intros [] | exact IH].
    + destruct (split sep s) as [|h t]; inversion IH; subst.
      * constructor; [|constructor]. simpl. intros [E|[]]. apply H. auto.
      * constructor; [|assumption]. simpl. intros [E|E]; [apply H; auto | auto].
Qed.

(** *** The loop of [findClaudeCLIPath] *)

Lemma firstExisting_spec (env : Env) (paths : list string) :
  match firstExisting env paths with
  | Some p =>
      existsSync env p = true /\
      exists before after,
        paths = before ++ p :: after /\
        Forall (fun q => existsSync env q = false) before
  | None => Forall (fun q => existsSync env q = false) paths
  end.
Proof.
  induction paths as [|p paths IH]; simpl; [constructor|].
  destruct (existsSync env p) eqn:E.
  - split; [exact E|]. exists [], paths. split; [reflexivity | constructor].
  - destruct (firstExisting env paths) as [q|].
    + destruct IH as (Hq & before & after & -> & Hb). split; [exact Hq|].
      exists (p :: before), after. split; [reflexivity | constructor; assumption].
    + constructor; assumption.
Qed.

(** *** The model map *)

Lemma mapHas_In (m : ModelMap) (k : string) : mapHas m k = true <-> In k (map fst m).
Proof.
  induction m as [|[k0 i] m IH]; simpl; [split; [discriminate | intros []]|].
  rewrite orb_true_iff, IH, String.eqb_eq. tauto.
Qed.

Lemma mapPushType_fst (m : ModelMap) (k t : string) :
  map fst (mapPushType m k t) = map fst m.
Proof.
  induction m as [|[k0 i] m IH]; simpl; [reflexivity|].
  destruct (k0 =? k)%string; simpl; [reflexivity | rewrite IH; reflexivity].
Qed.

Lemma mapPushType_labels (P : string -> string -> Prop) (m : ModelMap) (k t : string) :
  Forall (fun e => P (fst e) (label (snd e))) m ->
  Forall (fun e => P (fst e) (label (snd e))) (mapPushType m k t).
Proof.
  induction 1 as [|[k0 i] m H Hrest IH]; simpl; [constructor|].
  destruct (k0 =? k)%string; constructor; auto.
Qed.

Lemma truthy_some (o : option string) (v : string) :
  truthy o = Some v <-> o = Some v /\ v <> "".
Proof.
  unfold truthy. destruct o as [w|]; [|split; [discriminate | intros [H _]; discriminate]].
  destruct (String.eqb_spec w "") as [->|Hne]; split.
  - discriminate.
  - intros [H Hv]. injection H as <-. congruence.
  - intros H. injection H as <-. auto.
  - intros [H _]. exact H.
Qed.

Lemma collectEntry_keys (envVars : Record_) (m : ModelMap) (e : string * string) (v : string) :
  In v (map fst (collectEntry envVars m e)) <->
  In v (map fst m) \/ truthy (getProp envVars (snd e)) = Some v.
Proof.
  destruct e as [t key]. unfold collectEntry. cbn [snd].
  destruct (truthy (getProp envVars key)) as [w|].
  - destruct (mapHas m w) eqn:Hh; cbn [negb].
    + rewrite mapPushType_fst. apply mapHas_In in Hh. split; [auto|].
      intros [H|H]; [exact H | injection H as <-; exact Hh].
    + rewrite map_app, in_app_iff. cbn. split.
      * intros [H|[<-|[]]]; auto.
      * intros [H|H]; [auto | injection H as <-; auto].
  - split; [auto | intros [H|H]; [exact H | discriminate]].
Qed.

Lemma collectEntry_NoDup (envVars : Record_) (m : ModelMap) (e : string * string) :
  NoDup (map fst m) -> NoDup (map fst (collectEntry envVars m e)).
Proof.
  intros H. destruct e as [t key]. unfold collectEntry.
  destruct (truthy (getProp envVars key)) as [w|]; [|exact H].
  destruct (mapHas m w) eqn:Hh; cbn [negb].
  - rewrite mapPushType_fst. exact H.
  - rewrite map_app. apply NoDup_app; [exact H | repeat constructor; intros [] |].
    intros a Ha [<-|[]]. apply (proj2 (mapHas_In m w)) in Ha. congruence.
Qed.

Lemma collectEntry_labels (envVars : Record_) (m : ModelMap) (e : string * string) :
  Forall (fun en => fst en <> "" /\ label (snd en) = modelLabel (fst en)) m ->
  Forall (fun en => fst en <> "" /\ label (snd en) = modelLabel (fst en))
         (collectEntry envVars m e).
Proof.
  intros H. destruct e as [t key]. unfold collectEntry.
  destruct (truthy (getProp envVars key)) as [w|] eqn:T; [|exact H].
  destruct (mapHas m w); cbn [negb].
  - apply (mapPushType_labels (fun k l => k <> "" /\ l = modelLabel k)), H.
  - apply Forall_app. split; [exact H|]. constructor; [|constructor].
    apply truthy_some in T. split; [apply T | reflexivity].
Qed.

Lemma collect_keys (envVars : Record_) (entries : list (string * string)) :
  forall (m : ModelMap) (v : string),
    In v (map fst (fold_left (collectEntry envVars) entries m)) <->
    In v (map fst m) \/
    exists e, In e entries /\ truthy (getProp envVars (snd e)) = Some v.
Proof.
  induction entries as [|e entries IH]; intros m v; cbn [fold_left].
  - split; [auto | intros [H|(e & [] & _)]; exact H].
  - rewrite IH, collectEntry_keys. split.
    + intros [[H|H]|(e' & Hin & H)]; [auto | right; exists e | right; exists e'];
        auto using in_eq, in_cons.
    + intros [H|(e' & [<-|Hin] & H)]; [auto | auto |]. right. exists e'. auto.
Qed.

Lemma collect_NoDup (envVars : Record_) (entries : list (string * string)) :
  forall m : ModelMap,
    NoDup (map fst m) -> NoDup (map fst (fold_left (collectEntry envVars) entries m)).
Proof.
  induction entries as [|e entries IH]; intros m H; cbn [fold_left]; [exact H|].
  apply IH, collectEntry_NoDup, H.
Qed.

Lemma collect_labels (envVars : Record_) (entries : list (string * string)) :
  forall m : ModelMap,
    Forall (fun en => fst en <> "" /\ label (snd en) = modelLabel (fst en)) m ->
    Forall (fun en => fst en <> "" /\ label (snd en) = modelLabel (fst en))
           (fold_left (collectEntry envVars) entries m).
Proof.
  induction entries as [|e entries IH]; intros m H; cbn [fold_left]; [exact H|].
  apply IH, collectEntry_labels, H.
Qed.

(** *** The stable sort *)

Lemma insertDesc_In {A} (key : A -> nat) (x a : A) (l : list A) :
  In x (insertDesc key a l) <-> x = a \/ In x l.
Proof.
  induction l as [|y l IH]; simpl; [intuition auto|].
  destruct (Nat.leb (key y) (key a)); simpl; [intuition auto|].
  rewrite IH. intuition auto.
Qed.

Lemma sortDesc_In {A} (key : A -> nat) (x : A) (l : list A) :
  In x (sortDesc key l) <-> In x l.
Proof.
  unfold sortDesc. induction l as [|a l IH]; simpl; [tauto|].
  rewrite insertDesc_In, IH. intuition auto.
Qed.

Lemma insertDesc_map_In {A B} (f : A -> B) (key : A -> nat) (z : B) (a : A) (l : list A) :
  In z (map f (insertDesc key a l)) <-> z = f a \/ In z (map f l).
Proof.
  split.
  - intros H. apply in_map_iff in H. destruct H as (x & <- & Hx).
    apply insertDesc_In in Hx. destruct Hx as [->|Hx]; [auto|].
    right. apply in_map, Hx.
  - intros [->|H].
    + apply in_map, insertDesc_In. auto.
    + apply in_map_iff in H. destruct H as (x & <- & Hx).
      apply in_map, insertDesc_In. auto.
Qed.

Lemma insertDesc_map_NoDup {A B} (f : A -> B) (key : A -> nat) (a : A) (l : list A) :
  ~ In (f a) (map f l) -> NoDup (map f l) -> NoDup (map f (insertDesc key a l)).
Proof.
  induction l as [|y l IH]; simpl; intros Ha Hl.
  - repeat constructor. intros [].
  - destruct (Nat.leb (key y) (key a)); simpl.
    + constructor; assumption.
    + inversion Hl; subst. constructor.
      * rewrite insertDesc_map_In. intros [E|E]; [apply Ha; auto | contradiction].
      * apply IH; [intros E; apply Ha; auto | assumption].
Qed.

Lemma sortDesc_map_NoDup {A B} (f : A -> B) (key : A -> nat) (l : list A) :
  NoDup (map f l) -> NoDup (map f (sortDesc key l)).
Proof.
  unfold sortDesc. induction l as [|a l IH]; simpl; intros H; [constructor|].
  inversion H; subst. apply insertDesc_map_NoDup; [|auto].
  intros Hin. apply in_map_iff in Hin. destruct Hin as (x & E & Hx).
  apply (sortDesc_In key x l) in Hx. apply H2. rewrite <- E. apply in_map, Hx.
Qed.

(** *** Labels *)

Lemma last_occurrence (c : ascii) (s : string) :
  noChar c s \/ exists pre post, s = (pre ++ String c post)%string /\ noChar c post.
Proof.
  unfold noChar, chars. induction s as [|d s IH]; simpl.
  - left. intros [].
  - destruct IH as [IH | (pre & post & -> & Hpost)].
    + destruct (Ascii.eqb_spec d c) as [->|Hne].
      * right. exists "", s. split; [reflexivity | exact IH].
      * left. intros [E|E]; [congruence | auto].
    + right. exists (String d pre), post. split; [reflexivity | exact Hpost].
Qed.

Lemma includes_char (c : ascii) (s : string) :
  includes s (String c "") = true -> In c (chars s).
Proof.
  intros H. apply includes_inv in H. destruct H as (a & b & ->).
  rewrite chars_append. apply in_or_app. right. left. reflexivity.
Qed.

Lemma last_split (c : ascii) (pre post : string) :
  noChar c post -> last (split c (pre ++ String c post)) "" = post.
Proof.
  intros H. rewrite split_append_sep, (split_noChar H). apply last_last.
Qed.

Lemma length_dashesToSpaces (s : string) :
  String.length (dashesToSpaces s) = String.length s.
Proof. induction s; simpl; congruence. Qed.

Lemma length_capitalizeWords (s : string) :
  forall b, String.length (capitalizeWords b s) = String.length s.
Proof. induction s; intros b; simpl; [reflexivity | rewrite IHs; reflexivity]. Qed.

Lemma lower_upper (c : ascii) : lower_ascii (upper_ascii c) = lower_ascii c.
Proof. destruct c as [[|] [|] [|] [|] [|] [|] [|] [|]]; reflexivity. Qed.

Lemma fold_case_dash (c : ascii) (b : bool) :
  (let c1 := if Ascii.eqb c "-"%char then " "%char else c in
   let c2 := if isWordChar c1 && negb b then upper_ascii c1 else c1 in
   if Ascii.eqb (lower_ascii c2) "-"%char then " "%char else lower_ascii c2)
  = if Ascii.eqb (lower_ascii c) "-"%char then " "%char else lower_ascii c.
Proof.
  destruct b; destruct c as [[|] [|] [|] [|] [|] [|] [|] [|]]; reflexivity.
Qed.

Lemma label_folds_to_value (s : string) :
  forall b,
    dashesToSpaces (toLowerCase (capitalizeWords b (dashesToSpaces s)))
    = dashesToSpaces (toLowerCase s).
Proof.
  induction s as [|c s IH]; intros b; [reflexivity|].
  cbn [dashesToSpaces capitalizeWords toLowerCase]. rewrite IH. f_equal.
  apply fold_case_dash.
Qed.

End EnvFacts.

(* ================================================================== *)
(** ** Facts about sets in insertion order, lines and digits *)
(* ================================================================== *)

Module UiFacts.
Import JsString UtilsEnv StringFacts EnvFacts SystemPrompt ToolCallRenderer.

(** *** [Set] in insertion order *)

Lemma existsb_eqb_In (x : string) (s : list string) :
  existsb (String.eqb x) s = true <-> In x s.
Proof.
  rewrite existsb_exists. split.
  - intros (y & Hy & E). apply String.eqb_eq in E. subst. exact Hy.
  - intros H. exists x. split; [exact H | apply String.eqb_refl].
Qed.

Lemma setAdd_present (s : list string) (x : string) : In x s -> setAdd s x = s.
Proof. intros H. unfold setAdd. apply existsb_eqb_In in H. rewrite H. reflexivity. Qed.

Lemma setAdd_In (s : list string) (x y : string) :
  In y (setAdd s x) <-> In y s \/ y = x.
Proof.
  unfold setAdd. destruct (existsb (String.eqb x) s) eqn:E.
  - apply existsb_eqb_In in E. split; [auto | intros [H | ->]; assumption].
  - rewrite in_app_iff. cbn. intuition auto.
Qed.

Lemma setAdd_NoDup (s : list string) (x : string) : NoDup s -> NoDup (setAdd s x).
Proof.
  intros H. unfold setAdd. destruct (existsb (String.eqb x) s) eqn:E; [exact H|].
  apply NoDup_app; [exact H | repeat constructor; intros [] |].
  intros a Ha [<-|[]]. apply existsb_eqb_In in Ha. congruence.
Qed.

Lemma fold_setAdd_In (xs : list string) :
  forall (acc : list string) (y : string),
    In y (fold_left setAdd xs acc) <-> In y acc \/ In y xs.
Proof.
  induction xs as [|x xs IH]; intros acc y; cbn [fold_left].
  - cbn. tauto.
  - rewrite IH, setAdd_In. cbn. intuition auto.
Qed.

Lemma fold_setAdd_NoDup (xs : list string) :
  forall acc : list string, NoDup acc -> NoDup (fold_left setAdd xs acc).
Proof.
  induction xs as [|x xs IH]; intros acc H; cbn [fold_left]; [exact H|].
  apply IH, setAdd_NoDup, H.
Qed.

Lemma newSet_In (xs : list string) (y : string) : In y (newSet xs) <-> In y xs.
Proof. unfold newSet. rewrite fold_setAdd_In. cbn. tauto. Qed.

Lemma newSet_NoDup (xs : list string) : NoDup (newSet xs).
Proof. apply fold_setAdd_NoDup. constructor. Qed.

Lemma newSet_snoc (xs : list string) (x : string) :
  newSet (xs ++ [x]) = setAdd (newSet xs) x.
Proof. unfold newSet. rewrite fold_left_app. reflexivity. Qed.

Lemma newSet_nil_inv (xs : list string) : newSet xs = [] -> xs = [].
Proof.
  intros H. destruct xs as [|x xs]; [reflexivity|]. exfalso.
  assert (Hin : In x (newSet (x :: xs))) by (apply newSet_In; left; reflexivity).
  rewrite H in Hin. exact Hin.
Qed.

(** *** The template *)

Lemma exportTemplate_nonempty (formattedPaths : string) :
  exportTemplate formattedPaths <> "".
Proof. unfold exportTemplate. cbn [templateHead app join append newline]. discriminate. Qed.

Lemma join_around (sep : string) (l1 : list string) (y : string) (l2 : list string) :
  l1 <> [] -> l2 <> [] ->
  join sep (l1 ++ y :: l2)
  = (join sep l1 ++ (sep ++ y ++ sep) ++ join sep l2)%string.
Proof.
  intros H1 H2. rewrite join_app by (assumption || discriminate).
  destruct l2 as [|z l2]; [congruence|].
  change (join sep (y :: z :: l2)) with (y ++ sep ++ join sep (z :: l2))%string.
  rewrite !append_assoc. reflexivity.
Qed.

(** Every item of a joined list stands between two separators once
    the whole is put between separators. *)
Lemma joined_item (sep : string) (f : string -> string) (u : list string) (x : string) :
  In x u ->
  exists before after,
    (sep ++ join sep (map f u) ++ sep)%string
    = (before ++ (sep ++ f x ++ sep) ++ after)%string.
Proof.
  induction u as [|y u IH]; intros Hin; [contradiction|].
  destruct u as [|z u].
  - destruct Hin as [->|[]]. exists "", "". cbn [map join].
    rewrite append_nil_r. reflexivity.
  - change (join sep (map f (y :: z :: u)))
      with (f y ++ sep ++ join sep (map f (z :: u)))%string.
    destruct Hin as [->|Hin].
    + exists "", (join sep (map f (z :: u)) ++ sep)%string.
      change ("" ++ (sep ++ f x ++ sep) ++ join sep (map f (z :: u)) ++ sep)%string
        with ((sep ++ f x ++ sep) ++ join sep (map f (z :: u)) ++ sep)%string.
      rewrite !append_assoc. reflexivity.
    + destruct (IH Hin) as (before & after & E).
      exists (sep ++ f y ++ before)%string, after.
      rewrite !append_assoc. rewrite !append_assoc in E.
      do 2 f_equal. exact E.
Qed.

(** *** Lists *)

Lemma sliceLastTwo_spec {A} (l : list A) :
  2 <= List.length l ->
  exists pre a b, l = pre ++ [a; b] /\ sliceLastTwo l = [a; b].
Proof.
  intros Hlen. destruct (rev l) as [|b [|a r]] eqn:E.
  - apply (f_equal (@List.length A)) in E. rewrite length_rev in E. simpl in E. lia.
  - apply (f_equal (@List.length A)) in E. rewrite length_rev in E. simpl in E. lia.
  - assert (El : l = rev r ++ [a; b]).
    { rewrite <- (rev_involutive l), E. cbn [rev]. rewrite <- app_assoc. reflexivity. }
    exists (rev r), a, b. split; [exact El|].
    unfold sliceLastTwo. rewrite El, length_app. cbn [List.length].
    replace (List.length (rev r) + 2 - 2) with (List.length (rev r)) by lia.
    rewrite skipn_app, skipn_all, Nat.sub_diag. reflexivity.
Qed.

(** *** Digits *)

Lemma uint_noChar_lineFeed (d : Decimal.uint) :
  noChar lineFeed (DecimalString.NilEmpty.string_of_uint d).
Proof.
  unfold noChar, chars. induction d; cbn; intros H; try contradiction;
    destruct H as [E|H]; try discriminate; auto.
Qed.

Lemma decimal_noChar_lineFeed (n : nat) : noChar lineFeed (decimal n).
Proof. apply uint_noChar_lineFeed. Qed.

Lemma substring_all (n : nat) (s : string) :
  String.length s <= n -> substring 0 n s = s.
Proof.
  revert n; induction s as [|c s IH]; intros n H.
  - destruct n; reflexivity.
  - destruct n; simpl in *; [lia|]. rewrite IH by lia. reflexivity.
Qed.

(** *** Lower case and inclusion *)

Lemma toLowerCase_append (a b : string) :
  ToolCallRenderer.toLowerCase (a ++ b)
  = (ToolCallRenderer.toLowerCase a ++ ToolCallRenderer.toLowerCase b)%string.
Proof. induction a as [|c a IH]; simpl; [reflexivity | rewrite IH; reflexivity]. Qed.

Lemma includes_wrap (a s b sub : string) :
  includes s sub = true -> includes (a ++ s ++ b) sub = true.
Proof.
  intros H. apply includes_inv in H. destruct H as (x & y & ->).
  rewrite !append_assoc. rewrite <- (append_assoc a x).
  apply includes_append.
Qed.

End UiFacts.

(* ================================================================== *)
(** ** The repository's tests, replayed on the model *)
(* ================================================================== *)

Module RepositoryTests.
Import JsString NodePath Types Approval Session BashPaths Mediator PathSpec Utils.

(** *** tests/utils.test.ts *)

Example export_paths_empty :
  isPathInAllowedExportPaths plainEnv "/tmp/out.md" [] "/vault" = Some false.
Proof. reflexivity. Qed.

Example export_paths_within :
  isPathInAllowedExportPaths plainEnv "/tmp/out.md" ["/tmp"] "/vault" = Some true
  /\ isPathInAllowedExportPaths plainEnv "/var/out.md" ["/tmp"] "/vault" = Some false.
Proof. split; reflexivity. Qed.

Example export_paths_tilde :
  isPathInAllowedExportPaths plainEnv "~/Desktop/out.md" ["~/Desktop"] "/vault" = Some true
  /\ isPathInAllowedExportPaths plainEnv "~/Downloads/out.md" ["~/Desktop"] "/vault"
     = Some false.
Proof. split; reflexivity. Qed.

Example vault_relative_and_traversal :
  isPathWithinVault plainEnv "notes/a.md" "/vault" = Some true
  /\ isPathWithinVault plainEnv "../secrets.txt" "/vault" = Some false.
Proof. split; reflexivity. Qed.

Example vault_absolute_paths :
  isPathWithinVault plainEnv "/vault/notes/a.md" "/vault" = Some true
  /\ isPathWithinVault plainEnv "/etc/passwd" "/vault" = Some false.
Proof. split; reflexivity. Qed.

Example vault_tilde_is_expanded :
  isPathWithinVault plainEnv "~/vault/notes/a.md" "/vault" = Some false.
Proof. reflexivity. Qed.

Example vault_exact_path :
  isPathWithinVault plainEnv "/vault" "/vault" = Some true
  /\ isPathWithinVault plainEnv "." "/vault" = Some true.
Proof. split; reflexivity. Qed.

Example vault_fallback_when_realpath_throws :
  isPathWithinVault throwingEnv "nonexistent/path.md" "/vault" = Some true.
Proof. reflexivity. Qed.

Example vault_symlink_escape :
  resolveRealPath symlinkEnv "/vault/export/newfile.txt" = Some "/tmp/export/newfile.txt"
  /\ isPathWithinVault symlinkEnv "export/newfile.txt" "/vault" = Some false.
Proof. split; reflexivity. Qed.

(** The suffix is joined back in its original order. *)
Example suffix_order :
  resolveRealPath symlinkEnv "/vault/export/a/b/c.txt" = Some "/tmp/export/a/b/c.txt".
Proof. reflexivity. Qed.

(** *** tests/ClaudianService.test.ts: blocklist *)

Example blocks_dangerous_commands :
  isBlockedCiting (mediateInTest [] "Bash" [("command", "rm -rf /")]) "rm -rf" = true
  /\ isBlockedCiting (mediateInTest [] "Bash" [("command", "chmod 777 /etc/passwd")])
                     "chmod 777" = true
  /\ mediateInTest [] "Bash" [("command", "ls -la")] = Approved.
Proof. repeat split; vm_compute; reflexivity. Qed.

Example blocklist_regex_patterns :
  Blocklist.isCommandBlocked MiniRegExp.engine "rm   -rf /home"
                             ["rm\s+-rf"; "chmod\s+7{3}"] = true
  /\ Blocklist.isCommandBlocked MiniRegExp.engine "something with [invalid regex inside"
                                ["[invalid regex"] = true.
Proof. split; vm_compute; reflexivity. Qed.

(** *** tests/ClaudianService.test.ts: vault restriction *)

Example read_outside_and_inside :
  isBlockedCiting (mediateInTest [] "Read" [("file_path", "/etc/passwd")])
                  "outside the vault" = true
  /\ mediateInTest [] "Read" [("file_path", "/test/vault/path/notes/test.md")] = Approved.
Proof. split; vm_compute; reflexivity. Qed.

Example write_outside_and_export :
  isBlockedCiting (mediateInTest [] "Write" [("file_path", "/tmp/malicious.sh")])
                  "outside the vault" = true
  /\ mediateInTest ["/tmp"] "Write" [("file_path", "/tmp/export.md")] = Approved.
Proof. split; vm_compute; reflexivity. Qed.

Example bash_outside_vault :
  isBlockedCiting (mediateInTest [] "Bash" [("command", "cat /etc/passwd")])
                  "outside the vault" = true.
Proof. vm_compute; reflexivity. Qed.

Example bash_export_by_redirection_and_option :
  mediateInTest ["/tmp"] "Bash" [("command", "cat ./notes/file.md > /tmp/out.md")]
  = Approved
  /\ mediateInTest ["/tmp"] "Bash"
                   [("command", "pandoc ./notes/file.md -o /tmp/out.docx")] = Approved.
Proof. split; vm_compute; reflexivity. Qed.

Example bash_reading_export_is_write_only :
  isBlockedCiting (mediateInTest ["/tmp"] "Bash" [("command", "cat /tmp/out.md")])
                  "write-only" = true
  /\ isBlockedCiting (mediateInTest ["/tmp"] "Bash"
                                    [("command", "cp /tmp/out.md ./notes/out.md")])
                     "write-only" = true.
Proof. split; vm_compute; reflexivity. Qed.

Example path_traversal_is_blocked :
  isBlockedCiting (mediateInTest [] "Read"
                     [("file_path", "/test/vault/path/../../../etc/passwd")])
                  "outside the vault" = true.
Proof. vm_compute; reflexivity. Qed.

Example search_outside_vault :
  isBlockedCiting (mediateInTest [] "Glob" [("pattern", "*.md"); ("path", "/etc")])
                  "outside the vault" = true
  /\ isBlockedCiting (mediateInTest [] "Glob" [("pattern", "../**/*.md")])
                     "outside the vault" = true
  /\ isBlockedCiting (mediateInTest [] "Grep" [("pattern", "/etc/passwd")])
                     "outside the vault" = true.
Proof. repeat split; vm_compute; reflexivity. Qed.

Example tilde_notebook_listing_and_relative :
  isBlockedCiting (mediateInTest [] "Bash" [("command", "cat ~/.bashrc")])
                  "outside the vault" = true
  /\ isBlockedCiting (mediateInTest [] "NotebookEdit"
                        [("notebook_path", "/etc/passwd"); ("file_path", "/etc/passwd")])
                     "outside the vault" = true
  /\ isBlockedCiting (mediateInTest [] "LS" [("path", "/etc")]) "outside the vault" = true
  /\ isBlockedCiting (mediateInTest [] "Bash" [("command", "cat ../secrets.txt")])
                     "outside the vault" = true
  /\ isBlockedCiting (mediateInTest [] "Edit" [("file_path", "/etc/hosts")])
                     "outside the vault" = true
  /\ mediateInTest [] "Bash" [("command", "cat /test/vault/path/notes/file.md")]
     = Approved.
Proof. repeat split; vm_compute; reflexivity. Qed.

Example other_tools_have_no_path :
  toolPathTokens "WebSearch" [] = []
  /\ mediateInTest [] "WebSearch" [] = Approved.
Proof. split; reflexivity. Qed.

Example quoted_and_relative_operands :
  map path (extractBashPaths
              ("cat " ++ quoteMark ++ "../secret.txt" ++ quoteMark
               ++ " ./notes/file.md ~/vault/config"))
  = ["../secret.txt"; "./notes/file.md"; "~/vault/config"].
Proof. vm_compute; reflexivity. Qed.

(** A copy whose destination is a bare name, and one without a
    destination: the source is read. *)
Example copy_sources_are_read :
  isBlockedCiting (mediateInTest ["/tmp"] "Bash" [("command", "cp /tmp/out.md notes")])
                  "write-only" = true
  /\ isBlockedCiting (mediateInTest ["/tmp"] "Bash" [("command", "cp /tmp/a.md")])
                     "write-only" = true
  /\ mediateInTest ["/tmp"] "Bash" [("command", "cp ./notes/a.md /tmp/a.md")] = Approved.
Proof. repeat split; vm_compute; reflexivity. Qed.

(** The extractor on the two command lines of the specification. *)
Example extractor_examples :
  extractBashPaths "cat ./notes/file.md > /tmp/out.md"
  = [mkPathToken "./notes/file.md" "./notes/file.md" ReadIntent;
     mkPathToken "/tmp/out.md" "/tmp/out.md" WriteIntent]
  /\ extractBashPaths "cp /tmp/out.md ./notes/out.md"
     = [mkPathToken "/tmp/out.md" "/tmp/out.md" ReadIntent;
        mkPathToken "./notes/out.md" "./notes/out.md" WriteIntent].
Proof. split; vm_compute; reflexivity. Qed.

(** *** tests/ClaudianService.test.ts: approval memory *)

Example bash_commands_match_exactly :
  let svc := approve freshService "Bash" [("command", "ls -la")] ScopeSession 0 in
  isApproved svc "Bash" [("command", "ls -la")] = true
  /\ isApproved svc "Bash" [("command", "ls -l")] = false.
Proof. split; reflexivity. Qed.

Example permanent_approval_is_stored :
  approvedActions
    (settings (store (approve freshService "Read" [("file_path", "/test/file.md")]
                              ScopeAlways 7)))
  = [mkApprovedAction "Read" "/test/file.md" 7 ScopeAlways].
Proof. reflexivity. Qed.

Example file_paths_match_by_prefix :
  let svc := mkService None
               (mkStore [] (mkSettings true [] Normal
                              [mkApprovedAction "Read" "/test/vault/" 0 ScopeAlways] [])
                        0) in
  isApproved svc "Read" [("file_path", "/test/vault/notes/file.md")] = true
  /\ isApproved svc "Read" [("file_path", "/other/path/file.md")] = false.
Proof. split; reflexivity. Qed.

Example action_patterns :
  getActionPattern "Bash" [("command", "git status")] = "git status"
  /\ getActionPattern "Read" [("file_path", "/test/file.md")] = "/test/file.md"
  /\ getActionPattern "Write" [("file_path", "/test/output.md")] = "/test/output.md"
  /\ getActionPattern "Edit" [("file_path", "/test/edit.md")] = "/test/edit.md"
  /\ getActionPattern "Glob" [("pattern", "**/*.md")] = "**/*.md"
  /\ getActionPattern "Grep" [("pattern", "TODO")] = "TODO".
Proof. repeat split; reflexivity. Qed.

Example notebook_and_default_patterns :
  getActionPattern "NotebookEdit" [("notebook_path", "nb.ipynb")] = "nb.ipynb"
  /\ includes (getActionPattern "Other" [("foo", "bar")]) "foo" = true.
Proof. split; reflexivity. Qed.

(** *** tests/ClaudianService.test.ts: session expiration *)

Example session_errors_detected :
  isSessionExpiredError "Session expired" = true
  /\ isSessionExpiredError "session not found" = true
  /\ isSessionExpiredError "invalid session" = true
  /\ isSessionExpiredError "Resume failed" = true
  /\ isSessionExpiredError "Network error" = false
  /\ isSessionExpiredError "Rate limited" = false
  /\ isSessionExpiredError "Invalid API key" = false.
Proof. repeat split; reflexivity. Qed.

Example context_from_history :
  let context := buildContextFromHistory 100 sampleHistory in
  includes context "User: First question" = true
  /\ includes context "Assistant: Answer" = true
  /\ includes context "[Tool Read status=completed]" = true
  /\ includes context "file content" = true
  /\ includes context "Context files: [note.md]" = true.
Proof. repeat split; vm_compute; reflexivity. Qed.

Example short_results_are_kept :
  truncateToolResultForContext "Short result" 100 = "Short result".
Proof. reflexivity. Qed.

Example recovery_flow :
  let (chunks, final) :=
    query expiredOnce 100 "Follow up" sampleHistory (mkMachine staleService []) in
  map callPrompt (made final)
  = ["Follow up"; buildContextFromHistory 100 sampleHistory]
  /\ In (TextChunk "Recovered") chunks
  /\ getSessionId (service final) = None.
Proof. vm_compute. auto. Qed.

Example retry_failure_is_reported :
  let (chunks, final) :=
    query alwaysExpired 100 "Hi" [mkMessage "u1" User "Hi" [] None]
          (mkMachine freshService []) in
  In (ErrorChunk "Session expired") chunks /\ List.length (made final) = 2.
Proof. vm_compute. auto. Qed.

Example other_failures_are_reported :
  fst (query (fun _ _ => mkRun [] (Some "Network down")) 100 "Hi" []
             (mkMachine freshService []))
  = [ErrorChunk "Network down"].
Proof. reflexivity. Qed.

Example empty_turns_are_skipped :
  buildContextFromHistory 100
    [ mkMessage "sys" (OtherRole "system") "ignore" [] None;
      mkMessage "a1" Assistant "" [] None;
      mkMessage "u1" User "Hello" [] None ]
  = "User: Hello".
Proof. reflexivity. Qed.

Example tool_call_without_result :
  formatToolCallForContext 100 (mkToolCall "t" "Read" [] Completed None)
  = "[Tool Read status=completed]".
Proof. reflexivity. Qed.

End RepositoryTests.

(* ================================================================== *)
(** ** The repository's tests for the environment helpers, replayed *)
(* ================================================================== *)

Module RepositoryTestsEnv.
Import JsString JsObject UtilsEnv SystemPrompt.

(** *** tests/utils.test.ts: parseEnvironmentVariables *)

Example parse_simple_pairs :
  parseEnvironmentVariables ("API_KEY=abc123" ++ newline ++ "DEBUG=true")
  = [("API_KEY", "abc123"); ("DEBUG", "true")].
Proof. reflexivity. Qed.

Example parse_skips_empty_lines :
  parseEnvironmentVariables
    ("KEY1=value1" ++ newline ++ newline ++ "KEY2=value2" ++ newline ++ newline)
  = [("KEY1", "value1"); ("KEY2", "value2")].
Proof. reflexivity. Qed.

Example parse_skips_comments :
  parseEnvironmentVariables
    ("# This is a comment" ++ newline ++ "KEY=value" ++ newline ++ "# Another comment")
  = [("KEY", "value")].
Proof. reflexivity. Qed.

Example parse_value_with_eq_signs :
  parseEnvironmentVariables "URL=https://example.com?foo=bar&baz=qux"
  = [("URL", "https://example.com?foo=bar&baz=qux")].
Proof. reflexivity. Qed.

Example parse_trims_key_and_value :
  parseEnvironmentVariables "  KEY  =  value  " = [("KEY", "value")].
Proof. reflexivity. Qed.

Example parse_skips_lines_without_eq :
  parseEnvironmentVariables ("VALID=value" ++ newline ++ "INVALID_LINE" ++ newline ++ "ANOTHER=test")
  = [("VALID", "value"); ("ANOTHER", "test")].
Proof. reflexivity. Qed.

Example parse_skips_lines_without_key :
  parseEnvironmentVariables ("=value" ++ newline ++ "KEY=valid" ++ newline ++ " =also-no-key")
  = [("KEY", "valid")].
Proof. reflexivity. Qed.

Example parse_empty_inputs :
  parseEnvironmentVariables "" = []
  /\ parseEnvironmentVariables "   " = []
  /\ parseEnvironmentVariables (newline ++ newline) = [].
Proof. repeat split; reflexivity. Qed.

Example parse_value_with_spaces :
  parseEnvironmentVariables "MESSAGE=Hello World" = [("MESSAGE", "Hello World")].
Proof. reflexivity. Qed.

(** *** tests/utils.test.ts: getModelsFromEnvironment *)

Example models_from_anthropic_model :
  getModelsFromEnvironment [("ANTHROPIC_MODEL", "claude-3-opus")]
  = [mkOption "claude-3-opus" "Claude 3 Opus" "Custom model (model)"].
Proof. reflexivity. Qed.

Example models_from_default_variables :
  map value (getModelsFromEnvironment
               [("ANTHROPIC_DEFAULT_OPUS_MODEL", "custom-opus");
                ("ANTHROPIC_DEFAULT_SONNET_MODEL", "custom-sonnet");
                ("ANTHROPIC_DEFAULT_HAIKU_MODEL", "custom-haiku")])
  = ["custom-opus"; "custom-sonnet"; "custom-haiku"].
Proof. reflexivity. Qed.

Example models_deduplicated :
  getModelsFromEnvironment
    [("ANTHROPIC_MODEL", "same-model"); ("ANTHROPIC_DEFAULT_OPUS_MODEL", "same-model")]
  = [mkOption "same-model" "Same Model" "Custom model (model, opus)"].
Proof. reflexivity. Qed.

Example models_none_set :
  getModelsFromEnvironment [("OTHER_VAR", "value")] = [].
Proof. reflexivity. Qed.

Example models_label_after_slash :
  map optionLabel (getModelsFromEnvironment [("ANTHROPIC_MODEL", "anthropic/claude-3-opus")])
  = ["claude-3-opus"].
Proof. reflexivity. Qed.

Example models_label_trailing_slash :
  map optionLabel (getModelsFromEnvironment [("ANTHROPIC_MODEL", "trailing-slash/")])
  = ["trailing-slash/"].
Proof. reflexivity. Qed.

Example models_sorted_by_priority :
  map value (getModelsFromEnvironment
               [("ANTHROPIC_DEFAULT_HAIKU_MODEL", "haiku-model");
                ("ANTHROPIC_MODEL", "main-model");
                ("ANTHROPIC_DEFAULT_SONNET_MODEL", "sonnet-model")])
  = ["main-model"; "sonnet-model"; "haiku-model"].
Proof. reflexivity. Qed.

(** *** tests/utils.test.ts: getCurrentModelFromEnvironment *)

Example current_model_priorities :
  getCurrentModelFromEnvironment
    [("ANTHROPIC_MODEL", "main-model"); ("ANTHROPIC_DEFAULT_OPUS_MODEL", "opus-model")]
  = Some "main-model"
  /\ getCurrentModelFromEnvironment
       [("ANTHROPIC_DEFAULT_OPUS_MODEL", "opus-model");
        ("ANTHROPIC_DEFAULT_SONNET_MODEL", "sonnet-model")]
     = Some "opus-model"
  /\ getCurrentModelFromEnvironment
       [("ANTHROPIC_DEFAULT_SONNET_MODEL", "sonnet-model");
        ("ANTHROPIC_DEFAULT_HAIKU_MODEL", "haiku-model")]
     = Some "sonnet-model"
  /\ getCurrentModelFromEnvironment [("ANTHROPIC_DEFAULT_HAIKU_MODEL", "haiku-model")]
     = Some "haiku-model".
Proof. repeat split; reflexivity. Qed.

Example current_model_none :
  getCurrentModelFromEnvironment [("OTHER_VAR", "value")] = None
  /\ getCurrentModelFromEnvironment [] = None.
Proof. split; reflexivity. Qed.

(** *** tests/utils.test.ts: findClaudeCLIPath *)

Example cli_path_first_match :
  findClaudeCLIPath
    (mkEnv (fun _ => None) (fun p => (p =? "/home/test/.local/bin/claude")%string)
           "/home/test" "/")
  = Some "/home/test/.local/bin/claude".
Proof. reflexivity. Qed.

Example cli_path_not_found :
  findClaudeCLIPath (mkEnv (fun _ => None) (fun _ => false) "/home/test" "/") = None.
Proof. reflexivity. Qed.

End RepositoryTestsEnv.

(* ================================================================== *)
(** ** Path containment: the verified statements *)
(* ================================================================== *)

Module UtilsClaims.
Import JsString NodePath StringFacts PathSpec PathFacts Utils WalkFacts LexicalFacts
       ContainmentSpec ContainmentFacts Fixtures.

Ltac plain_segments :=
  repeat constructor; unfold plainSeg; repeat split; try discriminate;
  cbn; intuition discriminate.

(** C1 (amended).  [isPathWithinVault] compares canonical forms, and
    where these are made of segments and the canonical vault root is
    not ["/"] it returns true exactly when the candidate's segments
    begin with the root's: the canonical candidate is the canonical
    root or a descendant of it bounded by the separator.  Where no
    symbolic link is involved the canonical forms are the resolved
    paths, and ["/vault-evil/x"], which begins with ["/vault"] as a
    string, is not within ["/vault"]. *)
Theorem isPathWithinVault_separator_bounded (env : Env) (c v : string) :
  (forall x root,
      Forall plainSeg x -> Forall plainSeg root -> root <> [] ->
      canonical env (candidateForm env v c) (render x) ->
      canonical env v (render root) ->
      exists b, isPathWithinVault env c v = Some b /\ (b = true <-> withinSegs x root))
  /\ (symlinkFree env -> rootSegs (cwd env) v <> [] ->
      exists b, isPathWithinVault env c v = Some b /\
                (b = true <->
                 withinSegs (rootSegs (cwd env) (candidateForm env v c))
                            (rootSegs (cwd env) v)))
  /\ startsWith "/vault-evil/x" "/vault" = true
  /\ (symlinkFree env -> isPathWithinVault env "/vault-evil/x" "/vault" = Some false).
Proof.
  split; [|split; [|split; [reflexivity|]]].
  - intros x root Hx Hroot Hne Hc Hv.
    apply canonical_resolveRealPath in Hc, Hv.
    exists (equalsOrUnder (render x) (render root)).
    split; [apply isPathWithinVault_resolved; assumption|].
    apply equalsOrUnder_segments; assumption.
  - intros Hfree Hne.
    exists (equalsOrUnder (render (rootSegs (cwd env) (candidateForm env v c)))
                          (render (rootSegs (cwd env) v))).
    split.
    + rewrite isPathWithinVault_lexical, <- candidateForm_absoluteIn by assumption.
      rewrite !resolve_one by apply Hfree. reflexivity.
    + apply equalsOrUnder_segments; [apply rootSegs_plain | apply rootSegs_plain | assumption].
  - intros Hfree. rewrite isPathWithinVault_lexical by assumption. reflexivity.
Qed.

Lemma isPathWithinVault_separator_bounded_witness :
  (exists b, isPathWithinVault evilLinkEnv "/vault-evil/x" "/vault" = Some b /\
             (b = true <-> withinSegs ["vault"; "inner"; "x"] ["vault"]))
  /\ (exists b, isPathWithinVault plainEnv "/vault/notes/a.md" "/vault" = Some b /\
                (b = true <->
                 withinSegs (rootSegs "/" (candidateForm plainEnv "/vault" "/vault/notes/a.md"))
                            (rootSegs "/" "/vault")))
  /\ isPathWithinVault plainEnv "/vault-evil/x" "/vault" = Some false.
Proof.
  pose proof (isPathWithinVault_separator_bounded evilLinkEnv "/vault-evil/x" "/vault")
    as (Hgen & _).
  pose proof (isPathWithinVault_separator_bounded plainEnv "/vault/notes/a.md" "/vault")
    as (_ & Hseg & _).
  pose proof (isPathWithinVault_separator_bounded plainEnv "" "")
    as (_ & _ & _ & Hevil).
  split; [|split].
  - apply Hgen.
    + plain_segments.
    + plain_segments.
    + discriminate.
    + left. exists 1, "/vault/inner". split; [|repeat split].
      intros j Hj. assert (j = 0) as -> by lia. right. reflexivity.
    + reflexivity.
  - apply Hseg; [exact plainEnv_symlinkFree | discriminate].
  - apply Hevil. exact plainEnv_symlinkFree.
Defined.

(** C1 as stated fails: the candidate is canonicalised before it is
    compared, so where [/vault-evil] is a symbolic link into the vault
    ["/vault-evil/x"] is within ["/vault"]; and with the vault at ["/"]
    the descendant ["/etc/passwd"] is compared against the prefix
    ["//"]. *)
Lemma isPathWithinVault_prefix_counterexample :
  isPathWithinVault evilLinkEnv "/vault-evil/x" "/vault" = Some true
  /\ isPathWithinVault plainEnv "/etc/passwd" "/" = Some false.
Proof. split; reflexivity. Qed.

(** C6.  With an empty list of export roots the export check is false
    for every candidate and every vault root. *)
Theorem isPathInAllowedExportPaths_empty (env : Env) (candidate vaultRoot : string) :
  isPathInAllowedExportPaths env candidate [] vaultRoot = Some false.
Proof. reflexivity. Qed.

Lemma canonical_lexical (env : Env) (p : string) :
  symlinkFree env -> canonical env p (render (rootSegs (cwd env) p)).
Proof.
  intros Hfree. apply canonical_resolveRealPath.
  rewrite resolveRealPath_lexical by assumption.
  rewrite resolve_one by apply Hfree. reflexivity.
Qed.

(** C10 (amended).  [isPathInAllowedExportPaths] compares canonical
    forms as the vault check does: where these are made of segments
    and no canonical export root is ["/"], it returns true exactly when
    the candidate's segments begin with those of some export root,
    whose leading [~/] stands for the home directory.  Where no
    symbolic link is involved the canonical forms are the resolved
    paths, ["/tmp-evil/x"] is not contained in the export root
    ["/tmp"], and with the home directory at ["/home/test"] the
    candidate ["/home/test/Desktop/out.md"] is contained in the export
    root ["~/Desktop"]. *)
Theorem isPathInAllowedExportPaths_separator_bounded
  (env : Env) (c : string) (exports : list string) (v : string) :
  (forall x roots,
      Forall plainSeg x ->
      Forall2 (fun e r => Forall plainSeg r /\ r <> [] /\
                          canonical env (tildeExpanded env e) (render r))
              exports roots ->
      canonical env (candidateForm env v c) (render x) ->
      exists b, isPathInAllowedExportPaths env c exports v = Some b /\
                (b = true <-> exists r, In r roots /\ withinSegs x r))
  /\ (symlinkFree env ->
      Forall (fun e => rootSegs (cwd env) (tildeExpanded env e) <> []) exports ->
      exists b, isPathInAllowedExportPaths env c exports v = Some b /\
                (b = true <->
                 exists e, In e exports /\
                           withinSegs (rootSegs (cwd env) (candidateForm env v c))
                                      (rootSegs (cwd env) (tildeExpanded env e))))
  /\ (symlinkFree env ->
      isPathInAllowedExportPaths env "/tmp-evil/x" ["/tmp"] v = Some false)
  /\ (symlinkFree env -> homedir env = "/home/test" ->
      isPathInAllowedExportPaths env "/home/test/Desktop/out.md" ["~/Desktop"] v
      = Some true).
Proof.
  assert (Hgen : forall x roots,
      Forall plainSeg x ->
      Forall2 (fun e r => Forall plainSeg r /\ r <> [] /\
                          canonical env (tildeExpanded env e) (render r))
              exports roots ->
      canonical env (candidateForm env v c) (render x) ->
      exists b, isPathInAllowedExportPaths env c exports v = Some b /\
                (b = true <-> exists r, In r roots /\ withinSegs x r)).
  { intros x roots Hx Hroots Hc.
    destruct (isPathInAllowedExportPaths_total env c v exports) as [b Hb].
    exists b. split; [exact Hb|].
    apply canonical_resolveRealPath in Hc.
    rewrite <- (@exportLoop_segments env x Hx exports roots).
    - rewrite <- (@isPathInAllowedExportPaths_resolved env c v (render x) exports Hc).
      rewrite Hb. split; [intros ->; reflexivity | intros H; injection H as ->; reflexivity].
    - clear Hb. induction Hroots as [|e r es rs (H1 & H2 & H3) _ IH]; constructor; [|exact IH].
      split; [exact H1|]. split; [exact H2|]. apply canonical_resolveRealPath, H3. }
  split; [exact Hgen|]. split; [|split].
  - intros Hfree Hne.
    destruct (Hgen (rootSegs (cwd env) (candidateForm env v c))
                   (map (fun e => rootSegs (cwd env) (tildeExpanded env e)) exports))
      as (b & Hb & Hiff).
    + apply rootSegs_plain.
    + clear Hgen. induction Hne as [|e es He _ IH]; cbn [map]; constructor; [|exact IH].
      split; [apply rootSegs_plain|]. split; [exact He|].
      apply canonical_lexical, Hfree.
    + apply canonical_lexical, Hfree.
    + exists b. split; [exact Hb|]. rewrite Hiff. split.
      * intros (r & Hin & Hw). apply in_map_iff in Hin. destruct Hin as (e & <- & Hin).
        exists e. split; assumption.
      * intros (e & Hin & Hw). exists (rootSegs (cwd env) (tildeExpanded env e)).
        split; [|exact Hw]. apply in_map_iff. exists e. split; [reflexivity | exact Hin].
  - intros Hfree. unfold isPathInAllowedExportPaths. cbn [List.length Nat.eqb exportLoop].
    rewrite !resolveRealPath_lexical by assumption. reflexivity.
  - intros Hfree Hhome. unfold isPathInAllowedExportPaths.
    cbn [List.length Nat.eqb exportLoop].
    rewrite !resolveRealPath_lexical by assumption.
    rewrite <- !tildeExpanded_expandHome. cbn [tildeExpanded Ascii.eqb Bool.eqb andb].
    rewrite Hhome. reflexivity.
Qed.

Lemma isPathInAllowedExportPaths_separator_bounded_witness :
  (exists b, isPathInAllowedExportPaths evilLinkEnv "/tmp-evil/x" ["/vault"; "/tmp"] "/vault"
             = Some b /\
             (b = true <->
              exists r, In r [["vault"]; ["tmp"]] /\ withinSegs ["tmp"; "inner"; "x"] r))
  /\ (exists b, isPathInAllowedExportPaths plainEnv "out/a.md" ["~/Desktop"; "/tmp"] "/vault"
                = Some b /\
                (b = true <->
                 exists e, In e ["~/Desktop"; "/tmp"] /\
                           withinSegs (rootSegs "/" (candidateForm plainEnv "/vault" "out/a.md"))
                                      (rootSegs "/" (tildeExpanded plainEnv e))))
  /\ isPathInAllowedExportPaths plainEnv "/tmp-evil/x" ["/tmp"] "/vault" = Some false
  /\ isPathInAllowedExportPaths plainEnv "/home/test/Desktop/out.md" ["~/Desktop"] "/vault"
     = Some true.
Proof.
  pose proof (isPathInAllowedExportPaths_separator_bounded
                evilLinkEnv "/tmp-evil/x" ["/vault"; "/tmp"] "/vault") as (Hgen & _).
  pose proof (isPathInAllowedExportPaths_separator_bounded
                plainEnv "out/a.md" ["~/Desktop"; "/tmp"] "/vault") as (_ & Hseg & _).
  pose proof (isPathInAllowedExportPaths_separator_bounded plainEnv "" [] "/vault")
    as (_ & _ & Hevil & Hhome).
  split; [|split; [|split]].
  - apply Hgen.
    + plain_segments.
    + repeat constructor; try discriminate; plain_segments.
    + left. exists 1, "/tmp/inner". split; [|repeat split].
      intros j Hj. assert (j = 0) as -> by lia. right. reflexivity.
  - apply Hseg; [exact plainEnv_symlinkFree|].
    repeat constructor; discriminate.
  - apply Hevil. exact plainEnv_symlinkFree.
  - apply Hhome; [exact plainEnv_symlinkFree | reflexivity].
Defined.

(** C10 as stated fails: the candidate is canonicalised before it is
    compared, so where [/tmp-evil] is a symbolic link into [/tmp] the
    candidate ["/tmp-evil/x"] is contained in the export root
    ["/tmp"]; and the export root ["/"] does not contain its
    descendant ["/etc/passwd"], which is compared against the prefix
    ["//"]. *)
Lemma isPathInAllowedExportPaths_prefix_counterexample :
  isPathInAllowedExportPaths evilLinkEnv "/tmp-evil/x" ["/tmp"] "/vault" = Some true
  /\ isPathInAllowedExportPaths plainEnv "/etc/passwd" ["/"] "/vault" = Some false.
Proof. split; reflexivity. Qed.

Lemma resolveRealPath_without_cwd (env : Env) (cwdRemoved : bool) (p : string) :
  realpathFn env p <> None \/ isAbsolute p = true \/ cwdRemoved = false ->
  UtilsCwd.resolveRealPath env cwdRemoved p
  = option_map UtilsCwd.Returns (resolveRealPath env p).
Proof.
  intros [H|[H|H]].
  - unfold UtilsCwd.resolveRealPath, resolveRealPath.
    destruct (realpathFn env p); [reflexivity | congruence].
  - unfold UtilsCwd.resolveRealPath, resolveRealPath.
    destruct (realpathFn env p); [reflexivity|].
    rewrite resolve_absolute by assumption.
    destruct (walkUp env _ _ _ _); reflexivity.
  - subst cwdRemoved. apply resolveRealPath_available.
Qed.

(** C5 (amended).  [resolveRealPath] returns a path and does not throw
    for every absolute input, for every input on which [realpathFn]
    succeeds, and for every input while the working directory is
    there.  What it returns is the canonical form: the answer of
    [realpathFn] when that succeeds on the input; otherwise the
    canonical form of the nearest ancestor of the absolute form that
    exists and canonicalises, with the base names passed on the way up
    joined back, topmost first; and the absolute form itself when no
    ancestor qualifies.  For a relative input on which [realpathFn]
    fails, once the working directory has been removed the call
    throws. *)
Theorem resolveRealPath_returns_canonical_form
  (env : Env) (cwdRemoved : bool) (p : string) :
  (realpathFn env p <> None \/ isAbsolute p = true \/ cwdRemoved = false ->
   exists r, UtilsCwd.resolveRealPath env cwdRemoved p = Some (UtilsCwd.Returns r)
             /\ canonical env p r)
  /\ (realpathFn env p = None -> isAbsolute p = false -> cwdRemoved = true ->
      UtilsCwd.resolveRealPath env cwdRemoved p = Some UtilsCwd.Throws)
  /\ UtilsCwd.resolveRealPath env false p
     = option_map UtilsCwd.Returns (resolveRealPath env p).
Proof.
  split; [|split].
  - intros H. rewrite resolveRealPath_without_cwd by assumption.
    destruct (resolveRealPath_canonical env p) as (r & Hr & Hc).
    exists r. rewrite Hr. split; [reflexivity | exact Hc].
  - intros Hreal Hrel ->. unfold UtilsCwd.resolveRealPath.
    rewrite Hreal, resolve_throws by assumption. reflexivity.
  - apply resolveRealPath_available.
Qed.

Lemma resolveRealPath_returns_canonical_form_witness :
  (exists r, UtilsCwd.resolveRealPath sparseDiskEnv true "/vault/new/a.md"
             = Some (UtilsCwd.Returns r)
             /\ canonical sparseDiskEnv "/vault/new/a.md" r)
  /\ UtilsCwd.resolveRealPath sparseDiskEnv true "new/a.md" = Some UtilsCwd.Throws.
Proof.
  pose proof (resolveRealPath_returns_canonical_form sparseDiskEnv true "/vault/new/a.md")
    as (Hret & _).
  pose proof (resolveRealPath_returns_canonical_form sparseDiskEnv true "new/a.md")
    as (_ & Hthrow & _).
  split.
  - apply Hret. right; left. reflexivity.
  - apply Hthrow; reflexivity.
Defined.

(** C5 as stated fails: in the catch block [path.resolve] asks for the
    working directory, and when that has been removed the call throws
    on the relative path ["notes/a.md"]. *)
Lemma resolveRealPath_throws_counterexample :
  UtilsCwd.resolveRealPath emptyDiskEnv true "notes/a.md" = Some UtilsCwd.Throws
  /\ ~ exists r, UtilsCwd.resolveRealPath emptyDiskEnv true "notes/a.md"
                 = Some (UtilsCwd.Returns r).
Proof. split; [reflexivity | intros [r H]; discriminate H]. Qed.

Lemma rootSegs_nonempty (cwd v : string) :
  isAbsolute cwd = true -> resolve cwd [v] <> "/" -> rootSegs cwd v <> [].
Proof.
  intros Hc Hne E. apply Hne. rewrite resolve_one by assumption. rewrite E. reflexivity.
Qed.

(** C9 (amended).  Only candidates that begin with ["~/"] are expanded
    to the home directory.  A candidate that begins with [~] otherwise
    (the bare ["~"], ["~user"]) is left as it is and resolved against
    the vault root, in both containment checks.  Where no symbolic
    link is involved, ["~"] is therefore within every vault root whose
    resolved form is not ["/"]. *)
Theorem tilde_without_slash_is_vault_relative (env : Env) (v : string) :
  (forall rest, expandHome env ("~/" ++ rest) = join_paths [homedir env; rest])
  /\ (forall c, startsWith c "~/" = false -> expandHome env c = c)
  /\ (forall c exports,
         startsWith c "~" = true -> startsWith c "~/" = false ->
         absoluteIn env v (expandHome env c) = resolve (cwd env) [v; c]
         /\ isPathWithinVault env c v =
            match resolveRealPath env v,
                  resolveRealPath env (resolve (cwd env) [v; c]) with
            | Some rv, Some rc => Some (equalsOrUnder rc rv)
            | _, _ => None
            end
         /\ isPathInAllowedExportPaths env c exports v =
            if Nat.eqb (List.length exports) 0 then Some false
            else match resolveRealPath env (resolve (cwd env) [v; c]) with
                 | Some rc => exportLoop env rc exports
                 | None => None
                 end)
  /\ (symlinkFree env -> resolve (cwd env) [v] <> "/" ->
      isPathWithinVault env "~" v = Some true).
Proof.
  assert (Hexp : forall c, startsWith c "~/" = false -> expandHome env c = c).
  { intros c H. unfold expandHome. rewrite H. reflexivity. }
  split.
  { intros rest. unfold expandHome, startsWith. rewrite prefix_append. reflexivity. }
  split; [exact Hexp|]. split.
  - intros c exports Ht Hts.
    assert (Habs : absoluteIn env v (expandHome env c) = resolve (cwd env) [v; c]).
    { rewrite Hexp by assumption. unfold absoluteIn.
      apply startsWith_iff in Ht. destruct Ht as [rest ->]. reflexivity. }
    split; [exact Habs|]. split.
    + unfold isPathWithinVault. rewrite Habs.
      destruct (resolveRealPath env v); reflexivity.
    + unfold isPathInAllowedExportPaths. rewrite Habs. reflexivity.
  - intros Hfree Hroot. rewrite isPathWithinVault_lexical by assumption.
    change (absoluteIn env v (expandHome env "~")) with (resolve (cwd env) [v; "~"]).
    destruct (@resolve_below env Hfree v "~" eq_refl) as [E Hplain].
    { cbn. intros [H|[]]. discriminate. }
    rewrite E, resolve_render by assumption.
    rewrite resolve_one by apply Hfree. f_equal.
    apply equalsOrUnder_render_app, rootSegs_nonempty; [apply Hfree | assumption].
Qed.

Lemma tilde_without_slash_is_vault_relative_witness :
  symlinkFree plainEnv /\ resolve (cwd plainEnv) ["/vault"] <> "/" /\
  isPathWithinVault plainEnv "~" "/vault" = Some true.
Proof.
  split; [exact plainEnv_symlinkFree|]. split; [discriminate|].
  apply (proj2 (proj2 (proj2 (tilde_without_slash_is_vault_relative plainEnv "/vault")))).
  - exact plainEnv_symlinkFree.
  - discriminate.
Defined.

(** C9 as stated fails: a vault entry named [~] that links out of the
    vault is not within it; and with the vault at ["/"] the candidate
    ["/~"] is compared against the prefix ["//"]. *)
Lemma tilde_always_within_vault_counterexample :
  isPathWithinVault tildeLinkEnv "~" "/vault" = Some false
  /\ isPathWithinVault plainEnv "~" "/" = Some false.
Proof. split; reflexivity. Qed.

Lemma startsWith_absolute_tilde (c : string) :
  isAbsolute c = true -> startsWith c "~/" = false.
Proof.
  destruct c as [|a c]; [discriminate|]. unfold isAbsolute, isSlash. intros H.
  apply Ascii.eqb_eq in H. subst a. reflexivity.
Qed.

(** The candidate [root/../s] for an absolute root, where [s] does not
    climb: the root's segments but the last, then those of [s]. *)
Lemma resolve_sibling (env : Env) (root s : string) (top : string) (rest : list string) :
  symlinkFree env -> isAbsolute root = true ->
  rev (rootSegs (cwd env) root) = top :: rest ->
  ~ In ".." (relSegs s) ->
  resolve (cwd env) [(root ++ "/../" ++ s)%string] = render (rev rest ++ relSegs s)
  /\ Forall plainSeg (rev rest ++ relSegs s).
Proof.
  intros Hfree Habs Hroot Hno.
  assert (Hc : isAbsolute (root ++ "/../" ++ s) = true)
    by (destruct root; [discriminate | exact Habs]).
  assert (Hanch : forall x, isAbsolute x = true -> anchored (cwd env) x = x).
  { intros x Hx. unfold anchored. rewrite (isAbsolute_nonempty _ Hx), Hx. reflexivity. }
  assert (Hplain : Forall plainSeg (top :: rest)).
  { rewrite <- Hroot. apply Forall_rev, rootSegs_plain. }
  assert (E : normSegs false [] (split slash (root ++ "/../" ++ s))
              = rev (relSegs s) ++ rest).
  { change (root ++ "/../" ++ s)%string
      with (root ++ String slash (".." ++ String slash s))%string.
    rewrite !split_append_sep. change (split slash "..") with [".."].
    cbn [app]. rewrite normSegs_app.
    unfold rootSegs in Hroot. rewrite rev_involutive, Hanch in Hroot by assumption.
    rewrite Hroot. cbn [normSegs].
    assert (Hstep : normStep false (top :: rest) ".." = rest).
    { unfold normStep. change ((".." =? "") || (".." =? "."))%string with false.
      change (".." =? "..")%string with true. cbv iota.
      inversion Hplain as [|? ? (_ & _ & Hdd & _) _]; subst.
      apply String.eqb_neq in Hdd. rewrite Hdd. reflexivity. }
    rewrite Hstep. unfold relSegs. rewrite rev_involutive.
    apply (normSegs_below (split slash s) [] rest).
    intros Hin. apply Hno. unfold relSegs. apply in_rev in Hin. exact Hin. }
  split.
  - rewrite resolve_one by apply Hfree. unfold rootSegs.
    rewrite Hanch, E by assumption. rewrite rev_app_distr, rev_involutive. reflexivity.
  - rewrite <- (rev_involutive (relSegs s)), <- rev_app_distr, <- E.
    apply Forall_rev, normSegs_false_keeps_plain; [constructor | apply split_noChar_all].
Qed.

(** C2 (amended).  A relative candidate is resolved against the vault
    root.  Where no symbolic link is involved and the resolved root is
    not ["/"]: every relative path that does not begin with ["~/"] and
    whose normal form holds no [..] is within the vault; and for an
    absolute root and every [s] whose normal form holds no [..],
    [root + "/../" + s] is within the vault exactly when [s] begins
    with the root's own directory name. *)
Theorem relative_paths_are_vault_relative (env : Env) (root : string) :
  symlinkFree env -> resolve (cwd env) [root] <> "/" ->
  (forall p, isAbsolute p = false -> startsWith p "~/" = false ->
             absoluteIn env root (expandHome env p) = resolve (cwd env) [root; p])
  /\ (forall p, isAbsolute p = false -> startsWith p "~/" = false ->
                ~ In ".." (relSegs p) ->
                isPathWithinVault env p root = Some true)
  /\ (isAbsolute root = true ->
      forall s, ~ In ".." (relSegs s) ->
                isPathWithinVault env (root ++ "/../" ++ s) root
                = Some match relSegs s with
                       | h :: _ => (h =? basename (resolve (cwd env) [root]))%string
                       | [] => false
                       end).
Proof.
  intros Hfree Hroot.
  assert (Habs : forall p, isAbsolute p = false -> startsWith p "~/" = false ->
             absoluteIn env root (expandHome env p) = resolve (cwd env) [root; p]).
  { intros p Hrel Ht. unfold expandHome, absoluteIn. rewrite Ht, Hrel. reflexivity. }
  pose proof (@rootSegs_nonempty (cwd env) root (proj1 Hfree) Hroot) as Hne.
  split; [exact Habs|]. split.
  - intros p Hrel Ht Hno. rewrite isPathWithinVault_lexical, Habs by assumption.
    destruct (@resolve_below env Hfree root p Hrel Hno) as [E Hplain].
    rewrite E, resolve_render by assumption.
    rewrite resolve_one by apply Hfree. f_equal.
    apply equalsOrUnder_render_app, Hne.
  - intros Hrootabs s Hno. rewrite isPathWithinVault_lexical by assumption.
    assert (Hcabs : isAbsolute (root ++ "/../" ++ s) = true)
      by (destruct root; [discriminate | exact Hrootabs]).
    unfold expandHome, absoluteIn.
    rewrite (startsWith_absolute_tilde _ Hcabs), Hcabs.
    destruct (rev (rootSegs (cwd env) root)) as [|top rest] eqn:Hrev.
    { exfalso. apply Hne. rewrite <- (rev_involutive (rootSegs _ _)), Hrev. reflexivity. }
    destruct (@resolve_sibling env root s top rest Hfree Hrootabs Hrev Hno) as [E Hplain].
    rewrite E.
    assert (HR : rootSegs (cwd env) root = rev rest ++ [top]).
    { rewrite <- (rev_involutive (rootSegs _ _)), Hrev. reflexivity. }
    pose proof (rootSegs_plain (cwd env) root) as HRplain.
    rewrite resolve_one by apply Hfree. rewrite HR in *.
    rewrite basename_snoc
      by (apply Forall_app in HRplain; destruct HRplain as [_ Ht]; inversion Ht; assumption).
    f_equal.
    assert (Hinv : equalsOrUnder (render (rev rest ++ relSegs s))
                                 (render (rev rest ++ [top])) = true ->
                   exists more, relSegs s = top :: more).
    { intros H. apply equalsOrUnder_render_inv in H; [|assumption|assumption|assumption].
      destruct H as [more H]. exists more.
      rewrite <- app_assoc in H. apply app_inv_head in H. exact H. }
    destruct (relSegs s) as [|h more] eqn:Hs.
    + destruct (equalsOrUnder _ _); [|reflexivity].
      destruct (Hinv eq_refl) as [? ?]; discriminate.
    + destruct (String.eqb_spec h top) as [->|Hdiff].
      * change (rev rest ++ top :: more) with (rev rest ++ [top] ++ more).
        rewrite app_assoc. apply equalsOrUnder_render_app. assumption.
      * destruct (equalsOrUnder _ _); [|reflexivity].
        destruct (Hinv eq_refl) as [? H]. congruence.
Qed.

Lemma relative_paths_are_vault_relative_witness :
  symlinkFree plainEnv /\ resolve (cwd plainEnv) ["/vault"] <> "/" /\
  isPathWithinVault plainEnv "notes/a.md" "/vault" = Some true /\
  isPathWithinVault plainEnv "/vault/../etc/passwd" "/vault" = Some false.
Proof.
  assert (Hroot : resolve (cwd plainEnv) ["/vault"] <> "/") by discriminate.
  pose proof (@relative_paths_are_vault_relative plainEnv "/vault" plainEnv_symlinkFree Hroot)
    as (_ & Hin & Hout).
  split; [exact plainEnv_symlinkFree|]. split; [exact Hroot|]. split.
  - apply Hin; [reflexivity | reflexivity |].
    cbn. intros [H|[H|[]]]; discriminate.
  - apply (Hout eq_refl "etc/passwd").
    cbn. intros [H|[H|[]]]; discriminate.
Defined.

(** C2 as stated fails on both sides: a path of the form
    [root + "/../" + s] may lead back into the root, and a relative
    path without [..] may pass through a symbolic link that leaves the
    vault. *)
Lemma relative_paths_counterexample :
  isPathWithinVault plainEnv ("/vault" ++ "/../" ++ "vault/a.md") "/vault" = Some true
  /\ isPathWithinVault symlinkEnv "export/newfile.txt" "/vault" = Some false.
Proof. split; reflexivity. Qed.

End UtilsClaims.

(* ================================================================== *)
(** ** Blocklist: the verified statements *)
(* ================================================================== *)

Module BlocklistClaims.
Import JsString StringFacts MiniRegExp RegExpFacts Blocklist.

Lemma includes_iff (s sub : string) :
  includes s sub = true <-> exists a b, s = (a ++ sub ++ b)%string.
Proof.
  split; [apply includes_inv | intros (a & b & ->); apply includes_append].
Qed.

Lemma findBlockedPattern_first (E : RegExpEngine) (command : string) (patterns : list string) :
  forall p,
    findBlockedPattern E command patterns = Some p <->
    exists before after,
      patterns = before ++ p :: after /\
      patternMatches E p command = true /\
      forall q, In q before -> patternMatches E q command = false.
Proof.
  unfold findBlockedPattern. induction patterns as [|q patterns IH]; intros p; simpl.
  - split; [discriminate|]. intros (before & after & H & _). destruct before; discriminate.
  - destruct (patternMatches E q command) eqn:Hq.
    + split.
      * intros H. injection H as <-. exists [], patterns. repeat split; auto.
        intros ? [].
      * intros (before & after & H & Hp & Hbefore). destruct before as [|b before].
        -- injection H as -> _. reflexivity.
        -- injection H as -> _. rewrite (Hbefore b (or_introl eq_refl)) in Hq. discriminate.
    + rewrite IH. split.
      * intros (before & after & -> & Hp & Hbefore).
        exists (q :: before), after. repeat split; auto.
        intros x [<-|Hx]; auto.
      * intros (before & after & H & Hp & Hbefore). destruct before as [|b before].
        -- injection H as -> _. congruence.
        -- injection H as -> ->. exists before, after. repeat split; auto.
           intros x Hx. apply Hbefore. right. exact Hx.
Qed.

(** C4.  A blocklist pattern is compiled as a regular expression and
    tested against the command; a pattern that does not compile is
    looked for as a literal, case-sensitive substring.  A command is
    blocked when some pattern matches, and the first such pattern is
    the one reported.  With the concrete engine a compiled pattern
    matches exactly when some substring of the command belongs to its
    language; the pattern [rm\s+-rf] compiles and matches
    ["rm   -rf /home"]; ["[invalid regex"] does not compile and
    matches every command that contains it, whatever the case of the
    rest. *)
Theorem blocklist_regex_with_substring_fallback :
  (forall (E : RegExpEngine) pattern command,
      patternMatches E pattern command = true <->
      (exists r, compile E pattern = Some r /\ test E r command = true) \/
      (compile E pattern = None /\
       exists a b, command = (a ++ pattern ++ b)%string))
  /\ (forall (E : RegExpEngine) command patterns,
         isCommandBlocked E command patterns = true <->
         exists p, In p patterns /\ patternMatches E p command = true)
  /\ (forall r command, test engine r command = true <-> MatchesWithin r command)
  /\ (exists r, compile engine "rm\s+-rf" = Some r /\
                test engine r "rm   -rf /home" = true)
  /\ patternMatches engine "rm\s+-rf" "rm   -rf /home" = true
  /\ compile engine "[invalid regex" = None
  /\ (forall a b, patternMatches engine "[invalid regex"
                    (a ++ "[invalid regex" ++ b) = true)
  /\ patternMatches engine "[invalid regex" "something with [INVALID regex inside" = false.
Proof.
  split; [|split; [|split; [|split; [|split; [|split; [|split]]]]]].
  - intros E pattern command. unfold patternMatches.
    destruct (compile E pattern) as [r|].
    + split.
      * intros H. left. exists r. auto.
      * intros [(r' & Hr & H) | [Hn _]]; [injection Hr as <-; exact H | discriminate].
    + rewrite includes_iff. split.
      * intros H. right. auto.
      * intros [(r' & Hr & _) | [_ H]]; [discriminate | exact H].
  - intros E command patterns. unfold isCommandBlocked.
    destruct (findBlockedPattern E command patterns) as [p|] eqn:F.
    + split; [intros _ | reflexivity].
      apply findBlockedPattern_first in F. destruct F as (before & after & -> & Hp & _).
      exists p. split; [apply in_elt | exact Hp].
    + split; [discriminate|]. intros (p & Hin & Hp). exfalso.
      unfold findBlockedPattern in F.
      apply (find_none _ _ F) in Hin. congruence.
  - intros r command. apply testRegex_iff.
  - eexists. split; [vm_compute; reflexivity | vm_compute; reflexivity].
  - vm_compute. reflexivity.
  - vm_compute. reflexivity.
  - intros a b. unfold patternMatches.
    change (compile engine "[invalid regex") with (compileRegex "[invalid regex").
    assert (Hc : compileRegex "[invalid regex" = None) by (vm_compute; reflexivity).
    rewrite Hc. apply includes_append.
  - vm_compute. reflexivity.
Qed.

End BlocklistClaims.

(* ================================================================== *)
(** ** Approvals and session recovery: the verified statements *)
(* ================================================================== *)

Module ServiceClaims.
Import JsString StringFacts Types Approval Session.

Lemma matchesRulePattern_refl (tool p : string) : matchesRulePattern tool p p = true.
Proof.
  unfold matchesRulePattern. destruct (toolKind tool); try apply String.eqb_refl.
  unfold startsWith. rewrite <- (append_nil_r p) at 2. apply prefix_append.
Qed.

Lemma approves_own_action (tool : string) (input input' : ToolInput)
      (now : nat) (sc : ApprovalScope) :
  getActionPattern tool input' = getActionPattern tool input ->
  approves tool (getActionPattern tool input')
           (mkApprovedAction tool (getActionPattern tool input) now sc) = true.
Proof.
  intros ->. unfold approves. cbn [toolName pattern].
  rewrite String.eqb_refl, matchesRulePattern_refl. reflexivity.
Qed.

Lemma existsb_snoc {A} (f : A -> bool) (l : list A) (a : A) :
  f a = true -> existsb f (l ++ [a]) = true.
Proof. intros H. rewrite existsb_app. simpl. rewrite H. apply orb_true_r. Qed.

(** C7.  An approval, of either scope, is seen at once by
    [isActionApproved] for every input with the same pattern.  After
    [resetSession] a session-scoped approval has left no trace (the
    action is approved only if it was permanently approved before, so
    not at all when the permanent list held nothing), while a
    permanent approval still stands. *)
Theorem approval_round_trip
  (svc : Service) (tool : string) (input : ToolInput) (now : nat) :
  (forall sc input',
      getActionPattern tool input' = getActionPattern tool input ->
      isApproved (approve svc tool input sc now) tool input' = true)
  /\ (forall sc, isApproved (approve svc tool input sc now) tool input = true)
  /\ isApproved (resetSession (approve svc tool input ScopeSession now)) tool input
     = isApproved (resetSession svc) tool input
  /\ (approvedActions (settings (store svc)) = [] ->
      isApproved (resetSession (approve svc tool input ScopeSession now)) tool input
      = false)
  /\ isApproved (resetSession (approve svc tool input ScopeAlways now)) tool input
     = true.
Proof.
  assert (Hround : forall sc input',
             getActionPattern tool input' = getActionPattern tool input ->
             isApproved (approve svc tool input sc now) tool input' = true).
  { intros sc input' Hp. unfold isApproved, approve, isActionApproved, approveAction.
    cbn [store]. destruct sc; cbn [sessionApprovedActions settings approvedActions
                                    withApprovedActions].
    - rewrite existsb_snoc by (apply approves_own_action; assumption). reflexivity.
    - rewrite (existsb_snoc _ (approvedActions (settings (store svc))))
        by (apply approves_own_action; assumption).
      apply orb_true_r. }
  split; [exact Hround|]. split; [intros sc; apply Hround; reflexivity|].
  split; [reflexivity|]. split.
  - intros Hnone. unfold isApproved, resetSession, approve, isActionApproved.
    cbn. rewrite Hnone. reflexivity.
  - unfold isApproved, resetSession, approve, isActionApproved, approveAction.
    cbn [store clearSession sessionApprovedActions settings approvedActions
         withApprovedActions existsb orb].
    apply existsb_snoc, approves_own_action. reflexivity.
Qed.

Lemma approval_round_trip_witness :
  approvedActions (settings (store freshService)) = [] /\
  isApproved (approve freshService "Bash" [("command", "ls -la")] ScopeSession 0)
             "Bash" [("command", "ls -la")] = true /\
  isApproved (resetSession
                (approve freshService "Bash" [("command", "ls -la")] ScopeSession 0))
             "Bash" [("command", "ls -la")] = false.
Proof.
  pose proof (approval_round_trip freshService "Bash" [("command", "ls -la")] 0)
    as (_ & Hnow & _ & Hcleared & _).
  split; [reflexivity|]. split; [apply Hnow | apply Hcleared; reflexivity].
Defined.

(** *** Session recovery *)

Lemma join_includes (sep : string) (l : list string) (x : string) :
  In x l -> includes (join sep l) x = true.
Proof.
  intros H. apply in_split in H. destruct H as (l1 & l2 & ->).
  assert (Htail : exists b, join sep (x :: l2) = (x ++ b)%string).
  { destruct l2; [exists ""; simpl; symmetry; apply append_nil_r|].
    eexists. reflexivity. }
  destruct Htail as [b Hb].
  destruct l1 as [|a l1].
  - cbn [app]. rewrite Hb. apply (includes_append "" x b).
  - rewrite join_app by discriminate. rewrite Hb.
    rewrite <- append_assoc. apply includes_append.
Qed.

Lemma messageLines_own_line (maxLength : nat) (m : ChatMessage) :
  isTranscribed m = true ->
  In (roleName (role m) ++ ": " ++ content m)%string (messageLines maxLength m).
Proof. intros H. unfold messageLines. rewrite H. left. reflexivity. Qed.

Lemma isTranscribed_user (m : ChatMessage) : role m = User -> isTranscribed m = true.
Proof. intros H. unfold isTranscribed. rewrite H. reflexivity. Qed.

Lemma isTranscribed_assistant (m : ChatMessage) :
  role m = Assistant -> content m <> "" -> isTranscribed m = true.
Proof.
  intros H Hc. unfold isTranscribed. rewrite H.
  apply String.eqb_neq in Hc. rewrite Hc. reflexivity.
Qed.



End ServiceClaims.

(* ================================================================== *)
(** ** Mediation of shell commands: the verified statements *)
(* ================================================================== *)

Module MediatorClaims.
Import JsString StringFacts Types Approval BashPaths BashSpec Mediator PathSpec
       LexicalFacts.

Lemma writeOnly_in_message (p : string) :
  includes (violationMessage (ExportPathRead p)) "write-only" = true.
Proof.
  assert (E : violationMessage (ExportPathRead p)
              = (("Access denied: path " ++ quoteMark ++ p ++ quoteMark
                  ++ " is in an allowed export directory, but export paths are ")
                 ++ "write-only" ++ ".")%string).
  { unfold violationMessage. rewrite !append_assoc. reflexivity. }
  rewrite E. apply includes_append.
Qed.

Section Policy.
Variable E : RegExpEngine.
Variable env : Env.
Variable vaultPath : string.
Variable cfg : ClaudianSettings.

Lemma checkPathAccess_export_read (t : PathToken) :
  intent t <> WriteIntent ->
  withinVault env vaultPath (path t) = false ->
  withinExport env vaultPath cfg (path t) = true ->
  checkPathAccess env vaultPath cfg t = Some (ExportPathRead (raw t)).
Proof.
  intros Hi Hv He. unfold checkPathAccess. rewrite Hv, He.
  destruct (intent t); [reflexivity | congruence | reflexivity].
Qed.

Lemma firstViolation_split (before after : list PathToken) (t : PathToken)
      (v : PathViolation) :
  (forall u, In u before -> checkPathAccess env vaultPath cfg u = None) ->
  checkPathAccess env vaultPath cfg t = Some v ->
  firstViolation env vaultPath cfg (before ++ t :: after) = Some v.
Proof.
  induction before as [|u before IH]; intros Hbefore Ht; cbn [app firstViolation].
  - rewrite Ht. reflexivity.
  - rewrite (Hbefore u (or_introl eq_refl)). apply IH; [|exact Ht].
    intros w Hw. apply Hbefore. right. exact Hw.
Qed.

Lemma firstViolation_some (tokens : list PathToken) (t : PathToken) (v : PathViolation) :
  In t tokens -> checkPathAccess env vaultPath cfg t = Some v ->
  exists v', firstViolation env vaultPath cfg tokens = Some v'.
Proof.
  induction tokens as [|u tokens IH]; intros Hin Ht; [contradiction|].
  cbn [firstViolation]. destruct (checkPathAccess env vaultPath cfg u) as [w|] eqn:Hu.
  - eauto.
  - destruct Hin as [->|Hin]; [congruence | apply IH; assumption].
Qed.

End Policy.

(** *** The extractor on the shape of a segment *)

Lemma operandScan_app (before : list string) :
  forall e, exists e',
    forall rest, operandScan (before ++ rest) e
                 = operandScan before e ++ operandScan rest e'.
Proof.
  induction before as [|t before IH]; intros e.
  - exists e. reflexivity.
  - cbn [app operandScan].
    destruct (isBashOutputRedirectOperator t); [apply IH|].
    destruct (isBashInputRedirectOperator t); [apply IH|].
    destruct (isBashOutputOptionExpectingValue t); [apply IH|].
    destruct e as [|i].
    + destruct (isOptionToken t); [apply IH|].
      destruct (IH ExpectNothing) as [e' H]. exists e'. intros rest.
      rewrite H. reflexivity.
    + destruct (IH ExpectNothing) as [e' H]. exists e'. intros rest.
      rewrite H. reflexivity.
Qed.

Lemma operandScan_operator_free (t : string) (rest : list string) (e : Expect) :
  isOperandOperator t = false ->
  operandScan (t :: rest) e
  = match e with
    | ExpectPath i =>
        mkOperand (mkPathToken t (cleanPathToken t) i) false
          :: operandScan rest ExpectNothing
    | ExpectNothing =>
        if isOptionToken t then operandScan rest ExpectNothing
        else mkOperand (mkPathToken t (cleanPathToken t) AmbiguousIntent) true
               :: operandScan rest ExpectNothing
    end.
Proof.
  unfold isOperandOperator. intros H.
  apply orb_false_iff in H. destruct H as [H H3].
  apply orb_false_iff in H. destruct H as [H1 H2].
  cbn [operandScan]. rewrite H1, H2, H3. reflexivity.
Qed.

(** After tokens that do not end in an operator nothing is expected;
    [e] matters only when there are no tokens. *)
Lemma operandScan_positional (a : string) (rest : list string) (before : list string) :
  isOperandOperator a = false -> isOptionToken a = false ->
  forall e,
    endsWithOperator before = false ->
    (before = [] -> e = ExpectNothing) ->
    operandScan (before ++ a :: rest) e
    = operandScan before e
      ++ mkOperand (mkPathToken a (cleanPathToken a) AmbiguousIntent) true
           :: operandScan rest ExpectNothing.
Proof.
  intros Ha Hopt. induction before as [|t before IH]; intros e Hend He.
  - rewrite (He eq_refl). cbn [app]. rewrite operandScan_operator_free by assumption.
    rewrite Hopt. reflexivity.
  - assert (Hnext : forall e', (before = [] -> e' = ExpectNothing) ->
               operandScan (before ++ a :: rest) e'
               = operandScan before e'
                 ++ mkOperand (mkPathToken a (cleanPathToken a) AmbiguousIntent) true
                      :: operandScan rest ExpectNothing).
    { intros e' He'. apply IH; [|exact He'].
      destruct before as [|u before]; [reflexivity | exact Hend]. }
    assert (Hop : isOperandOperator t = true -> before <> []).
    { intros Ht ->. cbn in Hend. congruence. }
    cbn [app operandScan].
    destruct (isBashOutputRedirectOperator t) eqn:H1.
    { apply Hnext. intros Hb. exfalso. apply Hop; [|exact Hb].
      unfold isOperandOperator. rewrite H1. reflexivity. }
    destruct (isBashInputRedirectOperator t) eqn:H2.
    { apply Hnext. intros Hb. exfalso. apply Hop; [|exact Hb].
      unfold isOperandOperator. rewrite H1, H2. reflexivity. }
    destruct (isBashOutputOptionExpectingValue t) eqn:H3.
    { apply Hnext. intros Hb. exfalso. apply Hop; [|exact Hb].
      unfold isOperandOperator. rewrite H1, H2, H3. reflexivity. }
    destruct e as [|i].
    + destruct (isOptionToken t); [apply Hnext; reflexivity|].
      rewrite Hnext by reflexivity. reflexivity.
    + rewrite Hnext by reflexivity. reflexivity.
Qed.

Lemma isPositionalAfter_parts (before : list string) (t : string) :
  isPositionalAfter before t = true ->
  endsWithOperator before = false /\ isOperandOperator t = false
  /\ isOptionToken t = false.
Proof.
  unfold isPositionalAfter. intros H.
  apply andb_true_iff in H. destruct H as [H H3].
  apply andb_true_iff in H. destruct H as [H1 H2].
  apply negb_true_iff in H1, H2, H3. auto.
Qed.

Lemma hasPositional_scan (tokens : list string) :
  hasPositional tokens ->
  existsb positional (operandScan tokens ExpectNothing) = true.
Proof.
  intros (before & t & rest & -> & H).
  apply isPositionalAfter_parts in H. destruct H as (H1 & H2 & H3).
  rewrite (@operandScan_positional t rest before H2 H3 ExpectNothing H1 (fun _ => eq_refl)).
  rewrite existsb_app. cbn [existsb positional]. apply orb_true_r.
Qed.

Lemma settleOperands_announced (destination : bool) (op : Operand) (ops : list Operand) :
  In op ops -> positional op = false ->
  forall seen, In (token op) (settleOperands destination seen ops).
Proof.
  intros Hin Hpos. induction ops as [|o ops IH]; intros seen; [contradiction|].
  cbn [settleOperands]. destruct Hin as [->|Hin].
  - rewrite Hpos. left. reflexivity.
  - destruct (positional o).
    + apply in_or_app. right. apply IH, Hin.
    + right. apply IH, Hin.
Qed.

Lemma settleOperands_read (destination : bool) (op : Operand)
      (before rest : list Operand) :
  positional op = true -> isPathLikeToken (path (token op)) = true ->
  destination = false \/ existsb positional rest = true ->
  forall seen,
    In (mkPathToken (raw (token op)) (path (token op)) ReadIntent)
       (settleOperands destination seen (before ++ op :: rest)).
Proof.
  intros Hpos Hlike Hread. induction before as [|o before IH]; intros seen.
  - cbn [app settleOperands]. rewrite Hpos, Hlike. left.
    unfold settledIntent. destruct Hread as [->| ->]; [reflexivity|].
    rewrite !andb_false_r. reflexivity.
  - cbn [app settleOperands]. destruct (positional o).
    + apply in_or_app. right. apply IH.
    + right. apply IH.
Qed.

Lemma isOptionToken_pathLike (a : string) :
  isPathLikeToken (cleanPathToken a) = true -> isOptionToken a = false.
Proof.
  unfold isPathLikeToken, isOptionToken. intros H.
  apply andb_true_iff in H. destruct H as [H _]. apply negb_true_iff in H. exact H.
Qed.

(** An operand that the shape of its segment makes a read one is
    extracted with Read intent. *)
Lemma segmentPathTokens_read (cmd : string) (before : list string) (a : string)
      (rest : list string) :
  ReadOperand cmd before a rest ->
  In (mkPathToken a (cleanPathToken a) ReadIntent)
     (segmentPathTokens (cmd :: before ++ a :: rest)).
Proof.
  unfold segmentPathTokens. cbn [tl getBashSegmentCommandName].
  intros [earlier -> Ha | Hpos Hlike Hread].
  - destruct (operandScan_app earlier ExpectNothing) as [e' H].
    rewrite <- app_assoc. cbn [app]. rewrite H.
    change (operandScan ("<" :: a :: rest) e')
      with (operandScan (a :: rest) (ExpectPath ReadIntent)).
    rewrite operandScan_operator_free by assumption.
    apply (@settleOperands_announced _
             (mkOperand (mkPathToken a (cleanPathToken a) ReadIntent) false));
      [|reflexivity].
    apply in_or_app. right. left. reflexivity.
  - apply isPositionalAfter_parts in Hpos. destruct Hpos as (H1 & H2 & H3).
    rewrite (@operandScan_positional a rest before H2 H3 ExpectNothing H1
               (fun _ => eq_refl)).
    apply (@settleOperands_read _
             (mkOperand (mkPathToken a (cleanPathToken a) AmbiguousIntent) true));
      [reflexivity | exact Hlike |].
    destruct Hread as [Hd|Hp]; [left; exact Hd | right; apply hasPositional_scan, Hp].
Qed.

Lemma extractBashPaths_read (command cmd : string) (before : list string) (a : string)
      (rest : list string) :
  In (cmd :: before ++ a :: rest)
     (splitBashTokensIntoSegments (tokenizeBashCommand command)) ->
  ReadOperand cmd before a rest ->
  In (mkPathToken a (cleanPathToken a) ReadIntent) (extractBashPaths command).
Proof.
  intros Hseg Hread. unfold extractBashPaths. apply in_flat_map.
  exists (cmd :: before ++ a :: rest). split; [exact Hseg|].
  apply segmentPathTokens_read, Hread.
Qed.




End MediatorClaims.

(* ================================================================== *)
(** ** Path containment: further properties *)
(* ================================================================== *)

Module PathProperties.
Import JsString NodePath StringFacts PathSpec PathFacts Utils WalkFacts LexicalFacts Fixtures.

Lemma join_paths_absolute (r0 : string) (rest : list string) :
  isAbsolute r0 = true -> isAbsolute (join_paths (r0 :: rest)) = true.
Proof.
  intros H. destruct r0 as [|c r0]; [discriminate|].
  unfold join_paths. cbn [filter String.eqb negb].
  set (parts := filter _ rest).
  assert (Hj : exists tl, join sep (String c r0 :: parts) = String c tl).
  { destruct parts; [exists r0 | eexists]; reflexivity. }
  destruct Hj as [tl ->]. unfold normalize. cbn [String.eqb].
  change (isAbsolute (String c tl)) with (isAbsolute (String c r0)). rewrite H.
  destruct (normalizeString _ _ =? "")%string; reflexivity.
Qed.

Lemma absolute_not_tilde (c : string) :
  isAbsolute c = true -> startsWith c "~/" = false.
Proof.
  destruct c as [|a c]; [discriminate|]. unfold isAbsolute, isSlash. intros H.
  apply Ascii.eqb_eq in H. subst a. reflexivity.
Qed.

Lemma absolute_candidate (env : Env) (a v : string) :
  isAbsolute a = true -> absoluteIn env v (expandHome env a) = a.
Proof.
  intros H. unfold expandHome, absoluteIn.
  rewrite (absolute_not_tilde _ H), H. reflexivity.
Qed.

Lemma withinOrEqual_trans (a b c : string) :
  withinOrEqual a b -> withinOrEqual b c -> withinOrEqual a c.
Proof.
  intros [->|[r1 ->]] [->|[r2 ->]].
  - left; reflexivity.
  - right; exists r2; reflexivity.
  - right; exists r1; reflexivity.
  - right. exists (r2 ++ sep ++ r1)%string. rewrite !append_assoc. reflexivity.
Qed.

Lemma equalsOrUnder_within (rc root : string) :
  equalsOrUnder rc root = true <-> withinOrEqual rc root.
Proof.
  unfold equalsOrUnder, withinOrEqual. rewrite orb_true_iff, String.eqb_eq, startsWith_iff.
  split; (intros [H|[rest H]]; [left; exact H | right; exists rest]).
  - rewrite H. apply append_assoc.
  - rewrite H. symmetry. apply append_assoc.
Qed.

Lemma exportLoop_true (env : Env) (rc : string) (exports : list string) :
  exportLoop env rc exports = Some true <->
  exists e re, In e exports /\ resolveRealPath env (expandHome env e) = Some re /\
               equalsOrUnder rc re = true.
Proof.
  induction exports as [|e exports IH]; cbn [exportLoop].
  - split; [discriminate | intros (e & re & [] & _)].
  - destruct (resolveRealPath_total env (expandHome env e)) as [re Hre]. rewrite Hre.
    destruct (equalsOrUnder rc re) eqn:E.
    + split; [|reflexivity]. intros _. exists e, re. auto using in_eq.
    + rewrite IH. split.
      * intros (e' & re' & Hin & H1 & H2). exists e', re'. auto using in_cons.
      * intros (e' & re' & [<-|Hin] & H1 & H2); [congruence|]. exists e', re'. auto.
Qed.

Lemma isPathInAllowedExportPaths_true (env : Env) (c v : string) (roots : list string) :
  isPathInAllowedExportPaths env c roots v = Some true <->
  exists rc, resolveRealPath env (absoluteIn env v (expandHome env c)) = Some rc /\
             exportLoop env rc roots = Some true.
Proof.
  unfold isPathInAllowedExportPaths.
  destruct (resolveRealPath_total env (absoluteIn env v (expandHome env c))) as [rc Hrc].
  rewrite Hrc. destruct roots as [|e roots].
  - cbn. split; [discriminate | intros (rc' & _ & H); discriminate].
  - cbn [List.length Nat.eqb]. split.
    + intros H. exists rc. auto.
    + intros (rc' & H1 & H2). congruence.
Qed.

Lemma rootSegs_trailing (cwd v : string) :
  v <> "" -> rootSegs cwd (v ++ "/") = rootSegs cwd v.
Proof.
  intros Hv. unfold rootSegs. f_equal.
  assert (E : anchored cwd (v ++ "/") = (anchored cwd v ++ "/" ++ "")%string).
  { unfold anchored. destruct v as [|a v]; [congruence|]. cbn [append String.eqb].
    change (isAbsolute (String a (v ++ "/"))) with (isAbsolute (String a v)).
    destruct (isAbsolute (String a v)); [reflexivity|].
    rewrite !append_assoc. reflexivity. }
  rewrite E. apply normalize_trailing.
Qed.

(** X1.  Where no symbolic link is involved, [resolveRealPath] is
    [path.resolve]: the walk up to the nearest existing ancestor and
    the re-joining of the base names give back the lexically resolved
    path, whatever exists and wherever [realpathFn] throws; and the
    result is a fixed point. *)
Theorem resolveRealPath_without_symlinks (env : Env) (p : string) :
  symlinkFree env ->
  resolveRealPath env p = Some (resolve (cwd env) [p])
  /\ resolveRealPath env (resolve (cwd env) [p]) = Some (resolve (cwd env) [p]).
Proof.
  intros Hfree. rewrite !resolveRealPath_lexical by assumption. split; [reflexivity|].
  rewrite (@resolve_one (cwd env) p (proj1 Hfree)).
  rewrite resolve_render by apply rootSegs_plain. reflexivity.
Qed.

Lemma sparseDiskEnv_symlinkFree : symlinkFree sparseDiskEnv.
Proof.
  split; [reflexivity|]. intros p r. cbn [realpathFn sparseDiskEnv cwd].
  destruct ((p =? "/")%string || (p =? "/vault")%string); [|discriminate].
  intros H. injection H as <-. reflexivity.
Qed.

Lemma resolveRealPath_without_symlinks_witness :
  symlinkFree sparseDiskEnv
  /\ realpathFn sparseDiskEnv "notes/../drafts/./a.md" = None
  /\ existsSync sparseDiskEnv "/vault/drafts" = false
  /\ existsSync sparseDiskEnv "/vault" = true
  /\ resolveRealPath sparseDiskEnv "notes/../drafts/./a.md" = Some "/vault/drafts/a.md"
  /\ resolveRealPath sparseDiskEnv "/vault/drafts/a.md" = Some "/vault/drafts/a.md".
Proof.
  split; [exact sparseDiskEnv_symlinkFree|]. repeat (split; [reflexivity|]).
  apply (@resolveRealPath_without_symlinks sparseDiskEnv "notes/../drafts/./a.md").
  exact sparseDiskEnv_symlinkFree.
Defined.

(** X2.  When the working directory is absolute and [realpathFn]
    returns absolute paths, [resolveRealPath] returns an absolute path
    for every input, also on the paths where it falls back to an
    ancestor or to the lexical form. *)
Theorem resolveRealPath_absolute (env : Env) (p : string) :
  isAbsolute (cwd env) = true ->
  (forall q r, realpathFn env q = Some r -> isAbsolute r = true) ->
  exists r, resolveRealPath env p = Some r /\ isAbsolute r = true.
Proof.
  intros Hcwd Hreal. destruct (resolveRealPath_total env p) as [r Hr].
  exists r. split; [exact Hr|]. unfold resolveRealPath in Hr.
  destruct (realpathFn env p) as [r0|] eqn:R.
  - injection Hr as <-. eapply Hreal, R.
  - apply walkUp_spec in Hr. destruct Hr as [(k & r0 & _ & Hat & ->) | [_ ->]].
    + unfold canonOf in Hat. destruct (existsSync env _); [|discriminate].
      apply Hreal in Hat. unfold walkResult.
      destruct (Nat.ltb 0 _); [apply join_paths_absolute|]; assumption.
    + rewrite resolve_one by assumption. reflexivity.
Qed.

Lemma resolveRealPath_absolute_witness :
  exists r, resolveRealPath symlinkEnv "/vault/export/2024/out.md" = Some r
            /\ isAbsolute r = true.
Proof.
  apply (@resolveRealPath_absolute symlinkEnv "/vault/export/2024/out.md").
  - reflexivity.
  - intros q r. cbn [symlinkEnv realpathFn].
    destruct (q =? "/")%string; [intros H; injection H as <-; reflexivity|].
    destruct (q =? "/vault")%string; [intros H; injection H as <-; reflexivity|].
    destruct (q =? "/vault/export")%string; [intros H; injection H as <-; reflexivity|].
    discriminate.
Defined.

(** X3.  With the vault root as the only export root the export check
    is the vault check: both canonicalise the candidate in the same way
    and compare with the same separator-bounded test. *)
Theorem export_check_on_vault_root (env : Env) (c v : string) :
  startsWith v "~/" = false ->
  isPathInAllowedExportPaths env c [v] v = isPathWithinVault env c v.
Proof.
  intros Hv. unfold isPathInAllowedExportPaths, isPathWithinVault.
  cbn [List.length Nat.eqb exportLoop].
  assert (E : expandHome env v = v) by (unfold expandHome; rewrite Hv; reflexivity).
  rewrite E.
  destruct (resolveRealPath_total env v) as [rv ->].
  destruct (resolveRealPath_total env (absoluteIn env v (expandHome env c))) as [rc ->].
  destruct (equalsOrUnder rc rv); reflexivity.
Qed.

Lemma export_check_on_vault_root_witness :
  isPathInAllowedExportPaths symlinkEnv "export/out.md" ["/vault"] "/vault"
  = isPathWithinVault symlinkEnv "export/out.md" "/vault".
Proof.
  apply (@export_check_on_vault_root symlinkEnv "export/out.md" "/vault"). reflexivity.
Defined.

(** X4.  The root directory as vault or as export root: the prefix
    compared is ["//"], so where no symbolic link is involved the only
    candidate accepted is one that resolves to ["/"] itself. *)
Theorem containment_in_filesystem_root (env : Env) (c v : string) :
  symlinkFree env ->
  isPathWithinVault env c "/"
  = Some (resolve (cwd env) [absoluteIn env "/" (expandHome env c)] =? "/")%string
  /\ isPathInAllowedExportPaths env c ["/"] v
     = Some (resolve (cwd env) [absoluteIn env v (expandHome env c)] =? "/")%string.
Proof.
  intros Hfree.
  assert (Hroot : resolve (cwd env) ["/"] = "/") by (apply (resolve_render (cwd env) (Forall_nil _))).
  assert (Hcmp : forall x, equalsOrUnder (resolve (cwd env) [x]) "/"
                           = (resolve (cwd env) [x] =? "/")%string).
  { intros x. rewrite resolve_one by apply Hfree.
    destruct (String.eqb_spec (render (rootSegs (cwd env) x)) "/") as [E|E].
    - unfold equalsOrUnder. rewrite E. reflexivity.
    - destruct (equalsOrUnder _ _) eqn:Q; [|reflexivity].
      apply equalsOrUnder_root in Q; [|apply rootSegs_plain].
      rewrite Q in E. exfalso; apply E; reflexivity. }
  split.
  - rewrite isPathWithinVault_lexical, Hroot, Hcmp by assumption. reflexivity.
  - unfold isPathInAllowedExportPaths. cbn [List.length Nat.eqb exportLoop].
    change (expandHome env "/") with "/".
    rewrite !resolveRealPath_lexical, Hroot, Hcmp by assumption.
    destruct (_ =? "/")%string; reflexivity.
Qed.

Lemma containment_in_filesystem_root_witness :
  isPathWithinVault plainEnv "/etc/passwd" "/" = Some false
  /\ isPathInAllowedExportPaths plainEnv "/etc/passwd" ["/"] "/vault" = Some false.
Proof.
  apply (@containment_in_filesystem_root plainEnv "/etc/passwd" "/vault").
  split; [reflexivity|]. intros p r H. injection H as <-. reflexivity.
Defined.

(** X5.  Adding export roots never withdraws access: a candidate
    accepted for a list of export roots is accepted for every list
    that holds the same roots, in any order and with any repetitions
    or additions. *)
Theorem export_roots_monotone (env : Env) (c v : string) (roots roots' : list string) :
  incl roots roots' ->
  isPathInAllowedExportPaths env c roots v = Some true ->
  isPathInAllowedExportPaths env c roots' v = Some true.
Proof.
  intros Hincl H. apply isPathInAllowedExportPaths_true in H.
  destruct H as (rc & Hrc & H). apply isPathInAllowedExportPaths_true.
  exists rc. split; [exact Hrc|]. apply exportLoop_true in H.
  destruct H as (e & re & Hin & H1 & H2). apply exportLoop_true.
  exists e, re. auto.
Qed.

Lemma export_roots_monotone_witness :
  isPathInAllowedExportPaths plainEnv "/tmp/out.md" ["~/Desktop"; "/tmp"; "/tmp"] "/vault"
  = Some true.
Proof.
  apply (@export_roots_monotone plainEnv "/tmp/out.md" "/vault" ["/tmp"]).
  - intros x [<-|[]]. right; left; reflexivity.
  - reflexivity.
Defined.

(** X6.  On absolute paths containment is a preorder in every
    environment: a path is within itself, and a path within a directory
    that is within a vault root is within that root. *)
Theorem containment_preorder (env : Env) (a b c : string) :
  isAbsolute a = true -> isAbsolute b = true ->
  isPathWithinVault env a a = Some true
  /\ (isPathWithinVault env a b = Some true ->
      isPathWithinVault env b c = Some true ->
      isPathWithinVault env a c = Some true).
Proof.
  intros Ha Hb. unfold isPathWithinVault.
  rewrite !absolute_candidate by assumption.
  destruct (resolveRealPath_total env a) as [ra ->].
  destruct (resolveRealPath_total env b) as [rb ->].
  destruct (resolveRealPath_total env c) as [rc ->].
  split.
  - unfold equalsOrUnder. rewrite String.eqb_refl. reflexivity.
  - intros H1 H2. injection H1 as H1. injection H2 as H2. f_equal.
    apply equalsOrUnder_within. apply equalsOrUnder_within in H1, H2.
    eapply withinOrEqual_trans; eassumption.
Qed.

Lemma containment_preorder_witness :
  isPathWithinVault symlinkEnv "/vault/export/2024" "/vault/export/2024" = Some true
  /\ isPathWithinVault symlinkEnv "/vault/export/2024" "/tmp" = Some true.
Proof.
  pose proof (@containment_preorder symlinkEnv "/vault/export/2024" "/vault/export" "/tmp"
                eq_refl eq_refl) as [Hrefl Htrans].
  split; [exact Hrefl|]. apply Htrans; reflexivity.
Defined.

(** X7.  Where no symbolic link is involved a trailing separator on the
    vault path makes no difference to the vault check. *)
Theorem vault_trailing_separator (env : Env) (c v : string) :
  symlinkFree env -> v <> "" ->
  isPathWithinVault env c (v ++ "/") = isPathWithinVault env c v.
Proof.
  intros Hfree Hv. rewrite !isPathWithinVault_lexical by assumption.
  rewrite !(@resolve_one (cwd env) _ (proj1 Hfree)), rootSegs_trailing by assumption.
  unfold absoluteIn. destruct (isAbsolute (expandHome env c)) eqn:A; [reflexivity|].
  rewrite !resolve_two, rootSegs_trailing by (assumption || apply Hfree).
  reflexivity.
Qed.

Lemma vault_trailing_separator_witness :
  isPathWithinVault plainEnv "notes/a.md" ("/vault" ++ "/")
  = isPathWithinVault plainEnv "notes/a.md" "/vault".
Proof.
  apply (@vault_trailing_separator plainEnv "notes/a.md" "/vault").
  - split; [reflexivity|]. intros p r H. injection H as <-. reflexivity.
  - discriminate.
Defined.

(** X8.  An export root is resolved on its own, against the working
    directory and never against the vault: where no symbolic link is
    involved an export root may be replaced by its resolved form
    without changing the check, so a relative export root lies below
    the vault only when the working directory does. *)
Theorem export_root_resolves_against_cwd
  (env : Env) (c e v : string) (roots : list string) :
  symlinkFree env -> startsWith e "~/" = false ->
  isPathInAllowedExportPaths env c (e :: roots) v
  = isPathInAllowedExportPaths env c (resolve (cwd env) [e] :: roots) v.
Proof.
  intros Hfree He. unfold isPathInAllowedExportPaths. cbn [List.length Nat.eqb exportLoop].
  destruct (resolveRealPath env (absoluteIn env v (expandHome env c))) as [rc|];
    [|reflexivity].
  assert (E1 : expandHome env e = e) by (unfold expandHome; rewrite He; reflexivity).
  assert (E2 : expandHome env (resolve (cwd env) [e]) = resolve (cwd env) [e]).
  { unfold expandHome. rewrite absolute_not_tilde; [reflexivity|].
    rewrite (@resolve_one (cwd env) e (proj1 Hfree)). reflexivity. }
  rewrite E1, E2, !resolveRealPath_lexical by assumption.
  rewrite (@resolve_one (cwd env) e (proj1 Hfree)).
  rewrite resolve_render by apply rootSegs_plain. reflexivity.
Qed.

Lemma export_root_resolves_against_cwd_witness :
  isPathInAllowedExportPaths plainEnv "exports/a.md" ["exports"] "/vault"
  = isPathInAllowedExportPaths plainEnv "exports/a.md" ["/exports"] "/vault".
Proof.
  apply (@export_root_resolves_against_cwd plainEnv "exports/a.md" "exports" "/vault" []).
  - split; [reflexivity|]. intros p r H. injection H as <-. reflexivity.
  - reflexivity.
Defined.

End PathProperties.

(* ================================================================== *)
(** ** Environment variables, models and the CLI path: properties *)
(* ================================================================== *)

Module EnvProperties.
Import JsString JsObject UtilsEnv StringFacts EnvFacts EnvSpec.

Ltac decide_eqb :=
  repeat match goal with
  | |- context [(?x =? ?x)%string] => rewrite (String.eqb_refl x)
  | H : ?x <> ?y |- context [(?x =? ?y)%string] =>
      rewrite (proj2 (String.eqb_neq x y) H)
  | H : ?y <> ?x |- context [(?x =? ?y)%string] =>
      rewrite (proj2 (String.eqb_neq x y) (not_eq_sym H))
  end.

Ltac no_char := unfold noChar; cbn; intuition discriminate.

(** *** [findClaudeCLIPath] *)

(** X9.  [findClaudeCLIPath] returns the first of its five candidates
    that exists, and [null] exactly when none of them exists. *)
Theorem findClaudeCLIPath_first_existing (env : Env) :
  match findClaudeCLIPath env with
  | Some p =>
      existsSync env p = true /\
      exists before after,
        commonPaths (homedir env) = before ++ p :: after /\
        Forall (fun q => existsSync env q = false) before
  | None => Forall (fun q => existsSync env q = false) (commonPaths (homedir env))
  end.
Proof.
  unfold findClaudeCLIPath.
  induction (commonPaths (homedir env)) as [|p paths IH]; cbn [firstExisting];
    [constructor|].
  destruct (existsSync env p) eqn:E.
  - split; [exact E|]. exists [], paths. split; [reflexivity | constructor].
  - destruct (firstExisting env paths) as [q|].
    + destruct IH as (Hq & before & after & -> & Hb). split; [exact Hq|].
      exists (p :: before), after. split; [reflexivity | constructor; assumption].
    + constructor; assumption.
Qed.

(** X10.  With an absolute home directory every path that
    [findClaudeCLIPath] returns is absolute. *)
Theorem findClaudeCLIPath_absolute (env : Env) (p : string) :
  NodePath.isAbsolute (homedir env) = true ->
  findClaudeCLIPath env = Some p ->
  NodePath.isAbsolute p = true.
Proof.
  intros Hhome H. pose proof (firstExisting_spec env (commonPaths (homedir env))) as S.
  unfold findClaudeCLIPath in H. rewrite H in S.
  destruct S as (_ & before & after & E & _).
  assert (Hin : In p (commonPaths (homedir env))).
  { rewrite E. apply in_or_app. right. left. reflexivity. }
  unfold commonPaths in Hin.
  repeat (destruct Hin as [<-|Hin];
          [first [apply PathProperties.join_paths_absolute; assumption | reflexivity]|]).
  contradiction.
Qed.

Lemma findClaudeCLIPath_absolute_witness :
  NodePath.isAbsolute "/home/test/bin/claude" = true.
Proof.
  apply (@findClaudeCLIPath_absolute
           (mkEnv (fun _ => None) (fun p => (p =? "/home/test/bin/claude")%string)
                  "/home/test" "/")
           "/home/test/bin/claude").
  - reflexivity.
  - reflexivity.
Defined.

(** *** [parseEnvironmentVariables] *)

Lemma parseLine_shape (result : Record_) (line : string) :
  noChar lineFeed line ->
  Forall (fun e =>
            (fst e <> "" /\ trim (fst e) = fst e /\ noChar "="%char (fst e) /\
             noChar lineFeed (fst e) /\ startsWith (fst e) "#" = false /\
             fst e <> "__proto__")
            /\ (trim (snd e) = snd e /\ noChar lineFeed (snd e))) result ->
  Forall (fun e =>
            (fst e <> "" /\ trim (fst e) = fst e /\ noChar "="%char (fst e) /\
             noChar lineFeed (fst e) /\ startsWith (fst e) "#" = false /\
             fst e <> "__proto__")
            /\ (trim (snd e) = snd e /\ noChar lineFeed (snd e))) (parseLine result line).
Proof.
  intros Hline H.
  destruct (first_occurrence "="%char line) as [Hno | (pre & post & -> & Hpre)].
  - rewrite parseLine_without_eq by assumption. exact H.
  - rewrite parseLine_with_eq by assumption.
    apply noChar_append in Hline. destruct Hline as [Hlpre Hlpost].
    assert (Hlpost' : noChar lineFeed post).
    { intros Hin. apply Hlpost. right. exact Hin. }
    destruct (String.eqb_spec (trim pre) "") as [|Hne]; [exact H|].
    destruct (startsWith (trim pre) "#") eqn:Hhash; [exact H|]. cbn [orb].
    unfold setProp. destruct (String.eqb_spec (trim pre) "__proto__") as [|Hproto]; [exact H|].
    apply (assign_Forall
             (fun k => k <> "" /\ trim k = k /\ noChar "="%char k /\ noChar lineFeed k /\
                       startsWith k "#" = false /\ k <> "__proto__")
             (fun v => trim v = v /\ noChar lineFeed v)); [exact H | |].
    + repeat split; auto using trim_idem, trim_noChar.
    + split; auto using trim_idem, trim_noChar.
Qed.

(** X11.  Every entry that [parseEnvironmentVariables] returns has a
    key that is not empty, is trimmed, holds no ["="] and no line break,
    does not begin with ["#"] and is not ["__proto__"]; its value is
    trimmed and holds no line break. *)
Theorem parseEnvironmentVariables_entries (input k v : string) :
  getProp (parseEnvironmentVariables input) k = Some v ->
  (k <> "" /\ trim k = k /\ noChar "="%char k /\ noChar lineFeed k /\
   startsWith k "#" = false /\ k <> "__proto__")
  /\ (trim v = v /\ noChar lineFeed v).
Proof.
  intros H. apply getProp_In in H.
  assert (Hall : forall lines result,
             Forall (noChar lineFeed) lines ->
             Forall (fun e =>
                       (fst e <> "" /\ trim (fst e) = fst e /\ noChar "="%char (fst e) /\
                        noChar lineFeed (fst e) /\ startsWith (fst e) "#" = false /\
                        fst e <> "__proto__")
                       /\ (trim (snd e) = snd e /\ noChar lineFeed (snd e))) result ->
             Forall (fun e =>
                       (fst e <> "" /\ trim (fst e) = fst e /\ noChar "="%char (fst e) /\
                        noChar lineFeed (fst e) /\ startsWith (fst e) "#" = false /\
                        fst e <> "__proto__")
                       /\ (trim (snd e) = snd e /\ noChar lineFeed (snd e)))
                    (fold_left parseLine lines result)).
  { induction lines as [|line lines IH]; intros result Hlines Hres; [exact Hres|].
    inversion Hlines; subst. cbn [fold_left]. apply IH; [assumption|].
    apply parseLine_shape; assumption. }
  specialize (Hall (split lineFeed input) [] (split_noChar_all lineFeed input) (Forall_nil _)).
  rewrite Forall_forall in Hall. apply (Hall (k, v)), H.
Qed.

Lemma parseEnvironmentVariables_entries_witness :
  ("API_URL" <> "" /\ trim "API_URL" = "API_URL" /\ noChar "="%char "API_URL" /\
   noChar lineFeed "API_URL" /\ startsWith "API_URL" "#" = false /\ "API_URL" <> "__proto__")
  /\ (trim "https://e.com?a=b" = "https://e.com?a=b" /\ noChar lineFeed "https://e.com?a=b").
Proof.
  apply (@parseEnvironmentVariables_entries
           ("# proxy" ++ String lineFeed "  API_URL = https://e.com?a=b  ")
           "API_URL" "https://e.com?a=b").
  reflexivity.
Defined.

(** X12.  A line [pre=post], cut at its first ["="]: when [pre]
    trimmed is not empty, does not begin with ["#"] and is not
    ["__proto__"], the line binds the key [pre] trimmed to the value
    [post] trimmed (further ["="] signs belong to the value).  As the
    last line it overrides what the earlier lines gave that key and
    leaves every other key as it was; as the only line it gives the
    one entry. *)
Theorem parseEnvironmentVariables_binding (input pre post : string) :
  noChar "="%char pre -> noChar lineFeed pre -> noChar lineFeed post ->
  trim pre <> "" -> startsWith (trim pre) "#" = false -> trim pre <> "__proto__" ->
  getProp (parseEnvironmentVariables (input ++ String lineFeed (pre ++ String "="%char post)))
          (trim pre) = Some (trim post)
  /\ (forall k, k <> trim pre ->
        getProp (parseEnvironmentVariables
                   (input ++ String lineFeed (pre ++ String "="%char post))) k
        = getProp (parseEnvironmentVariables input) k)
  /\ parseEnvironmentVariables (pre ++ String "="%char post) = [(trim pre, trim post)].
Proof.
  intros Hpre Hlpre Hlpost Hne Hhash Hproto.
  assert (Hline : noChar lineFeed (pre ++ String "="%char post)).
  { apply noChar_append. split; [assumption|]. intros [E|Hin]; [discriminate | auto]. }
  assert (Hstep : forall result,
             parseLine result (pre ++ String "="%char post)
             = assign result (trim pre) (trim post)).
  { intros result. rewrite parseLine_with_eq by assumption.
    apply String.eqb_neq in Hne, Hproto. rewrite Hne, Hhash. cbn [orb].
    unfold setProp. rewrite Hproto. reflexivity. }
  rewrite parse_append_line, Hstep by assumption. split; [|split].
  - apply getProp_assign_same.
  - intros k Hk. apply getProp_assign_other, Hk.
  - unfold parseEnvironmentVariables. rewrite (split_noChar Hline). cbn [fold_left].
    apply Hstep.
Qed.

Lemma parseEnvironmentVariables_binding_witness :
  getProp (parseEnvironmentVariables
             ("KEY=old" ++ String lineFeed ("  KEY " ++ String "="%char " a=b  ")))
          "KEY" = Some "a=b".
Proof.
  apply (@parseEnvironmentVariables_binding "KEY=old" "  KEY " " a=b  ");
    try no_char; try reflexivity; discriminate.
Defined.

(** X13.  Lines that bind nothing: a line without ["="] (blank lines
    and comments among them), and a line whose text before the first
    ["="] trims to the empty string, to a text that begins with ["#"],
    or to ["__proto__"].  Such a line can be removed from the input, in
    the middle, at the end or at the start, without changing the
    result. *)
Theorem parseEnvironmentVariables_ignored_line (a b line : string) :
  noChar lineFeed line ->
  (noChar "="%char line \/
   exists pre post,
     line = (pre ++ String "="%char post)%string /\ noChar "="%char pre /\
     (trim pre = "" \/ startsWith (trim pre) "#" = true \/ trim pre = "__proto__")) ->
  parseEnvironmentVariables (a ++ String lineFeed (line ++ String lineFeed b))
  = parseEnvironmentVariables (a ++ String lineFeed b)
  /\ parseEnvironmentVariables (a ++ String lineFeed line) = parseEnvironmentVariables a
  /\ parseEnvironmentVariables (line ++ String lineFeed b) = parseEnvironmentVariables b.
Proof.
  intros Hline Hcase.
  assert (Hstep : forall result, parseLine result line = result).
  { intros result. destruct Hcase as [Hno | (pre & post & -> & Hpre & Hwhy)].
    - apply parseLine_without_eq, Hno.
    - rewrite parseLine_with_eq by assumption.
      destruct Hwhy as [E | [E | E]].
      + rewrite E. reflexivity.
      + rewrite E, orb_true_r. reflexivity.
      + rewrite E. reflexivity. }
  split; [|split].
  - rewrite !parse_append. rewrite split_append_sep, fold_left_app.
    rewrite (split_noChar Hline). cbn [fold_left]. rewrite Hstep. reflexivity.
  - rewrite parse_append_line, Hstep by assumption. reflexivity.
  - rewrite parse_first_line, Hstep by assumption. reflexivity.
Qed.

Lemma parseEnvironmentVariables_ignored_line_witness :
  parseEnvironmentVariables ("A=1" ++ String lineFeed ("  # B=2" ++ String lineFeed "C=3"))
  = parseEnvironmentVariables ("A=1" ++ String lineFeed "C=3").
Proof.
  apply (@parseEnvironmentVariables_ignored_line "A=1" "C=3" "  # B=2").
  - no_char.
  - right. exists "  # B", "2". split; [reflexivity|]. split; [no_char|].
    right. left. reflexivity.
Defined.

(** X14.  An input without any ["="] gives the empty object. *)
Theorem parseEnvironmentVariables_without_eq (input : string) :
  noChar "="%char input -> parseEnvironmentVariables input = [].
Proof.
  intros H. unfold parseEnvironmentVariables.
  pose proof (split_keeps_noChar lineFeed H) as Hlines.
  induction Hlines as [|line lines Hl _ IH]; [reflexivity|].
  cbn [fold_left]. rewrite parseLine_without_eq by assumption. exact IH.
Qed.

Lemma parseEnvironmentVariables_without_eq_witness :
  parseEnvironmentVariables ("# only a comment" ++ String lineFeed "and some text") = [].
Proof. apply parseEnvironmentVariables_without_eq. no_char. Defined.

(** *** [getModelsFromEnvironment] and [getCurrentModelFromEnvironment] *)

(** X15.  The current model is the first of the model options:
    [getCurrentModelFromEnvironment] returns the value of the first
    entry of [getModelsFromEnvironment], and [null] exactly when there
    is no option. *)
Theorem current_model_is_first_option (envVars : Record_) :
  getCurrentModelFromEnvironment envVars
  = option_map value (hd_error (getModelsFromEnvironment envVars)).
Proof.
  unfold getModelsFromEnvironment, collectModels, getCurrentModelFromEnvironment.
  cbn [fold_left modelEnvEntries collectEntry].
  destruct (truthy (getProp envVars "ANTHROPIC_MODEL")) as [a|];
  destruct (truthy (getProp envVars "ANTHROPIC_DEFAULT_OPUS_MODEL")) as [b|];
  destruct (truthy (getProp envVars "ANTHROPIC_DEFAULT_SONNET_MODEL")) as [c|];
  destruct (truthy (getProp envVars "ANTHROPIC_DEFAULT_HAIKU_MODEL")) as [d|];
  cbn [mapHas negb app orb];
  repeat match goal with
  | |- context [(?x =? ?y)%string] =>
      destruct (String.eqb_spec x y); [subst|];
      cbn [mapHas negb app orb mapPushType types label]
  end; try reflexivity; congruence.
Qed.

(** X16.  The model options are deduplicated by value, and their
    values are exactly the non-empty values of the four
    [ANTHROPIC_*] model variables. *)
Theorem model_values_deduplicated (envVars : Record_) :
  NoDup (map value (getModelsFromEnvironment envVars))
  /\ forall v,
       In v (map value (getModelsFromEnvironment envVars)) <->
       v <> "" /\ exists type envKey,
                    In (type, envKey) modelEnvEntries /\ getProp envVars envKey = Some v.
Proof.
  assert (E : map value (getModelsFromEnvironment envVars)
              = map fst (sortDesc (fun entry => maxPriority (types (snd entry)))
                                  (collectModels envVars))).
  { unfold getModelsFromEnvironment. rewrite map_map. reflexivity. }
  rewrite E. split.
  - apply sortDesc_map_NoDup. apply (collect_NoDup envVars modelEnvEntries []). constructor.
  - intros v.
    assert (S : In v (map fst (sortDesc (fun entry => maxPriority (types (snd entry)))
                                        (collectModels envVars)))
                <-> In v (map fst (collectModels envVars))).
    { rewrite !in_map_iff. split; intros (x & Hx & Hin); exists x; split; auto;
        apply (sortDesc_In (fun entry => maxPriority (types (snd entry)))); assumption. }
    rewrite S. unfold collectModels. rewrite collect_keys. cbn [map]. split.
    + intros [[]|([t key] & Hin & H)]. apply truthy_some in H. destruct H as [H Hv].
      split; [exact Hv|]. exists t, key. auto.
    + intros (Hv & t & key & Hin & H). right. exists (t, key). split; [exact Hin|].
      apply truthy_some. auto.
Qed.

(** X17.  The description of a model option names, in the order model,
    opus, sonnet, haiku, exactly the variables that hold its value. *)
Theorem model_descriptions (envVars : Record_) (o : ModelOption) :
  In o (getModelsFromEnvironment envVars) ->
  description o
  = ("Custom model (" ++ join ", " (carriers envVars (value o)) ++ ")")%string.
Proof.
  unfold getModelsFromEnvironment, collectModels, carriers.
  cbn [fold_left modelEnvEntries collectEntry filter snd].
  intros H. apply in_map_iff in H. destruct H as (en & <- & H).
  apply sortDesc_In in H. cbn [value description]. revert H.
  destruct (truthy (getProp envVars "ANTHROPIC_MODEL")) as [a|];
  destruct (truthy (getProp envVars "ANTHROPIC_DEFAULT_OPUS_MODEL")) as [b|];
  destruct (truthy (getProp envVars "ANTHROPIC_DEFAULT_SONNET_MODEL")) as [c|];
  destruct (truthy (getProp envVars "ANTHROPIC_DEFAULT_HAIKU_MODEL")) as [d|];
  cbn [mapHas negb app orb]; intros H;
  repeat match type of H with
  | context [(?x =? ?y)%string] =>
      destruct (String.eqb_spec x y); [subst|];
      cbn [mapHas negb app orb mapPushType types label] in H
  end.
  all: repeat (destruct H as [<-|H];
               [cbn [fst snd types]; decide_eqb; try reflexivity|]);
    try contradiction.
Qed.

Lemma model_descriptions_witness :
  description (mkOption "my-custom-model" "My Custom Model" "Custom model (model, opus)")
  = ("Custom model (" ++ join ", " (carriers sampleEnvVars "my-custom-model") ++ ")")%string.
Proof.
  apply (@model_descriptions sampleEnvVars
           (mkOption "my-custom-model" "My Custom Model" "Custom model (model, opus)")).
  left. reflexivity.
Defined.

Lemma modelLabel_spec (v : string) :
  v <> "" ->
  modelLabel v <> ""
  /\ (includes v "/" = true ->
      (modelLabel v = v /\ exists pre, v = (pre ++ "/")%string)
      \/ (exists pre, v = (pre ++ "/" ++ modelLabel v)%string
                      /\ noChar "/"%char (modelLabel v)))
  /\ (includes v "/" = false ->
      dashesToSpaces (toLowerCase (modelLabel v)) = dashesToSpaces (toLowerCase v)).
Proof.
  intros Hv. unfold modelLabel. destruct (includes v "/") eqn:I.
  - apply includes_char in I.
    destruct (last_occurrence "/"%char v) as [Hno | (pre & post & -> & Hpost)];
      [contradiction|].
    rewrite (last_split pre Hpost).
    destruct (String.eqb_spec post "") as [->|Hne].
    + split; [exact Hv|]. split; [|discriminate]. intros _. left.
      split; [reflexivity | exists pre; reflexivity].
    + split; [exact Hne|]. split; [|discriminate]. intros _. right.
      exists pre. split; [reflexivity | exact Hpost].
  - split; [|split; [discriminate|]].
    + intros E. apply (f_equal String.length) in E.
      rewrite length_capitalizeWords, length_dashesToSpaces in E.
      destruct v; [congruence | discriminate].
    + intros _. apply label_folds_to_value.
Qed.

(** X18.  The label of a model option is never empty.  For a value
    that holds a ["/"] it is the text after the last ["/"], or the whole
    value when the value ends with ["/"].  For any other value it is the
    value up to letter case, with dashes shown as spaces. *)
Theorem model_labels (envVars : Record_) (o : ModelOption) :
  In o (getModelsFromEnvironment envVars) ->
  optionLabel o <> ""
  /\ (includes (value o) "/" = true ->
      (optionLabel o = value o /\ exists pre, value o = (pre ++ "/")%string)
      \/ (exists pre, value o = (pre ++ "/" ++ optionLabel o)%string
                      /\ noChar "/"%char (optionLabel o)))
  /\ (includes (value o) "/" = false ->
      dashesToSpaces (toLowerCase (optionLabel o))
      = dashesToSpaces (toLowerCase (value o))).
Proof.
  intros H. unfold getModelsFromEnvironment in H. apply in_map_iff in H.
  destruct H as (en & <- & H). apply sortDesc_In in H. cbn [value optionLabel].
  pose proof (collect_labels envVars modelEnvEntries (Forall_nil _)) as Hall.
  rewrite Forall_forall in Hall. destruct (Hall en H) as [Hne ->].
  apply modelLabel_spec, Hne.
Qed.

Lemma model_labels_witness :
  "fast-model" <> ""
  /\ (includes "org/fast-model" "/" = true ->
      ("fast-model" = "org/fast-model" /\ exists pre, "org/fast-model" = (pre ++ "/")%string)
      \/ (exists pre, "org/fast-model" = (pre ++ "/" ++ "fast-model")%string
                      /\ noChar "/"%char "fast-model"))
  /\ (includes "org/fast-model" "/" = false ->
      dashesToSpaces (toLowerCase "fast-model")
      = dashesToSpaces (toLowerCase "org/fast-model")).
Proof.
  apply (@model_labels sampleEnvVars
           (mkOption "org/fast-model" "fast-model" "Custom model (haiku)")).
  right. left. reflexivity.
Defined.

(** X19.  Parsing and model selection together: whatever the input
    holds, a last line [ANTHROPIC_MODEL=v] with a non-blank [v] makes
    [v] trimmed the current model, before every other model variable
    and every earlier value of [ANTHROPIC_MODEL]. *)
Theorem model_line_selects_model (input v : string) :
  noChar lineFeed v -> trim v <> "" ->
  getCurrentModelFromEnvironment
    (parseEnvironmentVariables (input ++ String lineFeed ("ANTHROPIC_MODEL=" ++ v)))
  = Some (trim v).
Proof.
  intros Hl Hv.
  assert (Hline : noChar lineFeed ("ANTHROPIC_MODEL=" ++ v)).
  { apply noChar_append. split; [no_char | assumption]. }
  rewrite parse_append_line by assumption.
  change ("ANTHROPIC_MODEL=" ++ v)%string
    with ("ANTHROPIC_MODEL" ++ String "="%char v)%string.
  rewrite parseLine_with_eq by no_char.
  change (trim "ANTHROPIC_MODEL") with "ANTHROPIC_MODEL".
  cbn [String.eqb Ascii.eqb Bool.eqb orb startsWith String.prefix]. cbn.
  unfold getCurrentModelFromEnvironment.
  rewrite getProp_assign_same. unfold truthy.
  apply String.eqb_neq in Hv. rewrite Hv. reflexivity.
Qed.

Lemma model_line_selects_model_witness :
  getCurrentModelFromEnvironment
    (parseEnvironmentVariables
       ("ANTHROPIC_MODEL=old" ++ String lineFeed ("ANTHROPIC_MODEL=" ++ " org/new-model ")))
  = Some "org/new-model".
Proof.
  apply (@model_line_selects_model "ANTHROPIC_MODEL=old" " org/new-model ").
  - no_char.
  - discriminate.
Defined.

End EnvProperties.

(* ================================================================== *)
(** ** The export instructions and the display helpers: properties *)
(* ================================================================== *)

Module UiProperties.
Import JsString UtilsEnv StringFacts EnvFacts SystemPrompt ToolCallRenderer UiFacts.

Lemma nonEmpty_true (s : string) : nonEmpty s = true <-> s <> "".
Proof. unfold nonEmpty. rewrite negb_true_iff. apply String.eqb_neq. Qed.

Lemma uniquePaths_In (paths : list string) (x : string) :
  In x (newSet (filter nonEmpty (map trim paths))) <->
  x <> "" /\ exists p, In p paths /\ trim p = x.
Proof.
  rewrite newSet_In, filter_In, in_map_iff, nonEmpty_true. split.
  - intros [(p & E & Hp) Hx]. split; [exact Hx|]. exists p. auto.
  - intros [Hx (p & Hp & E)]. split; [exists p; auto | exact Hx].
Qed.

(** *** [getExportInstructions] *)

(** X20.  [getExportInstructions] returns the empty string exactly
    when every export path is blank (the empty list included);
    otherwise the section is written. *)
Theorem getExportInstructions_empty_iff (paths : list string) :
  getExportInstructions paths = "" <-> Forall (fun p => trim p = "") paths.
Proof.
  unfold getExportInstructions. destruct paths as [|p0 paths].
  - split; [constructor | reflexivity].
  - cbn [List.length Nat.eqb]. set (l := p0 :: paths).
    destruct (newSet (filter nonEmpty (map trim l))) as [|u0 u] eqn:U.
    + split; [|reflexivity]. intros _. apply Forall_forall. intros p Hp.
      destruct (String.eqb_spec (trim p) "") as [E|E]; [exact E|]. exfalso.
      assert (Hin : In (trim p) (newSet (filter nonEmpty (map trim l)))).
      { apply uniquePaths_In. split; [exact E|]. exists p. auto. }
      rewrite U in Hin. exact Hin.
    + cbn [List.length Nat.eqb]. split.
      * intros H. exfalso. eapply exportTemplate_nonempty, H.
      * intros H. exfalso.
        assert (Hin : In u0 (newSet (filter nonEmpty (map trim l))))
          by (rewrite U; left; reflexivity).
        apply uniquePaths_In in Hin. destruct Hin as [Hne (p & Hp & E)].
        rewrite Forall_forall in H. apply Hne. rewrite <- E. apply H, Hp.
Qed.

(** X21.  A blank export path, or one whose trimmed form an earlier
    path already has, adds nothing to the instructions. *)
Theorem getExportInstructions_redundant_path (paths : list string) (p : string) :
  trim p = "" \/ In (trim p) (map trim paths) ->
  getExportInstructions (paths ++ [p]) = getExportInstructions paths.
Proof.
  intros H. unfold getExportInstructions.
  assert (Hlen : Nat.eqb (List.length (paths ++ [p])) 0 = false).
  { rewrite length_app. cbn [List.length]. apply Nat.eqb_neq. lia. }
  rewrite Hlen, map_app, filter_app. cbn [map filter].
  destruct (String.eqb_spec (trim p) "") as [E|E].
  - assert (Hn : nonEmpty (trim p) = false) by (rewrite E; reflexivity).
    rewrite Hn, app_nil_r. destruct paths; reflexivity.
  - destruct H as [H|H]; [contradiction|].
    assert (Hn : nonEmpty (trim p) = true) by (apply nonEmpty_true, E).
    rewrite Hn, newSet_snoc, setAdd_present.
    + destruct paths; [contradiction | reflexivity].
    + apply newSet_In, filter_In. auto.
Qed.

Lemma getExportInstructions_redundant_path_witness :
  getExportInstructions (["~/Desktop"; "/tmp"] ++ ["  ~/Desktop "])
  = getExportInstructions ["~/Desktop"; "/tmp"].
Proof.
  apply (@getExportInstructions_redundant_path ["~/Desktop"; "/tmp"] "  ~/Desktop ").
  right. left. reflexivity.
Defined.

(** X22.  Every export path that is not blank is listed: its trimmed
    form stands on a bullet line of its own in the instructions. *)
Theorem getExportInstructions_lists_paths (paths : list string) (p : string) :
  In p paths -> trim p <> "" ->
  includes (getExportInstructions paths) (newline ++ "- " ++ trim p ++ newline) = true.
Proof.
  intros Hp Hne. unfold getExportInstructions.
  destruct paths as [|p0 paths]; [contradiction|]. cbn [List.length Nat.eqb].
  set (l := p0 :: paths) in *.
  assert (Hin : In (trim p) (newSet (filter nonEmpty (map trim l)))).
  { apply uniquePaths_In. split; [exact Hne|]. exists p. auto. }
  destruct (newSet (filter nonEmpty (map trim l))) as [|u0 u] eqn:U; [contradiction|].
  cbn [List.length Nat.eqb]. unfold exportTemplate.
  rewrite join_around by discriminate.
  destruct (joined_item newline (fun q => ("- " ++ q)%string) (u0 :: u) (trim p) Hin)
    as (before & after & E).
  rewrite E.
  change (newline ++ "- " ++ trim p ++ newline)%string
    with (newline ++ ("- " ++ trim p) ++ newline)%string.
  set (pat := (newline ++ ("- " ++ trim p) ++ newline)%string).
  assert (R : (join newline templateHead ++ (before ++ pat ++ after)
               ++ join newline templateTail)%string
              = ((join newline templateHead ++ before) ++ pat
                 ++ (after ++ join newline templateTail))%string).
  { rewrite !append_assoc. reflexivity. }
  rewrite R. apply includes_append.
Qed.

Lemma getExportInstructions_lists_paths_witness :
  includes (getExportInstructions ["  ~/Desktop "; ""; "/tmp"])
           (newline ++ "- " ++ trim "/tmp" ++ newline) = true.
Proof.
  apply (@getExportInstructions_lists_paths ["  ~/Desktop "; ""; "/tmp"] "/tmp").
  - right. right. left. reflexivity.
  - discriminate.
Defined.

(** *** [shortenPath] *)

Lemma shortenPath_long (p : string) :
  3 < List.length (split "/"%char p) ->
  exists pre a b,
    split "/"%char p = pre ++ [a; b]
    /\ shortenPath (Some p) = (".../" ++ a ++ "/" ++ b)%string
    /\ split "/"%char (shortenPath (Some p)) = ["..."; a; b].
Proof.
  intros Hlen.
  destruct (@sliceLastTwo_spec _ (split "/"%char p)) as (pre & a & b & E & S); [lia|].
  pose proof (split_noChar_all "/"%char p) as Hall. rewrite E in Hall.
  apply Forall_app in Hall. destruct Hall as [_ Hall].
  inversion Hall as [|? ? Ha Hb']; subst. inversion Hb' as [|? ? Hb _]; subst.
  assert (Hs : shortenPath (Some p) = (".../" ++ a ++ "/" ++ b)%string).
  { unfold shortenPath. destruct (String.eqb_spec p "") as [->|_]; [simpl in Hlen; lia|].
    apply Nat.leb_gt in Hlen. rewrite Hlen, S. reflexivity. }
  exists pre, a, b. split; [exact E|]. split; [exact Hs|]. rewrite Hs.
  change (".../" ++ a ++ "/" ++ b)%string
    with ("..." ++ String "/"%char (a ++ String "/"%char b))%string.
  rewrite !split_append_sep, (split_noChar Ha), (split_noChar Hb). reflexivity.
Qed.

(** X23.  [shortenPath] is idempotent, its result has at most three
    ["/"]-separated parts, and it keeps the last part of the path (the
    file name). *)
Theorem shortenPath_display (p : string) :
  shortenPath (Some (shortenPath (Some p))) = shortenPath (Some p)
  /\ List.length (split "/"%char (shortenPath (Some p))) <= 3
  /\ last (split "/"%char (shortenPath (Some p))) "" = last (split "/"%char p) "".
Proof.
  destruct (Nat.leb (List.length (split "/"%char p)) 3) eqn:L.
  - assert (Hs : shortenPath (Some p) = p).
    { unfold shortenPath. rewrite L. destruct (String.eqb_spec p ""); congruence. }
    rewrite Hs. split; [exact Hs|]. split; [apply Nat.leb_le, L | reflexivity].
  - apply Nat.leb_gt in L. destruct (shortenPath_long p L) as (pre & a & b & E & Hs & Hsplit).
    split; [|split].
    + unfold shortenPath at 1. rewrite Hsplit. cbn [List.length Nat.leb].
      rewrite Hs. reflexivity.
    + rewrite Hsplit. cbn. lia.
    + rewrite Hsplit, E. cbn [last].
      change (pre ++ [a; b]) with (pre ++ [a] ++ [b]). rewrite app_assoc, last_last.
      reflexivity.
Qed.

(** *** [truncateResult] *)

(** X24.  For a positive [maxLines], [truncateResult] returns at most
    [maxLines + 1] lines, the first [maxLines] of which are those of
    the input cut to [maxLength] characters; and when that cut input
    has no more than [maxLines] lines it is returned as it is. *)
Theorem truncateResult_lines (result : string) (maxLines maxLength : nat) :
  0 < maxLines ->
  List.length (split lineFeed (truncateResult result maxLines maxLength)) <= maxLines + 1
  /\ firstn maxLines (split lineFeed (truncateResult result maxLines maxLength))
     = firstn maxLines (split lineFeed (substring 0 maxLength result))
  /\ (List.length (split lineFeed (substring 0 maxLength result)) <= maxLines ->
      truncateResult result maxLines maxLength = substring 0 maxLength result).
Proof.
  intros Hpos. unfold truncateResult.
  assert (Hcut : (if Nat.ltb maxLength (String.length result)
                  then substring 0 maxLength result else result)
                 = substring 0 maxLength result).
  { destruct (Nat.ltb maxLength (String.length result)) eqn:L; [reflexivity|].
    apply Nat.ltb_ge in L. symmetry. apply substring_all, L. }
  rewrite Hcut. set (lines := split lineFeed (substring 0 maxLength result)).
  destruct (Nat.ltb maxLines (List.length lines)) eqn:L.
  - apply Nat.ltb_lt in L.
    set (tail := (decimal (List.length lines - maxLines) ++ " more lines")%string).
    assert (Htail : noChar lineFeed tail).
    { apply noChar_append. split; [apply decimal_noChar_lineFeed|].
      unfold noChar. cbn. intuition discriminate. }
    assert (Hkept : Forall (noChar lineFeed) (firstn maxLines lines)).
    { apply Forall_forall. intros x Hx.
      assert (Hx' : In x lines)
        by (rewrite <- (firstn_skipn maxLines lines); apply in_or_app; left; exact Hx).
      clear Hx. rename Hx' into Hx.
      pose proof (split_noChar_all lineFeed (substring 0 maxLength result)) as Hall.
      rewrite Forall_forall in Hall. apply Hall, Hx. }
    assert (Hne : firstn maxLines lines <> []).
    { intros E. apply (f_equal (@List.length string)) in E.
      rewrite length_firstn in E. cbn in E. lia. }
    assert (Hsplit : split lineFeed (join newline (firstn maxLines lines)
                                     ++ newline ++ tail)
                     = firstn maxLines lines ++ [tail]).
    { change (join newline (firstn maxLines lines) ++ newline ++ tail)%string
        with (join (String lineFeed "") (firstn maxLines lines)
              ++ String lineFeed tail)%string.
      rewrite split_append_sep, split_join, (split_noChar Htail) by assumption.
      reflexivity. }
    rewrite Hsplit. split; [|split].
    + rewrite length_app, length_firstn. cbn. lia.
    + rewrite firstn_app, length_firstn.
      replace (maxLines - Nat.min maxLines (List.length lines)) with 0 by lia.
      rewrite firstn_firstn, Nat.min_id, app_nil_r. reflexivity.
    + intros H. lia.
  - apply Nat.ltb_ge in L. split; [|split].
    + fold lines. lia.
    + reflexivity.
    + reflexivity.
Qed.

Lemma truncateResult_lines_witness :
  List.length (split lineFeed
     (truncateResult ("a" ++ newline ++ "b" ++ newline ++ "c" ++ newline ++ "d") 2 2000))
  <= 2 + 1.
Proof.
  apply (@truncateResult_lines ("a" ++ newline ++ "b" ++ newline ++ "c" ++ newline ++ "d")
           2 2000).
  lia.
Defined.

(** *** [isBlockedToolResult] *)

(** X25.  A tool result recognised as blocked stays recognised when
    it is embedded in a longer text, and when it is flagged as an
    error. *)
Theorem isBlockedToolResult_monotone
  (before content after : string) (isError : option bool) :
  isBlockedToolResult content None = true \/ isBlockedToolResult content isError = true ->
  isBlockedToolResult (before ++ content ++ after) isError = true.
Proof.
  unfold isBlockedToolResult. rewrite !toLowerCase_append.
  set (lower := ToolCallRenderer.toLowerCase content).
  set (a := ToolCallRenderer.toLowerCase before).
  set (b := ToolCallRenderer.toLowerCase after).
  pose proof (fun sub => @includes_wrap a lower b sub) as W.
  assert (Hfin : forall sub (rest : bool),
             includes lower sub = true ->
             (if includes (a ++ lower ++ b) sub then true else rest) = true).
  { intros sub rest Hs. rewrite (W _ Hs). reflexivity. }
  destruct (includes lower "blocked by blocklist") eqn:H1; [intros _; apply Hfin, H1|].
  destruct (includes (a ++ lower ++ b) "blocked by blocklist"); [reflexivity|].
  destruct (includes lower "outside the vault") eqn:H2; [intros _; apply Hfin, H2|].
  destruct (includes (a ++ lower ++ b) "outside the vault"); [reflexivity|].
  destruct (includes lower "access denied") eqn:H3; [intros _; apply Hfin, H3|].
  destruct (includes (a ++ lower ++ b) "access denied"); [reflexivity|].
  destruct (includes lower "user denied") eqn:H4; [intros _; apply Hfin, H4|].
  destruct (includes (a ++ lower ++ b) "user denied"); [reflexivity|].
  destruct (includes lower "approval") eqn:H5; [intros _; apply Hfin, H5|].
  destruct (includes (a ++ lower ++ b) "approval"); [reflexivity|].
  intros [H|H]; [discriminate|].
  destruct isError as [[|]|]; try discriminate.
  destruct (includes lower "deny") eqn:H6; [|discriminate].
  rewrite (W _ H6). reflexivity.
Qed.

Lemma isBlockedToolResult_monotone_witness :
  isBlockedToolResult ("Error: " ++ "Access DENIED" ++ " for /etc/passwd") (Some false) = true.
Proof.
  apply (@isBlockedToolResult_monotone "Error: " "Access DENIED" " for /etc/passwd"
           (Some false)).
  left. reflexivity.
Defined.

End UiProperties.
